(** * Speaker diarization pipeline: scripts/speaker_diarize.py

    A shallow embedding of the diarization pipeline (speech activity
    detection, feature extraction, k-means++ clustering, silhouette based
    model selection and segment assembly) together with the properties
    stated for it.

    Numbers.  The script computes with Python floats (binary64) and NumPy
    float32 arrays.  The embedding is written once, over an abstract
    arithmetic interface [Arith]; it is instantiated by [float] (IEEE
    binary64, which runs the definitions) and by [R] (exact real
    arithmetic, in which the numerical statements are proved).  Statements
    that hold whatever the arithmetic are proved for every instance. *)

From Stdlib Require Import ZArith QArith Qround Qreals List Bool Lia Arith.
From Stdlib Require Import Reals Lra.
From Stdlib Require Import Floats.
From Stdlib Require Import String Ascii Decimal DecimalString DecimalNat.
From Stdlib Require Import Permutation Sorted.
Import ListNotations.

Set Implicit Arguments.
Local Open Scope nat_scope.

(* ================================================================== *)
(** * The arithmetic interface *)
(* ================================================================== *)

(** Scalar operations of Python floats and NumPy arrays.  [of_Q] reads a
    numeric literal or converts an integer; the [np_*] fields are the
    NumPy reductions and element-wise functions the script calls. *)
Class Arith (F : Type) : Type := {
  of_Q : Q -> F;
  fadd : F -> F -> F;
  fsub : F -> F -> F;
  fmul : F -> F -> F;
  fdiv : F -> F -> F;
  fsqrt : F -> F;
  fltb : F -> F -> bool;              (* a < b *)
  fleb : F -> F -> bool;              (* a <= b *)
  np_maximum : F -> F -> F;
  np_minimum : F -> F -> F;
  np_sum : list F -> F;
  np_dot : list F -> list F -> F;     (* one entry of a matrix product *)
  np_percentile : list F -> Q -> F;
  np_isfinite : F -> bool;
  np_isnan : F -> bool;
  lt_inf : F -> bool;                 (* a < float("inf") *)
  int_trunc : F -> Z;                 (* int(a) *)
  np_floor : F -> Z                   (* np.floor(a).astype(np.int32) *)
}.

(** The two transcendental functions of the mel scale. *)
Class MelScale (F : Type) : Type := {
  np_log10 : F -> F;
  pow10 : F -> F                      (* 10.0 ** a *)
}.

(** [np.random.Generator]: a draw returns a value and the next state. *)
Class Generator (F G : Type) : Type := {
  rng_integers : G -> nat -> nat * G;            (* rng.integers(0, n) *)
  rng_choice : G -> nat -> list F -> nat * G     (* rng.choice(n, p=probs) *)
}.

(** The spectral kernels of [extract_embedding] and [build_dct_matrix],
    which go through [np.fft], [np.log], [np.cos] and [np.hanning]. *)
Class Spectral (F : Type) : Type := {
  build_dct_matrix : nat -> nat -> list (list F);
  np_hanning : nat -> list F;
  (* mean and standard deviation, over the frames, of the mean-subtracted
     MFCC computed from the windowed frames *)
  mfcc_stats : list (list F) -> list (list F) -> list (list F) -> list F * list F;
  (* mean and standard deviation, over the frames, of the spectral centroid *)
  centroid_stats : list (list F) -> F * F
}.

(* ================================================================== *)
(** * Generic helpers: Python and NumPy idioms *)
(* ================================================================== *)

Section Helpers.
Context {A : Type}.

(** [l[i] = v], for an index in range. *)
Fixpoint set_nth (l : list A) (i : nat) (v : A) : list A :=
  match l, i with
  | [], _ => []
  | _ :: t, O => v :: t
  | h :: t, S i' => h :: set_nth t i' v
  end.

(** [l[lo:hi]] for [0 <= lo]. *)
Definition slice (l : list A) (lo hi : nat) : list A :=
  firstn (hi - lo) (skipn lo l).

(** [x[mask]]: the entries selected by a boolean mask. *)
Fixpoint select (l : list A) (mask : list bool) : list A :=
  match l, mask with
  | a :: l', b :: mask' => if b then a :: select l' mask' else select l' mask'
  | _, _ => []
  end.

(** A loop over [xs] that stops at the first failure. *)
Fixpoint fold_opt {S : Type} (step : S -> A -> option S) (xs : list A) (s : S)
  : option S :=
  match xs with
  | [] => Some s
  | x :: xs' => match step s x with
                | Some s' => fold_opt step xs' s'
                | None => None
                end
  end.
End Helpers.

Definition count_true (mask : list bool) : nat :=
  List.length (filter (fun b => b) mask).

(* ================================================================== *)
(** * The pipeline, over an arbitrary arithmetic *)
(* ================================================================== *)

(** The sample rate is fixed by [load_audio_mono_16k]; the frame
    geometry follows from it ([binary64_constants] below checks the
    integer conversions in binary64). *)
Definition sr : Z := 16000.
Definition vad_frame_size : nat := 480.     (* int(0.03 * sr) *)
Definition hop_size : nat := 160.           (* int(0.01 * sr) *)
Definition hole : nat := 12.                (* int(0.12 / (hop_size / sr)) *)
Definition min_chunk : nat := 64 * 100.     (* int(0.4 * sr) = 6400 *)
Definition emb_frame_size : nat := 400.     (* int(0.025 * sr) *)

Section Pipeline.
Context {F : Type} {AF : Arith F}.

Definition of_Z (z : Z) : F := of_Q (inject_Z z).
Definition of_nat (n : nat) : F := of_Z (Z.of_nat n).
Definition f0 : F := of_Q 0.

(** Python's builtin [max(a, b)] and [min(a, b)] on floats. *)
Definition py_max (a b : F) : F := if fltb a b then b else a.
Definition py_min (a b : F) : F := if fltb b a then b else a.

Definition np_mean (l : list F) : F := fdiv (np_sum l) (of_nat (List.length l)).
Definition sq (v : F) : F := fmul v v.
Definition vsub (a b : list F) : list F := map (fun p => fsub (fst p) (snd p)) (combine a b).
Definition sum_sq (v : list F) : F := np_sum (map sq v).
Definition np_zeros (n : nat) : list F := repeat f0 n.

(* ---------------------------------------------------------------- *)
(** ** build_mel_filterbank *)

Context {MF : MelScale F}.

Definition hz_to_mel (hz : F) : F :=
  fmul (of_Q 2595) (np_log10 (fadd (of_Q 1) (fdiv hz (of_Q 700)))).

Definition mel_to_hz (mel : F) : F :=
  fmul (of_Q 700) (fsub (pow10 (fdiv mel (of_Q 2595))) (of_Q 1)).

(** [np.linspace(start, stop, num)]: evenly spaced, last point [stop]. *)
Definition np_linspace (start stop : F) (num : nat) : list F :=
  let step := fdiv (fsub stop start) (of_nat (num - 1)) in
  map (fun i => if i =? num - 1 then stop
                else fadd (fmul (of_nat i) step) start)
      (seq 0 num).

(** The FFT-bin edges: [np.clip(np.floor(...), 0, n_fft // 2)]. *)
Definition mel_bins (sample_rate : Z) (n_fft n_mels : nat) (f_min f_max : F)
  : list nat :=
  let f_max := py_min f_max (fsub (fdiv (of_Z sample_rate) (of_Q 2)) (of_Q 1)) in
  let mel_min := hz_to_mel f_min in
  let mel_max := hz_to_mel f_max in
  let mel_points := np_linspace mel_min mel_max (n_mels + 2) in
  let hz_points := map mel_to_hz mel_points in
  map (fun hz =>
         let b := np_floor (fdiv (fmul (of_nat (n_fft + 1)) hz) (of_Z sample_rate)) in
         Z.to_nat (Z.min (Z.max b 0) (Z.of_nat (n_fft / 2))))
      hz_points.

(** [fb[m - 1, k] = num / float(den)]: fails on a zero denominator and
    on a column outside the row. *)
Definition fb_write (row : list F) (k : nat) (num den : Z) : option (list F) :=
  if (den =? 0)%Z then None
  else if k <? List.length row
       then Some (set_nth row k (fdiv (of_Z num) (of_Z den)))
       else None.

(** One triangular filter, from three consecutive bin edges. *)
Definition mel_filter_row (n_fft : nat) (left center right : nat)
  : option (list F) :=
  let center := if center <=? left then left + 1 else center in
  let right := if right <=? center then center + 1 else right in
  let right := Nat.min right (n_fft / 2) in
  let row0 := np_zeros (n_fft / 2 + 1) in
  match
    fold_opt (fun row k =>
                fb_write row k (Z.of_nat k - Z.of_nat left)
                         (Z.of_nat center - Z.of_nat left))
             (seq left (center - left)) row0
  with
  | None => None
  | Some row1 =>
      fold_opt (fun row k =>
                  fb_write row k (Z.of_nat right - Z.of_nat k)
                           (Z.of_nat right - Z.of_nat center))
               (seq center (right - center)) row1
  end.

Definition filterbank_of_bins (n_fft n_mels : nat) (bins : list nat)
  : option (list (list F)) :=
  fold_opt (fun fb m =>
              match mel_filter_row n_fft (nth (m - 1) bins 0) (nth m bins 0)
                                   (nth (m + 1) bins 0) with
              | Some row => Some (fb ++ [row])
              | None => None
              end)
           (seq 1 n_mels) [].

Definition build_mel_filterbank (sample_rate : Z) (n_fft n_mels : nat)
           (f_min f_max : F) : option (list (list F)) :=
  filterbank_of_bins n_fft n_mels (mel_bins sample_rate n_fft n_mels f_min f_max).

(* ---------------------------------------------------------------- *)
(** ** frame_audio *)

Definition frame_audio (audio : list F) (frame_size hop : nat) : list (list F) :=
  match audio with
  | [] => []
  | _ =>
      let audio :=
        if List.length audio <? frame_size
        then audio ++ np_zeros (frame_size - List.length audio)
        else audio in
      let frame_count := 1 + (List.length audio - frame_size) / hop in
      map (fun i => slice audio (i * hop) (i * hop + frame_size)) (seq 0 frame_count)
  end.

(* ---------------------------------------------------------------- *)
(** ** detect_speech_regions *)

(** The frame activity mask: RMS energy against the noise floor. *)
Definition speech_mask (frames : list (list F)) : list bool :=
  let rms := map (fun fr => fsqrt (fadd (np_mean (map sq fr)) (of_Q 1e-10))) frames in
  let noise_floor := np_percentile rms 20 in
  let threshold := py_max (fmul noise_floor (of_Q 2.2)) (of_Q 0.015) in
  map (fun r => fltb threshold r) rms.

(** Hole filling: [fixed] is a copy of the mask; frame [i] is set when it
    is inactive and the [hole] frames on either side are all active in
    the mask itself. *)
Definition fill_step (mask fixed : list bool) (i : nat) : list bool :=
  if negb (nth i mask false)
     && forallb (fun b => b) (slice mask (i - hole) i)
     && forallb (fun b => b) (slice mask (i + 1) (i + 1 + hole))
  then set_nth fixed i true
  else fixed.

Definition fill_holes (mask : list bool) : list bool :=
  let size := List.length mask in
  if (0 <? hole) && (2 * hole <? size)
  then fold_left (fill_step mask) (seq hole (size - hole - hole)) mask
  else mask.

(** The time interval of the frames [start .. stop]. *)
Definition region_of (start stop : nat) : F * F :=
  (fdiv (of_nat (start * hop_size)) (of_Z sr),
   fadd (fdiv (of_nat (stop * hop_size)) (of_Z sr))
        (fdiv (of_nat vad_frame_size) (of_Z sr))).

(** The scan over [enumerate(speech_mask)]; [i] is the index of the
    head of [mask], so that at the end [i] is [speech_mask.size]. *)
Fixpoint scan_regions (mask : list bool) (i : nat) (start : option nat)
         (regions : list (F * F)) : list (F * F) :=
  match mask with
  | [] =>
      match start with
      | Some st => regions ++ [region_of st (i - 1)]
      | None => regions
      end
  | active :: rest =>
      match active, start with
      | true, None => scan_regions rest (S i) (Some i) regions
      | false, Some st =>
          scan_regions rest (S i) None (regions ++ [region_of st (i - 1)])
      | _, _ => scan_regions rest (S i) start regions
      end
  end.

Definition min_duration : F := of_Q 0.65.
Definition max_gap : F := of_Q 0.35.

(** One step of the merge loop.  [merged] is kept newest first: its
    head is [merged[-1]]. *)
Definition merge_step (merged : list (F * F)) (r : F * F) : list (F * F) :=
  let (s, e) := r in
  if fltb (fsub e s) min_duration then merged
  else match merged with
       | [] => [(s, e)]
       | (prev_s, prev_e) :: older =>
           if fleb (fsub s prev_e) max_gap
           then (prev_s, e) :: older
           else (s, e) :: merged
       end.

Definition merge_regions (regions : list (F * F)) : list (F * F) :=
  List.rev (fold_left merge_step regions []).

Definition detect_speech_regions (audio : list F) : list (F * F) :=
  let frames := frame_audio audio vad_frame_size hop_size in
  match frames with
  | [] => []
  | _ =>
      let mask := fill_holes (speech_mask frames) in
      merge_regions (scan_regions mask 0 None [])
  end.

(* ---------------------------------------------------------------- *)
(** ** extract_embedding *)

Context {SP : Spectral F}.

(** [audio[s:e]] for [0 <= s]; a negative [e] counts from the end. *)
Definition py_slice (audio : list F) (s e : Z) : list F :=
  let size := Z.of_nat (List.length audio) in
  let e := if (e <? 0)%Z then Z.max 0 (size + e) else Z.min e size in
  slice audio (Z.to_nat s) (Z.to_nat e).

Definition chunk_of (audio : list F) (start_s end_s : F) : list F :=
  let s := Z.max 0 (int_trunc (fmul start_s (of_Z sr))) in
  let e := Z.min (Z.of_nat (List.length audio)) (int_trunc (fmul end_s (of_Z sr))) in
  py_slice audio s e.

Definition windowed_frames (chunk : list F) : list (list F) :=
  map (fun fr => map (fun p => fmul (fst p) (snd p))
                     (combine fr (np_hanning emb_frame_size)))
      (frame_audio chunk emb_frame_size hop_size).

(** The 30 features before normalisation. *)
Definition raw_feature (chunk : list F) (start_s end_s : F)
           (mel_fb dct : list (list F)) : list F :=
  let frames := windowed_frames chunk in
  let (mfcc_mean, mfcc_std) := mfcc_stats mel_fb dct frames in
  let (centroid_mean, centroid_std) := centroid_stats frames in
  mfcc_mean ++ mfcc_std
    ++ [ fdiv centroid_mean (of_Q 4000);
         fdiv centroid_std (of_Q 2000);
         fsub end_s start_s;
         np_mean (map (fun fr => fsqrt (np_mean (map sq fr))) frames) ].

(** [np.linalg.norm] of a vector. *)
Definition l2_norm (v : list F) : F := fsqrt (sum_sq v).

Definition extract_embedding (audio : list F) (start_s end_s : F)
           (mel_fb dct : list (list F)) : list F :=
  let chunk := chunk_of audio start_s end_s in
  if List.length chunk <? min_chunk then np_zeros 30
  else if List.length (frame_audio chunk emb_frame_size hop_size) <? 2
       then np_zeros 30
       else
         let feature := raw_feature chunk start_s end_s mel_fb dct in
         let norm := l2_norm feature in
         if fltb (of_Q 1e-8) norm
         then map (fun v => fdiv v norm) feature
         else feature.

(* ---------------------------------------------------------------- *)
(** ** pairwise_distances *)

Definition pairwise_distances (x : list (list F)) : list (list F) :=
  map (fun xi =>
         map (fun xj =>
                fsqrt (np_maximum
                         (fsub (fadd (sum_sq xi) (sum_sq xj))
                               (fmul (of_Q 2) (np_dot xi xj)))
                         f0))
             x)
      x.

(* ---------------------------------------------------------------- *)
(** ** kmeans_pp_init *)

Context {G : Type} {RG : Generator F G}.

Definition row (x : list (list F)) (i : nat) : list F := nth i x [].

(** [np.sum((x - c) ** 2, axis=1)]. *)
Definition dist_sq_to (x : list (list F)) (c : list F) : list F :=
  map (fun p => sum_sq (vsub p c)) x.

Definition pp_step (x : list (list F))
           (st : list (list F) * list F * G) (c : nat)
  : list (list F) * list F * G :=
  let '(centers, closest_dist_sq, rng) := st in
  let n := List.length x in
  let total := np_sum closest_dist_sq in
  let '(idx, rng) :=
    if fleb total (of_Q 1e-12) || negb (np_isfinite total)
    then rng_integers rng n
    else
      let probs := map (fun v => fdiv v total) closest_dist_sq in
      let probs := map (fun p => np_minimum (np_maximum p f0) (of_Q 1)) probs in
      let probs_sum := np_sum probs in
      if fleb probs_sum (of_Q 1e-12)
      then rng_integers rng n
      else rng_choice rng n (map (fun p => fdiv p probs_sum) probs) in
  let centers := set_nth centers c (row x idx) in
  let new_dist_sq := dist_sq_to x (nth c centers []) in
  (centers,
   map (fun p => np_minimum (fst p) (snd p)) (combine closest_dist_sq new_dist_sq),
   rng).

Definition kmeans_pp_init (x : list (list F)) (k : nat) (rng : G)
  : list (list F) :=
  let n := List.length x in
  let centers := repeat (np_zeros (List.length (hd [] x))) k in
  let (idx, rng) := rng_integers rng n in
  let centers := set_nth centers 0 (row x idx) in
  let closest_dist_sq := dist_sq_to x (nth 0 centers []) in
  fst (fst (fold_left (pp_step x) (seq 1 (k - 1)) (centers, closest_dist_sq, rng))).

(* ---------------------------------------------------------------- *)
(** ** run_kmeans *)

(** [np.argmin] and [np.argmax] of a vector: the first extremum, and a
    NaN wins. *)
Fixpoint argmin_from (l : list F) (i : nat) (mp : F) (best : nat) : nat :=
  match l with
  | [] => best
  | v :: rest =>
      if negb (fleb mp v)
      then if np_isnan v then i else argmin_from rest (S i) v i
      else argmin_from rest (S i) mp best
  end.

Definition np_argmin (l : list F) : nat :=
  match l with
  | [] => 0
  | v :: rest => if np_isnan v then 0 else argmin_from rest 1 v 0
  end.

Fixpoint argmax_from (l : list F) (i : nat) (mp : F) (best : nat) : nat :=
  match l with
  | [] => best
  | v :: rest =>
      if negb (fleb v mp)
      then if np_isnan v then i else argmax_from rest (S i) v i
      else argmax_from rest (S i) mp best
  end.

Definition np_argmax (l : list F) : nat :=
  match l with
  | [] => 0
  | v :: rest => if np_isnan v then 0 else argmax_from rest 1 v 0
  end.

(** [np.min] of a vector. *)
Definition np_min (l : list F) : F :=
  match l with
  | [] => f0
  | v :: rest => fold_left np_minimum rest v
  end.

(** [np.mean(members, axis=0)] for rows of width [d]. *)
Definition mean_rows (members : list (list F)) (d : nat) : list F :=
  map (fun c => np_mean (map (fun r => nth c r f0) members)) (seq 0 d).

(** [d[:n, n:]] of the distances of [np.vstack([x, centers])]. *)
Definition center_dists (x centers : list (list F)) : list (list F) :=
  let n := List.length x in
  map (skipn n) (firstn n (pairwise_distances (x ++ centers))).

Definition label_mask (labels : list nat) (j : nat) : list bool :=
  map (fun l => l =? j) labels.

Definition update_center (x : list (list F)) (labels : list nat)
           (dist : list (list F)) (centers : list (list F)) (j : nat)
  : list (list F) :=
  match select x (label_mask labels j) with
  | [] => set_nth centers j (row x (np_argmax (map np_min dist)))
  | members => set_nth centers j (mean_rows members (List.length (hd [] x)))
  end.

Definition labels_eqb (a b : list nat) : bool :=
  if list_eq_dec Nat.eq_dec a b then true else false.

(** The loop [for _ in range(max_iter)]. *)
Fixpoint kmeans_loop (iters : nat) (x : list (list F)) (k : nat)
         (labels : list nat) (centers : list (list F))
  : list nat * list (list F) :=
  match iters with
  | O => (labels, centers)
  | S iters' =>
      let dist := center_dists x centers in
      let new_labels := map np_argmin dist in
      if labels_eqb new_labels labels then (labels, centers)
      else
        let centers := fold_left (update_center x new_labels dist) (seq 0 k) centers in
        kmeans_loop iters' x k new_labels centers
  end.

Definition max_iter : nat := 60.

Definition inertia_of (x : list (list F)) (labels : list nat)
           (centers : list (list F)) : F :=
  let final_dist :=
    map (fun p => l2_norm (vsub (fst p) (nth (snd p) centers []))) (combine x labels) in
  np_sum (map sq final_dist).

Definition run_kmeans (default_rng : Z -> G) (x : list (list F)) (k : nat)
           (seed : Z) : list nat * list (list F) * F :=
  let rng := default_rng seed in
  let centers := kmeans_pp_init x k rng in
  let labels := repeat 0 (List.length x) in
  let (labels, centers) := kmeans_loop max_iter x k labels centers in
  (labels, centers, inertia_of x labels centers).

(* ---------------------------------------------------------------- *)
(** ** silhouette_score *)

Fixpoint insert_unique (v : nat) (l : list nat) : list nat :=
  match l with
  | [] => [v]
  | h :: t => if v <? h then v :: l
              else if v =? h then l
              else h :: insert_unique v t
  end.

(** [np.unique]: the distinct values, ascending. *)
Definition np_unique (labels : list nat) : list nat :=
  fold_right insert_unique [] labels.

(** [min(b, v)] where [b] starts as [float("inf")], here [None]. *)
Definition min_inf (b : option F) (v : F) : option F :=
  match b with
  | None => if lt_inf v then Some v else None
  | Some b' => Some (py_min b' v)
  end.

Definition sil_a (d_i : list F) (labels : list nat) (li : nat) : F :=
  let same := label_mask labels li in
  let same_count := count_true same in
  if same_count <=? 1 then f0
  else fdiv (np_sum (select d_i same)) (of_nat (same_count - 1)).

Definition sil_b (d_i : list F) (labels uniq : list nat) (li : nat) : option F :=
  fold_left
    (fun b c =>
       if c =? li then b
       else
         let other := label_mask labels c in
         if negb (existsb (fun o => o) other) then b
         else min_inf b (np_mean (select d_i other)))
    uniq None.

(** The score of one point; an infinite [denom] gives [0.0]. *)
Definition point_score (d_i : list F) (labels uniq : list nat) (li : nat) : F :=
  let a := sil_a d_i labels li in
  match sil_b d_i labels uniq li with
  | None => f0
  | Some b =>
      let denom := py_max a b in
      if negb (np_isfinite denom) || fleb denom (of_Q 1e-12) then f0
      else fdiv (fsub b a) denom
  end.

Definition silhouette_score (x : list (list F)) (labels : list nat) : F :=
  let n := List.length x in
  let uniq := np_unique labels in
  if (List.length uniq <=? 1) || (n <=? List.length uniq) then of_Q (-1)
  else
    let d := pairwise_distances x in
    let scores :=
      map (fun i => point_score (nth i d []) labels uniq (nth i labels 0)) (seq 0 n) in
    match scores with
    | [] => of_Q (-1)
    | _ => np_mean scores
    end.

(* ---------------------------------------------------------------- *)
(** ** choose_speaker_count *)

Definition seeds : list Z := [7; 17; 31]%Z.

(** [inertia < best_inertia], where [best_inertia] starts infinite. *)
Definition lt_best (inertia : F) (best : option F) : bool :=
  match best with
  | None => lt_inf inertia
  | Some b => fltb inertia b
  end.

(** The loop [for seed in (7, 17, 31)] keeping the lowest inertia. *)
Definition best_of_seeds (default_rng : Z -> G) (x : list (list F)) (k : nat)
  : option (list nat) :=
  fst (fold_left
         (fun (best : option (list nat) * option F) seed =>
            let '(labels, _, inertia) := run_kmeans default_rng x k seed in
            if lt_best inertia (snd best) then (Some labels, Some inertia) else best)
         seeds (None, None)).

Definition count_step (default_rng : Z -> G) (x : list (list F))
           (best : Z * F) (k : Z) : Z * F :=
  match best_of_seeds default_rng x (Z.to_nat k) with
  | None => best
  | Some best_for_k =>
      let sil := silhouette_score x best_for_k in
      let sil := fsub sil (fmul (of_Q 0.02) (of_Z (k - 1))) in
      if fltb (snd best) sil then (k, sil) else best
  end.

(** [range(lo, hi)] over the integers. *)
Definition range_Z (lo hi : Z) : list Z :=
  map (fun i => (lo + Z.of_nat i)%Z) (seq 0 (Z.to_nat (hi - lo))).

Definition choose_speaker_count (default_rng : Z -> G) (x : list (list F))
           (min_speakers max_speakers : Z) : Z :=
  let n := Z.of_nat (List.length x) in
  let max_k := Z.min max_speakers n in
  let min_k := Z.min min_speakers max_k in
  if (n <? 3)%Z || (max_k <=? 1)%Z then 1%Z
  else
    let (best_k, best_score) :=
      fold_left (count_step default_rng x)
                (range_Z (Z.max 2 min_k) (max_k + 1)) (1%Z, of_Q (-1)) in
    if fltb best_score (of_Q 0.10) then 1%Z else Z.max 1 best_k.

(* ---------------------------------------------------------------- *)
(** ** diarize *)

Record SpeechRegion : Type := {
  start : F;
  stop : F;                     (* the field [end] *)
  embedding : list F;
  label : nat
}.

Record Segment : Type := {
  seg_start : F;
  seg_end : F;
  speaker : string
}.

Record Result : Type := {
  segments : list Segment;
  num_speakers : nat
}.

Definition empty_result : Result := {| segments := []; num_speakers := 0 |}.

(** [dict.setdefault] on a dictionary kept in insertion order. *)
Fixpoint setdefault (d : list (nat * F)) (key : nat) (v : F) : list (nat * F) :=
  match d with
  | [] => [(key, v)]
  | (key', v') :: t =>
      if key =? key' then d else (key', v') :: setdefault t key v
  end.

(** [sorted(d.keys(), key=lambda x: d[x])]: a stable sort by value. *)
Fixpoint insert_by_value (e : nat * F) (l : list (nat * F)) : list (nat * F) :=
  match l with
  | [] => [e]
  | h :: t => if fltb (snd e) (snd h) then e :: l else h :: insert_by_value e t
  end.

Definition sorted_keys (d : list (nat * F)) : list nat :=
  map fst (fold_left (fun acc e => insert_by_value e acc) d []).

Definition string_of_nat (n : nat) : string :=
  NilEmpty.string_of_uint (Nat.to_uint n).

Definition participant (idx : nat) : string :=
  ("Participant " ++ string_of_nat (idx + 1))%string.

(** [{label: f"Participant {idx + 1}" for idx, label in enumerate(ordered)}]. *)
Definition name_table (ordered : list nat) : list (nat * string) :=
  map (fun p => (snd p, participant (fst p)))
      (combine (seq 0 (List.length ordered)) ordered).

Fixpoint name_of (table : list (nat * string)) (l : nat) : string :=
  match table with
  | [] => EmptyString
  | (l', name) :: t => if l =? l' then name else name_of t l
  end.

Definition max_merge_gap : F := of_Q 0.45.

(** One step of the final loop; [merged] is kept newest first. *)
Definition assemble_step (names : list (nat * string))
           (merged : list Segment) (r : SpeechRegion) : list Segment :=
  let speaker_r := name_of names (label r) in
  let fresh := {| seg_start := start r; seg_end := stop r; speaker := speaker_r |} in
  match merged with
  | [] => [fresh]
  | prev :: older =>
      if String.eqb (speaker prev) speaker_r
         && fleb (fsub (start r) (seg_end prev)) max_merge_gap
      then {| seg_start := seg_start prev;
              seg_end := py_max (seg_end prev) (stop r);
              speaker := speaker prev |} :: older
      else fresh :: merged
  end.

Definition first_seen (regions : list SpeechRegion) : list (nat * F) :=
  fold_left (fun d r => setdefault d (label r) (start r)) regions [].

(** Label stabilisation and segment merging. *)
Definition assemble (regions : list SpeechRegion) : Result :=
  let ordered := sorted_keys (first_seen regions) in
  let names := name_table ordered in
  {| segments := List.rev (fold_left (assemble_step names) regions []);
     num_speakers := List.length ordered |}.

Definition with_labels (regions : list SpeechRegion) (labels : list nat)
  : list SpeechRegion :=
  map (fun p => {| start := start (snd p); stop := stop (snd p);
                   embedding := embedding (snd p);
                   label := nth (fst p) labels 0 |})
      (combine (seq 0 (List.length regions)) regions).

Definition cluster_labels (default_rng : Z -> G) (x : list (list F))
           (min_speakers max_speakers : Z) : list nat :=
  let k := choose_speaker_count default_rng x min_speakers max_speakers in
  if (k <=? 1)%Z then repeat 0 (List.length x)
  else match best_of_seeds default_rng x (Z.to_nat k) with
       | Some best_labels => best_labels
       | None => repeat 0 (List.length x)
       end.

(** [diarize], from the decoded samples on.  [None] stands for an
    exception raised while the filterbank is built. *)
Definition diarize (default_rng : Z -> G) (audio : list F)
           (min_speakers max_speakers : Z) : option Result :=
  match audio with
  | [] => Some empty_result
  | _ =>
      match detect_speech_regions audio with
      | [] => Some empty_result
      | speech =>
          match build_mel_filterbank sr 512 24 (of_Q 80) (of_Q 7600) with
          | None => None
          | Some mel_fb =>
              let dct := build_dct_matrix 24 13 in
              let regions :=
                map (fun se => {| start := fst se; stop := snd se;
                                  embedding := extract_embedding audio (fst se) (snd se) mel_fb dct;
                                  label := 0 |})
                    speech in
              let x := map embedding regions in
              match x with
              | [] => Some empty_result
              | _ =>
                  let labels := cluster_labels default_rng x min_speakers max_speakers in
                  Some (assemble (with_labels regions labels))
              end
          end
      end
  end.

End Pipeline.

Arguments SpeechRegion : clear implicits.
Arguments Segment : clear implicits.
Arguments Result : clear implicits.

(* ================================================================== *)
(** * Two arithmetics: binary64 and the reals *)
(* ================================================================== *)

(** [np.percentile(l, q)] with linear interpolation, over given
    operations: sort, locate the virtual index [(n - 1) * q / 100], and
    interpolate between its two neighbours. *)
Section Percentile.
Variable T : Type.
Variables (leb : T -> T -> bool) (add sub mul : T -> T -> T) (ofQ : Q -> T).

Fixpoint insert_asc (v : T) (l : list T) : list T :=
  match l with
  | [] => [v]
  | h :: t => if leb v h then v :: l else h :: insert_asc v t
  end.

Definition percentile_with (l : list T) (q : Q) : T :=
  let sorted := fold_right insert_asc [] l in
  let pos := (inject_Z (Z.of_nat (List.length l - 1)) * q / 100)%Q in
  let j := Z.to_nat (Qfloor pos) in
  let gamma := (pos - inject_Z (Qfloor pos))%Q in
  let lo := nth j sorted (ofQ 0) in
  let hi := nth (Nat.min (j + 1) (List.length l - 1)) sorted (ofQ 0) in
  add lo (mul (sub hi lo) (ofQ gamma)).
End Percentile.

(** ** IEEE binary64 *)

Definition float_of_Z (z : Z) : float :=
  SF2Prim (binary_normalize prec emax z 0 false).

Definition float_of_Q (q : Q) : float :=
  (float_of_Z (Qnum q) / float_of_Z (Z.pos (Qden q)))%float.

(** [int(x)]: truncation towards zero. *)
Definition float_trunc (x : float) : Z :=
  match Prim2SF x with
  | S754_finite s m e =>
      let v := if (0 <=? e)%Z then (Z.pos m * 2 ^ e)%Z else (Z.pos m / 2 ^ (- e))%Z in
      if s then (- v)%Z else v
  | _ => 0%Z
  end.

Definition float_floor (x : float) : Z :=
  match Prim2SF x with
  | S754_finite s m e =>
      let n := if s then Z.neg m else Z.pos m in
      if (0 <=? e)%Z then (n * 2 ^ e)%Z else (n / 2 ^ (- e))%Z
  | _ => 0%Z
  end.

Definition float_maximum (a b : float) : float :=
  if is_nan a then a else if is_nan b then b
  else if (a <? b)%float then b else a.

Definition float_minimum (a b : float) : float :=
  if is_nan a then a else if is_nan b then b
  else if (b <? a)%float then b else a.

Definition float_sum (l : list float) : float :=
  fold_left PrimFloat.add l 0%float.

#[export] Instance float_arith : Arith float := {|
  of_Q := float_of_Q;
  fadd := PrimFloat.add;
  fsub := PrimFloat.sub;
  fmul := PrimFloat.mul;
  fdiv := PrimFloat.div;
  fsqrt := PrimFloat.sqrt;
  fltb := PrimFloat.ltb;
  fleb := PrimFloat.leb;
  np_maximum := float_maximum;
  np_minimum := float_minimum;
  np_sum := float_sum;
  np_dot := fun a b => float_sum (map (fun p => (fst p * snd p)%float) (combine a b));
  np_percentile :=
    percentile_with PrimFloat.leb PrimFloat.add PrimFloat.sub PrimFloat.mul float_of_Q;
  np_isfinite := is_finite;
  np_isnan := is_nan;
  lt_inf := fun a => (a <? infinity)%float;
  int_trunc := float_trunc;
  np_floor := float_floor
|}.

(** ** Exact real arithmetic *)

Definition Rltb (a b : R) : bool := if Rlt_dec a b then true else false.
Definition Rleb (a b : R) : bool := if Rle_dec a b then true else false.

Definition Rsum (l : list R) : R := fold_right Rplus 0%R l.

Definition Rtrunc (r : R) : Z :=
  if Rle_dec 0 r then Int_part r else (- Int_part (- r))%Z.

#[export] Instance real_arith : Arith R := {|
  of_Q := Q2R;
  fadd := Rplus;
  fsub := Rminus;
  fmul := Rmult;
  fdiv := Rdiv;
  fsqrt := R_sqrt.sqrt;
  fltb := Rltb;
  fleb := Rleb;
  np_maximum := Rmax;
  np_minimum := Rmin;
  np_sum := Rsum;
  np_dot := fun a b => Rsum (map (fun p => (fst p * snd p)%R) (combine a b));
  np_percentile := percentile_with Rleb Rplus Rminus Rmult Q2R;
  np_isfinite := fun _ => true;
  np_isnan := fun _ => false;
  lt_inf := fun _ => true;
  int_trunc := Rtrunc;
  np_floor := Int_part
|}.

#[export] Instance real_mel : MelScale R := {|
  np_log10 := fun x => (ln x / ln 10)%R;
  pow10 := fun y => Rpower 10 y
|}.

(** A generator that counts its draws, and constant spectral kernels:
    the simplest instances of the two interfaces, used to run the
    pipeline on examples. *)
#[export] Instance counting_generator {F : Type} : Generator F nat := {|
  rng_integers := fun g n => (g mod n, S g);
  rng_choice := fun g n _ => (g mod n, S g)
|}.

#[export] Instance constant_spectral {F : Type} {AF : Arith F} : Spectral F := {|
  build_dct_matrix := fun n_mels n_mfcc => repeat (np_zeros n_mels) n_mfcc;
  np_hanning := fun n => repeat (of_Q 1) n;
  mfcc_stats := fun _ _ _ => (np_zeros 13, np_zeros 13);
  centroid_stats := fun _ => (f0, f0)
|}.

(** A stand-in for the mel scale in binary64, which has no logarithm:
    the filterbank it gives feeds only the spectral kernels. *)
Definition linear_mel : MelScale float := {|
  np_log10 := fun x => x;
  pow10 := fun y => (1 + y)%float
|}.

(** A test signal: 0.04 s of silence, then, for each level, 0.64 s of
    samples at that level followed by 0.44 s of silence. *)
Definition burst_audio {F : Type} {AF : Arith F} (levels : list F) : list F :=
  np_zeros (4 * hop_size)
  ++ List.concat (map (fun a => repeat a (64 * hop_size) ++ np_zeros (44 * hop_size))
                      levels).

(* ================================================================== *)
(** * Vocabulary of the statements *)
(* ================================================================== *)

(** Every two consecutive elements of [l] are related by [P]. *)
Definition adjacent {A : Type} (P : A -> A -> Prop) (l : list A) : Prop :=
  forall l1 a b l2, l = l1 ++ a :: b :: l2 -> P a b.

(** ** Hole filling *)

(** The frames [lo .. hi - 1] are all active. *)
Definition all_active (mask : list bool) (lo hi : nat) : Prop :=
  forall j, lo <= j < hi -> nth j mask false = true.

(** The test of [fill_step]. *)
Definition isolated_hole (mask : list bool) (i : nat) : bool :=
  negb (nth i mask false)
  && forallb (fun b => b) (slice mask (i - hole) i)
  && forallb (fun b => b) (slice mask (i + 1) (i + 1 + hole)).

(** The claim as stated: every inactive run shorter than [hole] frames that
    is flanked by [hole] active frames on both sides is filled. *)
Definition short_gaps_closed (fill : list bool -> list bool) : Prop :=
  forall (mask : list bool) (i len : nat),
    0 < len < hole ->
    hole <= i -> i + len + hole <= List.length mask ->
    (forall j, i <= j < i + len -> nth j mask false = false) ->
    all_active mask (i - hole) i ->
    all_active mask (i + len) (i + len + hole) ->
    forall j, i <= j < i + len -> nth j (fill mask) false = true.

(** ** Segments *)

(** Two consecutive segments that the final loop should have merged:
    same speaker, and the next starts at most 0.45 s after the previous
    ends. *)
Definition mergeable {F : Type} {AF : Arith F} (p q : Segment F) : Prop :=
  speaker p = speaker q /\
  fleb (fsub (seg_start q) (seg_end p)) max_merge_gap = true.

(** A list of intervals (with bounds [lo] and [hi]), in time order: each
    has positive length and each ends before the next starts. *)
Definition separated_by {A : Type} (lo hi : A -> R) (l : list A) : Prop :=
  Forall (fun r => (lo r < hi r)%R) l /\ adjacent (fun a b => (hi a < lo b)%R) l.

Definition separated : list (R * R) -> Prop := separated_by fst snd.

(** ** Clustering *)

(** The total variance of the points: the sum of the squared Euclidean
    distances to their mean. *)
Definition total_variance {F : Type} {AF : Arith F} (x : list (list F)) : F :=
  let mean := mean_rows x (List.length (hd [] x)) in
  np_sum (map (fun p => sum_sq (vsub p mean)) x).

(** The Euclidean distance of two points. *)
Definition euclid (p q : list R) : R :=
  R_sqrt.sqrt
    (Rsum (map (fun ab => ((fst ab - snd ab) * (fst ab - snd ab))%R) (combine p q))).

(** The indices of the points of cluster [c]. *)
Definition members (labels : list nat) (c : nat) : list nat :=
  filter (fun j => nth j labels 0 =? c) (seq 0 (List.length labels)).

(** The mean distance from point [i] to the points [js]. *)
Definition mean_dist (x : list (list R)) (i : nat) (js : list nat) : R :=
  (Rsum (map (fun j => euclid (nth i x []) (nth j x [])) js) / INR (List.length js))%R.

(** [a]: the mean distance to the other members of the point's cluster;
    undefined for a point alone in its cluster. *)
Definition sil_a_spec (x : list (list R)) (labels : list nat) (i : nat) : option R :=
  match filter (fun j => negb (j =? i)) (members labels (nth i labels 0)) with
  | [] => None
  | js => Some (mean_dist x i js)
  end.

(** The minimum of a list of reals; undefined for the empty list. *)
Definition min_list (l : list R) : option R :=
  fold_left (fun acc m => match acc with None => Some m | Some b => Some (Rmin b m) end)
            l None.

(** [b]: the least mean distance to the members of another cluster. *)
Definition sil_b_spec (x : list (list R)) (labels : list nat) (i : nat) : option R :=
  min_list (map (fun c => mean_dist x i (members labels c))
                (filter (fun c => negb (c =? nth i labels 0)) (np_unique labels))).

(** The score of a point as the claim has it: [0] when [a] or [b] is
    undefined. *)
Definition score_claimed (x : list (list R)) (labels : list nat) (i : nat) : R :=
  match sil_a_spec x labels i, sil_b_spec x labels i with
  | Some a, Some b => ((b - a) / Rmax a b)%R
  | _, _ => 0%R
  end.

(** The score of a point as the code computes it: [a] is [0] for a point
    alone in its cluster, and the score is [0] only for a tiny
    [max a b]. *)
Definition score_amended (x : list (list R)) (labels : list nat) (i : nat) : R :=
  let a := match sil_a_spec x labels i with Some a => a | None => 0%R end in
  match sil_b_spec x labels i with
  | None => 0%R
  | Some b => if Rle_dec (Rmax a b) (1 / 10 ^ 12) then 0%R else ((b - a) / Rmax a b)%R
  end.

Definition mean_over_points (score : nat -> R) (n : nat) : R :=
  (Rsum (map score (seq 0 n)) / INR n)%R.

(** The claim as stated: the mean of the scores that are [0] whenever
    [a] or [b] is undefined. *)
Definition silhouette_claim : Prop :=
  forall (x : list (list R)) (labels : list nat),
    (forall p q, In p x -> In q x -> List.length p = List.length q) ->
    List.length labels = List.length x ->
    2 <= List.length (np_unique labels) < List.length x ->
    silhouette_score x labels = mean_over_points (score_claimed x labels) (List.length x).

(** The samples [frame_audio] cuts frames from: the audio itself, or the
    audio padded with zeros up to one frame. *)
Definition padded {F : Type} {AF : Arith F} (audio : list F) (frame_size : nat) : list F :=
  audio ++ np_zeros (frame_size - List.length audio).

(** The contract of NumPy's generator: [rng.integers(0, n)] and
    [rng.choice(n, p=probs)] return an index below [n]. *)
Definition draws_in_range {F G : Type} {RG : Generator F G} : Prop :=
  forall (g : G) (n : nat), 0 < n ->
    fst (rng_integers g n) < n /\ forall probs, fst (rng_choice g n probs) < n.

(** Speaker names are numbered in the order of their first appearance:
    whoever is called [Participant i + 2] speaks only after somebody
    called [Participant i + 1] has. *)
Definition numbered_by_appearance (names : list string) : Prop :=
  forall pre s post i,
    names = pre ++ s :: post -> s = participant (S i) -> In (participant i) pre.

(** The newest-first form of [numbered_by_appearance]. *)
Fixpoint numbered_rev (l : list string) : Prop :=
  match l with
  | [] => True
  | s :: older =>
      (forall i, s = participant (S i) -> In (participant i) older) /\ numbered_rev older
  end.

(* ================================================================== *)
(** * load_audio_mono_16k, from the resampled arrays on *)
(* ================================================================== *)

(** [np.abs] and [np.max], used for the peak of the decoded audio. *)
Class AbsMax (F : Type) : Type := {
  np_abs : F -> F;
  np_max : list F -> F
}.

#[export] Instance real_absmax : AbsMax R := {|
  np_abs := Rabs;
  np_max := fun l => match l with
                     | [] => 0%R
                     | v :: rest => fold_left Rmax rest v
                     end
|}.

#[export] Instance float_absmax : AbsMax float := {|
  np_abs := PrimFloat.abs;
  np_max := fun l => match l with
                     | [] => 0%float
                     | v :: rest => fold_left float_maximum rest v
                     end
|}.

Section LoadAudio.
Context {F : Type} {AF : Arith F} {AM : AbsMax F}.

(** The arrays appended to [chunks] for one list of resampled frames:
    [out.to_ndarray().astype(np.float32).reshape(-1)], kept when
    [arr.size] is not zero. *)
Definition keep_chunks (resampled : list (list F)) : list (list F) :=
  filter (fun arr => negb (List.length arr =? 0)) resampled.

(** Peak normalisation of the concatenated samples. *)
Definition normalize_peak (audio : list F) : list F :=
  let peak := match audio with [] => f0 | _ => np_max (map np_abs audio) end in
  if fltb (of_Q 1e-6) peak then map (fun v => fdiv v peak) audio else audio.

(** [load_audio_mono_16k], given what PyAV delivers: [None] when the
    container has no audio stream, and otherwise the arrays returned by
    the resampler for each decoded frame, and those of the final flush. *)
Definition load_audio_mono_16k
           (stream : option (list (list (list F)) * list (list F))) : list F * Z :=
  match stream with
  | None => (np_zeros 0, 16000%Z)
  | Some (decoded, flushed) =>
      let chunks := List.concat (map keep_chunks decoded) ++ keep_chunks flushed in
      match chunks with
      | [] => (np_zeros 0, 16000%Z)
      | _ => (normalize_peak (List.concat chunks), 16000%Z)
      end
  end.
End LoadAudio.

(* ================================================================== *)
(** * Properties *)
(* ================================================================== *)

Unset Implicit Arguments.

(** The integer constants of the frame geometry, as binary64 computes
    them from the literals of the script. *)
Lemma binary64_constants :
  int_trunc (fmul (of_Q 0.03 : float) (of_Z sr)) = Z.of_nat vad_frame_size /\
  int_trunc (fmul (of_Q 0.01 : float) (of_Z sr)) = Z.of_nat hop_size /\
  int_trunc (fdiv (of_Q 0.12 : float) (fdiv (of_nat hop_size) (of_Z sr))) = Z.of_nat hole /\
  int_trunc (fmul (of_Q 0.4 : float) (of_Z sr)) = Z.of_nat min_chunk /\
  int_trunc (fmul (of_Q 0.025 : float) (of_Z sr)) = Z.of_nat emb_frame_size.
Proof. repeat split; vm_compute; reflexivity. Qed.

(* ================================================================== *)
(** * Hole filling in the activity mask *)
(* ================================================================== *)

Section ListFacts.
Context {A : Type}.

Lemma set_nth_length (l : list A) i v : List.length (set_nth l i v) = List.length l.
Proof. revert i; induction l as [|h t IH]; intros [|i]; simpl; auto. Qed.

Lemma nth_set_nth (l : list A) i j v d :
  nth j (set_nth l i v) d = if (j =? i) && (i <? List.length l) then v else nth j l d.
Proof.
  revert i j; induction l as [|h t IH]; intros i j; simpl.
  - destruct j, i; simpl; try reflexivity; rewrite ?andb_false_r; reflexivity.
  - destruct i as [|i], j as [|j]; simpl; try reflexivity.
    rewrite IH. reflexivity.
Qed.

Lemma nth_slice (l : list A) lo hi j d :
  j < hi - lo -> nth j (slice l lo hi) d = nth (lo + j) l d.
Proof.
  intros Hj. unfold slice.
  rewrite nth_firstn. destruct (Nat.ltb_spec j (hi - lo)); [|lia].
  rewrite nth_skipn. reflexivity.
Qed.

Lemma slice_length (l : list A) lo hi :
  hi <= List.length l -> List.length (slice l lo hi) = hi - lo.
Proof. intros H. unfold slice. rewrite length_firstn, length_skipn. lia. Qed.
End ListFacts.

Lemma forallb_slice_active (mask : list bool) lo hi :
  lo <= hi -> hi <= List.length mask ->
  (forallb (fun b => b) (slice mask lo hi) = true <-> all_active mask lo hi).
Proof.
  intros Hlo Hhi. rewrite forallb_forall. split.
  - intros H j Hj.
    replace j with (lo + (j - lo)) by lia.
    rewrite <- (nth_slice mask lo hi) by lia.
    apply H, nth_In. rewrite slice_length by lia. lia.
  - intros H b Hb.
    destruct (In_nth _ _ false Hb) as (j & Hj & <-).
    rewrite slice_length in Hj by lia.
    rewrite nth_slice by lia. apply H. lia.
Qed.

Lemma fill_step_length mask fixed i :
  List.length (fill_step mask fixed i) = List.length fixed.
Proof. unfold fill_step. destruct (_ && _); [apply set_nth_length | reflexivity]. Qed.

Lemma fill_fold_nth mask (idx : list nat) : forall fixed j,
  (forall i, In i idx -> i < List.length fixed) ->
  nth j (fold_left (fill_step mask) idx fixed) false
  = nth j fixed false || existsb (fun i => (i =? j) && isolated_hole mask i) idx.
Proof.
  induction idx as [|i idx IH]; intros fixed j Hin; simpl.
  - now rewrite orb_false_r.
  - rewrite IH.
    2:{ intros i' Hi'. rewrite fill_step_length. apply Hin. now right. }
    assert (Hi : i < List.length fixed) by (apply Hin; now left).
    unfold fill_step. fold (isolated_hole mask i).
    destruct (isolated_hole mask i) eqn:Hc.
    + rewrite nth_set_nth.
      destruct (Nat.ltb_spec i (List.length fixed)); [|lia].
      rewrite andb_true_r, (Nat.eqb_sym i j).
      destruct (j =? i); simpl; [now rewrite orb_true_r | reflexivity].
    + rewrite andb_false_r. reflexivity.
Qed.

Lemma existsb_seq_at (P : nat -> bool) lo len j :
  existsb (fun i => (i =? j) && P i) (seq lo len) = (lo <=? j) && (j <? lo + len) && P j.
Proof.
  revert lo; induction len as [|len IH]; intros lo.
  - cbn [seq existsb].
    destruct (Nat.leb_spec lo j), (Nat.ltb_spec j (lo + 0)); simpl; auto; lia.
  - cbn [seq existsb]. rewrite IH.
    destruct (Nat.eqb_spec lo j) as [->|Hne].
    + destruct (Nat.leb_spec j j), (Nat.ltb_spec j (j + S len)); try lia.
      cbn [andb]. destruct (P j); cbn [orb andb]; auto.
      now rewrite andb_false_r.
    + cbn [andb orb].
      destruct (Nat.leb_spec (S lo) j), (Nat.leb_spec lo j),
        (Nat.ltb_spec j (S lo + len)), (Nat.ltb_spec j (lo + S len));
        cbn [andb]; auto; lia.
Qed.

(** What the loop does: a frame is active after hole filling exactly when
    it was active before, or it is a single inactive frame whose 12
    preceding and 12 following frames are all active. *)
Lemma fill_holes_single_frame (mask : list bool) (i : nat) :
  nth i (fill_holes mask) false = true <->
  nth i mask false = true \/
  (nth i mask false = false /\ hole <= i /\ i + hole < List.length mask /\
   all_active mask (i - hole) i /\ all_active mask (i + 1) (i + 1 + hole)).
Proof.
  unfold fill_holes.
  destruct ((0 <? hole) && (2 * hole <? List.length mask)) eqn:Hg.
  - apply andb_true_iff in Hg as [_ Hn]. apply Nat.ltb_lt in Hn.
    rewrite fill_fold_nth.
    2:{ intros k Hk. apply in_seq in Hk. lia. }
    rewrite existsb_seq_at, orb_true_iff, !andb_true_iff.
    unfold isolated_hole. rewrite !andb_true_iff, negb_true_iff.
    rewrite Nat.leb_le, Nat.ltb_lt.
    split.
    + intros [H|[[Hlo Hhi] [[Hoff Hb] Ha]]]; [now left|right].
      apply forallb_slice_active in Hb; [|lia|lia].
      apply forallb_slice_active in Ha; [|lia|lia].
      repeat split; auto; lia.
    + intros [H|(Hoff & Hlo & Hhi & Hb & Ha)]; [now left|right].
      repeat split; auto; try lia; apply forallb_slice_active; auto; lia.
  - split; [now left|].
    intros [H|(Hoff & Hlo & Hhi & _)]; auto.
    apply andb_false_iff in Hg as [Hg|Hg].
    + discriminate.
    + apply Nat.ltb_ge in Hg. lia.
Qed.

(** C5 (the code at the failing input): twelve active frames, two
    inactive frames, twelve active frames.  The gap lasts 0.02 s, less
    than 0.12 s, and both 0.12 s windows around it are fully active, yet
    hole filling returns the mask unchanged, so the gap still splits the
    speech interval and the claim fails.  The same happens to every gap
    of two frames or more: an inactive frame next to another inactive
    frame is never filled. *)
Theorem fill_holes_two_frame_gap :
  let mask := repeat true 12 ++ [false; false] ++ repeat true 12 in
  fill_holes mask = mask
  /\ ~ short_gaps_closed fill_holes
  /\ forall (m : list bool) (i : nat),
       nth i m false = false ->
       nth (i + 1) m false = false \/ (0 < i /\ nth (i - 1) m false = false) ->
       nth i (fill_holes m) false = false.
Proof.
  cbv zeta. split; [reflexivity|]. split.
  - intros H.
    pose (mask := repeat true 12 ++ [false; false] ++ repeat true 12).
    assert (Ht : nth 12 (fill_holes mask) false = true).
    { apply (H mask 12 2).
      - unfold hole; lia.
      - unfold hole; lia.
      - unfold hole; simpl; lia.
      - intros j Hj. assert (j = 12 \/ j = 13) as [->| ->] by lia; reflexivity.
      - intros j Hj. unfold hole in Hj.
        do 12 (destruct j as [|j]; [reflexivity|]). lia.
      - intros j Hj. unfold hole in Hj.
        do 14 (destruct j as [|j]; [lia|]).
        do 12 (destruct j as [|j]; [reflexivity|]). lia.
      - lia. }
    discriminate Ht.
  - intros m i Hoff Hnext.
    destruct (nth i (fill_holes m) false) eqn:E; [exfalso|reflexivity].
    apply fill_holes_single_frame in E
      as [E|(_ & Hlo & Hhi & Hbefore & Hafter)]; [congruence|].
    unfold hole in *.
    destruct Hnext as [Hn|[Hpos Hn]].
    + rewrite Hafter in Hn by lia. discriminate.
    + rewrite Hbefore in Hn by lia. discriminate.
Qed.

(* ================================================================== *)
(** * The filterbank is always built *)
(* ================================================================== *)

Section FilterbankTotal.
Context {F : Type} {AF : Arith F}.

Lemma fold_opt_fb_write (num den : nat -> Z) (ks : list nat) : forall row : list F,
  (forall k, In k ks -> k < List.length row /\ den k <> 0%Z) ->
  exists row', fold_opt (fun row k => fb_write row k (num k) (den k)) ks row = Some row'
               /\ List.length row' = List.length row.
Proof.
  induction ks as [|k ks IH]; intros row Hks; simpl.
  - eauto.
  - destruct (Hks k (or_introl eq_refl)) as [Hk Hd].
    unfold fb_write at 1.
    destruct (Z.eqb_spec (den k) 0); [contradiction|].
    destruct (Nat.ltb_spec k (List.length row)); [|lia].
    destruct (IH (set_nth row k (fdiv (of_Z (num k)) (of_Z (den k))))) as (row' & Hr & Hl).
    { intros k' Hk'. rewrite set_nth_length. apply Hks. now right. }
    exists row'. split; [exact Hr|]. now rewrite Hl, set_nth_length.
Qed.

Lemma np_zeros_length n : List.length (np_zeros (F:=F) n) = n.
Proof. apply repeat_length. Qed.

(** No filter divides by zero or writes outside its row, whatever the
    bin edges, as long as they were clipped to [0, n_fft / 2]. *)
Lemma mel_filter_row_total (n_fft left center right : nat) :
  left <= n_fft / 2 -> center <= n_fft / 2 ->
  exists row : list F,
    mel_filter_row n_fft left center right = Some row
    /\ List.length row = n_fft / 2 + 1.
Proof.
  intros Hl Hc. unfold mel_filter_row.
  set (c := if center <=? left then left + 1 else center).
  set (r := Nat.min (if right <=? c then c + 1 else right) (n_fft / 2)).
  assert (Hc' : left < c /\ c <= n_fft / 2 + 1).
  { unfold c. destruct (Nat.leb_spec center left); lia. }
  destruct (fold_opt_fb_write (fun k => Z.of_nat k - Z.of_nat left)%Z
              (fun _ => Z.of_nat c - Z.of_nat left)%Z
              (seq left (c - left)) (np_zeros (n_fft / 2 + 1))) as (row1 & H1 & L1).
  { intros k Hk. apply in_seq in Hk. rewrite np_zeros_length. lia. }
  rewrite H1.
  destruct (fold_opt_fb_write (fun k => Z.of_nat r - Z.of_nat k)%Z
              (fun _ => Z.of_nat r - Z.of_nat c)%Z
              (seq c (r - c)) row1) as (row2 & H2 & L2).
  { intros k Hk. apply in_seq in Hk. rewrite L1, np_zeros_length.
    assert (r <= n_fft / 2) by (unfold r; lia). lia. }
  exists row2. split; [exact H2|]. now rewrite L2, L1, np_zeros_length.
Qed.

Lemma filterbank_of_bins_total (n_fft n_mels : nat) (bins : list nat) :
  Forall (fun b => b <= n_fft / 2) bins ->
  exists fb : list (list F),
    filterbank_of_bins n_fft n_mels bins = Some fb
    /\ List.length fb = n_mels
    /\ Forall (fun row => List.length row = n_fft / 2 + 1) fb.
Proof.
  intros Hb. unfold filterbank_of_bins.
  assert (Hnth : forall i, nth i bins 0 <= n_fft / 2).
  { intros i. destruct (Nat.lt_ge_cases i (List.length bins)) as [Hi|Hi].
    - rewrite Forall_forall in Hb. apply Hb, nth_In, Hi.
    - rewrite nth_overflow by exact Hi. lia. }
  assert (Hgen : forall ms (fb0 : list (list F)),
    Forall (fun row => List.length row = n_fft / 2 + 1) fb0 ->
    exists fb,
      fold_opt (fun fb m =>
                  match mel_filter_row n_fft (nth (m - 1) bins 0) (nth m bins 0)
                                       (nth (m + 1) bins 0) with
                  | Some row => Some (fb ++ [row])
                  | None => None
                  end) ms fb0 = Some fb
      /\ List.length fb = List.length fb0 + List.length ms
      /\ Forall (fun row => List.length row = n_fft / 2 + 1) fb).
  { induction ms as [|m ms IH]; intros fb0 H0; simpl.
    - exists fb0. repeat split; auto.
    - destruct (mel_filter_row_total n_fft (nth (m - 1) bins 0) (nth m bins 0)
                  (nth (m + 1) bins 0) (Hnth _) (Hnth _)) as (row & Hr & Hlen).
      rewrite Hr.
      destruct (IH (fb0 ++ [row])) as (fb & Hf & Hl & Hall).
      { apply Forall_app. split; auto. }
      exists fb. repeat split; auto.
      rewrite Hl, length_app. simpl. lia. }
  destruct (Hgen (seq 1 n_mels) [] (Forall_nil _)) as (fb & Hf & Hl & Hall).
  exists fb. repeat split; auto. now rewrite Hl, length_seq.
Qed.

Context {MF : MelScale F}.

Lemma mel_bins_clipped (sample_rate : Z) (n_fft n_mels : nat) (f_min f_max : F) :
  Forall (fun b => b <= n_fft / 2) (mel_bins sample_rate n_fft n_mels f_min f_max).
Proof.
  unfold mel_bins. apply Forall_forall. intros b Hb.
  apply in_map_iff in Hb as (hz & <- & _). lia.
Qed.

Lemma build_mel_filterbank_total (sample_rate : Z) (n_fft n_mels : nat) (f_min f_max : F) :
  exists fb : list (list F),
    build_mel_filterbank sample_rate n_fft n_mels f_min f_max = Some fb
    /\ List.length fb = n_mels
    /\ Forall (fun row => List.length row = n_fft / 2 + 1) fb.
Proof. apply filterbank_of_bins_total, mel_bins_clipped. Qed.
End FilterbankTotal.

(* ================================================================== *)
(** * Segment assembly, for every arithmetic *)
(* ================================================================== *)

Section Adjacent.
Context {A : Type} (P : A -> A -> Prop).

Lemma adjacent_nil : adjacent P [].
Proof. intros [|z l1] a b l2 H; discriminate. Qed.

Lemma adjacent_one x : adjacent P [x].
Proof. intros [|z [|z' l1]] a b l2 H; discriminate. Qed.

Lemma adjacent_cons x y l :
  P x y -> adjacent P (y :: l) -> adjacent P (x :: y :: l).
Proof.
  intros Hxy Hl [|z l1] a b l2 H; simpl in H.
  - now inversion H; subst.
  - inversion H; subst. eapply Hl; eassumption.
Qed.

Lemma adjacent_tail x l : adjacent P (x :: l) -> adjacent P l.
Proof. intros H l1 a b l2 ->. apply (H (x :: l1) a b l2). reflexivity. Qed.

Lemma adjacent_rev l : adjacent (fun a b => P b a) l -> adjacent P (List.rev l).
Proof.
  intros H l1 a b l2 Hr.
  apply (H (List.rev l2) b a (List.rev l1)).
  rewrite <- (rev_involutive l), Hr, rev_app_distr. simpl.
  now rewrite <- !app_assoc.
Qed.
End Adjacent.

Lemma map_snd_combine_seq {A : Type} (l : list A) lo :
  map snd (combine (seq lo (List.length l)) l) = l.
Proof.
  revert lo; induction l as [|a l IH]; intros lo; simpl; [reflexivity|].
  now rewrite IH.
Qed.

Lemma map_fst_combine_seq {A : Type} (l : list A) lo :
  map fst (combine (seq lo (List.length l)) l) = seq lo (List.length l).
Proof.
  revert lo; induction l as [|a l IH]; intros lo; simpl; [reflexivity|].
  now rewrite IH.
Qed.

Section Assemble.
Context {F : Type} {AF : Arith F}.

Lemma py_max_cases (a b : F) : py_max a b = a \/ py_max a b = b.
Proof. unfold py_max. destruct (fltb a b); auto. Qed.

Lemma assemble_step_unmerged names (merged : list (Segment F)) (r : SpeechRegion F) :
  adjacent (fun q p => ~ mergeable p q) merged ->
  adjacent (fun q p => ~ mergeable p q) (assemble_step names merged r).
Proof.
  intros Hm. unfold assemble_step.
  destruct merged as [|prev older]; [apply adjacent_one|].
  destruct (String.eqb (speaker prev) (name_of names (label r))
            && fleb (fsub (start r) (seg_end prev)) max_merge_gap) eqn:Ht.
  - destruct older as [|p2 older']; [apply adjacent_one|].
    apply adjacent_cons.
    + intros Hmg. apply (Hm [] prev p2 older' eq_refl). exact Hmg.
    + eapply adjacent_tail, Hm.
  - apply adjacent_cons; [|exact Hm].
    intros [Hs Hg]. simpl in Hs, Hg.
    rewrite Hs, String.eqb_refl, Hg in Ht. discriminate.
Qed.

Lemma fold_assemble_unmerged names (regions : list (SpeechRegion F)) : forall merged,
  adjacent (fun q p => ~ mergeable p q) merged ->
  adjacent (fun q p => ~ mergeable p q) (fold_left (assemble_step names) regions merged).
Proof.
  induction regions as [|r rs IH]; intros merged Hm; simpl; auto.
  apply IH, assemble_step_unmerged, Hm.
Qed.

Lemma assemble_unmerged (regions : list (SpeechRegion F)) :
  adjacent (fun p q => ~ mergeable p q) (segments (assemble regions)).
Proof.
  unfold assemble. simpl. apply adjacent_rev, fold_assemble_unmerged, adjacent_nil.
Qed.

(** Timestamps of segments are timestamps of regions. *)
Lemma fold_assemble_times names (regions : list (SpeechRegion F)) : forall merged starts stops,
  Forall (fun g => In (seg_start g) starts /\ In (seg_end g) stops) merged ->
  incl (map start regions) starts -> incl (map stop regions) stops ->
  Forall (fun g => In (seg_start g) starts /\ In (seg_end g) stops)
         (fold_left (assemble_step names) regions merged).
Proof.
  induction regions as [|r rs IH]; intros merged starts stops Hm Hs He; simpl; auto.
  apply IH.
  - assert (Hr : In (start r) starts /\ In (stop r) stops).
    { split; [apply Hs|apply He]; now left. }
    unfold assemble_step.
    destruct merged as [|prev older].
    + constructor; auto.
    + inversion Hm as [|? ? Hp Ho]; subst.
      destruct (_ && _).
      * constructor; auto. simpl. split; [tauto|].
        destruct (py_max_cases (seg_end prev) (stop r)) as [-> | ->]; tauto.
      * constructor; auto.
  - intros x Hx. apply Hs. now right.
  - intros x Hx. apply He. now right.
Qed.

Lemma assemble_times (regions : list (SpeechRegion F)) :
  Forall (fun g => In (seg_start g) (map start regions)
                   /\ In (seg_end g) (map stop regions))
         (segments (assemble regions)).
Proof.
  unfold assemble. simpl. apply Forall_rev.
  apply fold_assemble_times; auto using incl_refl.
Qed.

Lemma with_labels_times (regions : list (SpeechRegion F)) labels :
  map (fun g => (start g, stop g)) (with_labels regions labels)
  = map (fun g => (start g, stop g)) regions.
Proof.
  unfold with_labels. rewrite map_map. simpl.
  now rewrite <- (map_map snd (fun g => (start g, stop g))), map_snd_combine_seq.
Qed.

Lemma with_labels_start (regions : list (SpeechRegion F)) labels :
  map start (with_labels regions labels) = map start regions.
Proof.
  unfold with_labels. rewrite map_map. simpl.
  now rewrite <- (map_map snd start), map_snd_combine_seq.
Qed.

Lemma with_labels_stop (regions : list (SpeechRegion F)) labels :
  map stop (with_labels regions labels) = map stop regions.
Proof.
  unfold with_labels. rewrite map_map. simpl.
  now rewrite <- (map_map snd stop), map_snd_combine_seq.
Qed.
End Assemble.

(** ** Display names *)

Lemma string_of_nat_inj (n m : nat) : string_of_nat n = string_of_nat m -> n = m.
Proof.
  unfold string_of_nat. intros H.
  apply Unsigned.to_uint_inj.
  assert (Hs : Some (Nat.to_uint n) = Some (Nat.to_uint m)).
  { rewrite <- !NilEmpty.usu. now rewrite H. }
  now inversion Hs.
Qed.

Lemma participant_inj (i j : nat) : participant i = participant j -> i = j.
Proof.
  unfold participant. intros H. simpl in H.
  inversion H as [H']. apply string_of_nat_inj in H'. lia.
Qed.

Section SpeakerCount.
Context {F : Type} {AF : Arith F}.

Lemma setdefault_keys (d : list (nat * F)) key v :
  map fst (setdefault d key v)
  = if in_dec Nat.eq_dec key (map fst d) then map fst d else map fst d ++ [key].
Proof.
  induction d as [|[k' v'] d IH]; simpl; [reflexivity|].
  destruct (Nat.eqb_spec key k') as [->|Hne].
  - destruct (Nat.eq_dec k' k'); [reflexivity|contradiction].
  - simpl. rewrite IH.
    destruct (Nat.eq_dec k' key); [congruence|].
    destruct (in_dec Nat.eq_dec key (map fst d)); reflexivity.
Qed.

Lemma first_seen_fold (regions : list (SpeechRegion F)) : forall d,
  NoDup (map fst d) ->
  NoDup (map fst (fold_left (fun d r => setdefault d (label r) (start r)) regions d))
  /\ forall l, In l (map fst (fold_left (fun d r => setdefault d (label r) (start r)) regions d))
               <-> In l (map fst d) \/ In l (map label regions).
Proof.
  induction regions as [|r rs IH]; intros d Hd; simpl.
  - split; [exact Hd|]. intros l. tauto.
  - destruct (IH (setdefault d (label r) (start r))) as [Hn Hin].
    + rewrite setdefault_keys.
      destruct (in_dec Nat.eq_dec (label r) (map fst d)) as [Hi|Hi]; [exact Hd|].
      apply NoDup_app; [exact Hd|repeat constructor; intros []|].
      intros x Hx [<-|[]]. contradiction.
    + split; [exact Hn|]. intros l. rewrite Hin, setdefault_keys.
      destruct (in_dec Nat.eq_dec (label r) (map fst d)) as [Hi|Hi].
      * split; [tauto|]. intros [H|[<-|H]]; auto.
      * rewrite in_app_iff. simpl. tauto.
Qed.

Lemma insert_by_value_perm (e : nat * F) l : Permutation (insert_by_value e l) (e :: l).
Proof.
  induction l as [|h t IH]; simpl; [reflexivity|].
  destruct (fltb (snd e) (snd h)); [reflexivity|].
  rewrite IH. apply perm_swap.
Qed.

Lemma sorted_keys_perm (d : list (nat * F)) : Permutation (sorted_keys d) (map fst d).
Proof.
  unfold sorted_keys.
  assert (H : forall acc, Permutation (fold_left (fun acc e => insert_by_value e acc) d acc)
                                      (d ++ acc)).
  { induction d as [|e d IH]; intros acc; simpl; [reflexivity|].
    rewrite IH, insert_by_value_perm. symmetry. apply Permutation_middle. }
  rewrite (H []), app_nil_r. reflexivity.
Qed.

Lemma name_of_table_at (ordered : list nat) : forall lo i,
  NoDup ordered -> i < List.length ordered ->
  name_of (map (fun p => (snd p, participant (fst p)))
               (combine (seq lo (List.length ordered)) ordered))
          (nth i ordered 0)
  = participant (lo + i).
Proof.
  induction ordered as [|l ordered IH]; intros lo i Hn Hi; simpl in *; [lia|].
  inversion Hn as [|? ? Hnotin Hn']; subst.
  destruct i as [|i].
  - rewrite Nat.eqb_refl. f_equal. lia.
  - destruct (Nat.eqb_spec (nth i ordered 0) l) as [He|He].
    + exfalso. apply Hnotin. rewrite <- He. apply nth_In. lia.
    + rewrite IH by (auto; lia). f_equal. lia.
Qed.

Lemma names_of_ordered (ordered : list nat) :
  NoDup ordered ->
  map (name_of (name_table ordered)) ordered
  = map participant (seq 0 (List.length ordered)).
Proof.
  intros Hn. apply nth_ext with (d := EmptyString) (d' := EmptyString).
  - now rewrite !length_map, length_seq.
  - intros i Hi. rewrite length_map in Hi.
    rewrite (nth_indep _ EmptyString (name_of (name_table ordered) 0))
      by now rewrite length_map.
    rewrite map_nth.
    unfold name_table. rewrite name_of_table_at by assumption.
    rewrite (nth_indep _ EmptyString (participant 0))
      by now rewrite length_map, length_seq.
    rewrite map_nth, seq_nth by assumption. reflexivity.
Qed.

Lemma fold_assemble_speakers names (regions : list (SpeechRegion F)) : forall merged s,
  In s (map speaker (fold_left (assemble_step names) regions merged))
  <-> In s (map speaker merged)
      \/ In s (map (fun r => name_of names (label r)) regions).
Proof.
  induction regions as [|r rs IH]; intros merged s; simpl; [tauto|].
  rewrite IH. unfold assemble_step.
  destruct merged as [|prev older]; simpl; [tauto|].
  destruct (String.eqb (speaker prev) (name_of names (label r))) eqn:He; simpl.
  - apply String.eqb_eq in He.
    destruct (fleb _ _); simpl; rewrite <- ?He; tauto.
  - tauto.
Qed.

(** [num_speakers] counts the distinct names carried by the segments. *)
Lemma assemble_num_speakers (regions : list (SpeechRegion F)) :
  num_speakers (assemble regions)
  = List.length (nodup string_dec (map speaker (segments (assemble regions)))).
Proof.
  unfold assemble. simpl.
  set (ordered := sorted_keys (first_seen regions)).
  set (names := name_table ordered).
  destruct (first_seen_fold regions [] (NoDup_nil _)) as [Hnd Hin].
  fold (first_seen regions) in Hnd, Hin.
  assert (Hperm : Permutation ordered (map fst (first_seen regions)))
    by apply sorted_keys_perm.
  assert (Hno : NoDup ordered).
  { eapply Permutation_NoDup; [symmetry; exact Hperm|exact Hnd]. }
  assert (Hnames : NoDup (map (name_of names) ordered)).
  { unfold names. rewrite names_of_ordered by exact Hno.
    apply Finite.Injective_map_NoDup; [|apply seq_NoDup].
    intros i j. apply participant_inj. }
  rewrite <- (length_map (name_of names) ordered). symmetry.
  apply Permutation_length, NoDup_Permutation; [apply NoDup_nodup|exact Hnames|].
  intros s. rewrite nodup_In, map_rev, <- in_rev, fold_assemble_speakers. simpl.
  rewrite !in_map_iff. split.
  - intros [[]|(r & <- & Hr)].
    exists (label r). split; [reflexivity|].
    eapply Permutation_in; [symmetry; exact Hperm|].
    apply Hin. right. now apply in_map.
  - intros (l & <- & Hl). right.
    eapply Permutation_in in Hl; [|exact Hperm].
    apply Hin in Hl as [[]|Hl].
    apply in_map_iff in Hl as (r & <- & Hr). eauto.
Qed.
End SpeakerCount.

(* ================================================================== *)
(** * diarize, for every arithmetic *)
(* ================================================================== *)

Section DiarizeShape.
Context {F : Type} {AF : Arith F} {MF : MelScale F} {SP : Spectral F}.
Context {G : Type} {RG : Generator F G}.

(** [diarize] always returns: either the empty result, or the assembly
    of regions that carry the detected intervals, in order. *)
Lemma diarize_shape (default_rng : Z -> G) (audio : list F) (mn mx : Z) :
  exists r : Result F,
    diarize default_rng audio mn mx = Some r
    /\ (r = empty_result
        \/ exists regions : list (SpeechRegion F),
             map (fun g => (start g, stop g)) regions = detect_speech_regions audio
             /\ r = assemble regions).
Proof.
  unfold diarize.
  destruct audio as [|a audio]; [eexists; split; [reflexivity|now left]|].
  destruct (detect_speech_regions (a :: audio)) as [|se speech] eqn:Hs;
    [eexists; split; [reflexivity|now left]|].
  destruct (build_mel_filterbank_total sr 512 24 (of_Q 80) (of_Q 7600))
    as (fb & -> & _).
  cbn [map]. eexists. split; [reflexivity|]. right.
  eexists. split; [|reflexivity].
  rewrite with_labels_times. cbn [map start stop].
  rewrite map_map. cbn [start stop]. rewrite <- surjective_pairing. f_equal.
  rewrite <- (map_id speech) at 2. apply map_ext. now intros [s e].
Qed.

(** The speaker count, whatever the arithmetic. *)
Lemma diarize_num_speakers (default_rng : Z -> G) (audio : list F) (mn mx : Z) :
  exists r : Result F,
    diarize default_rng audio mn mx = Some r
    /\ num_speakers r = List.length (nodup string_dec (map speaker (segments r))).
Proof.
  destruct (diarize_shape default_rng audio mn mx) as (r & Hr & [->|(regions & _ & ->)]);
    eexists; (split; [exact Hr|]).
  - reflexivity.
  - apply assemble_num_speakers.
Qed.

(** C2: in the output of [diarize], two consecutive segments never have
    the same speaker name and a gap (start of the next minus end of the
    previous) of at most 0.45 s: every such pair was merged. *)
Theorem diarize_merge_invariant (default_rng : Z -> G) (audio : list F) (mn mx : Z) :
  exists r : Result F,
    diarize default_rng audio mn mx = Some r
    /\ adjacent (fun p q => ~ mergeable p q) (segments r).
Proof.
  destruct (diarize_shape default_rng audio mn mx) as (r & Hr & [->|(regions & _ & ->)]);
    eexists; (split; [exact Hr|]).
  - apply adjacent_nil.
  - apply assemble_unmerged.
Qed.

(** C3: an empty sample buffer, and likewise an audio in which no speech
    interval is detected, gives exactly the empty result. *)
Theorem diarize_empty (default_rng : Z -> G) (mn mx : Z) :
  diarize default_rng [] mn mx = Some empty_result
  /\ forall audio : list F,
       detect_speech_regions audio = [] ->
       diarize default_rng audio mn mx = Some empty_result.
Proof.
  split; [reflexivity|].
  intros audio H. unfold diarize. rewrite H. now destruct audio.
Qed.

(** C10: every output segment starts at the start of a detected speech
    interval and ends at the end of a detected speech interval. *)
Theorem diarize_keeps_timestamps (default_rng : Z -> G) (audio : list F) (mn mx : Z) :
  exists r : Result F,
    diarize default_rng audio mn mx = Some r
    /\ Forall (fun g => In (seg_start g) (map fst (detect_speech_regions audio))
                        /\ In (seg_end g) (map snd (detect_speech_regions audio)))
              (segments r).
Proof.
  destruct (diarize_shape default_rng audio mn mx)
    as (r & Hr & [->|(regions & Hs & ->)]);
    eexists; (split; [exact Hr|]).
  - constructor.
  - rewrite <- Hs, !map_map. cbn [fst snd]. apply assemble_times.
Qed.
End DiarizeShape.

(* ================================================================== *)
(** * Order of the intervals and segments, in exact arithmetic *)
(* ================================================================== *)

(** ** Frame runs found by the scan *)

Section ScanRuns.
Context {F : Type} {AF : Arith F}.

(** The scan emits one region per run of frames [(st, en)]; the runs
    start at or after the scan position and are in increasing order. *)
Lemma scan_regions_runs (mask : list bool) : forall i start (regions : list (F * F)),
  match start with Some st => st < i | None => True end ->
  exists runs : list (nat * nat),
    scan_regions mask i start regions
    = regions ++ map (fun p => region_of (fst p) (snd p)) runs
    /\ Forall (fun p => match start with Some st => st | None => i end <= fst p
                        /\ fst p <= snd p) runs
    /\ StronglySorted (fun a b => fst a < fst b) runs.
Proof.
  induction mask as [|active rest IH]; intros i start regions Hst; simpl.
  - destruct start as [st|].
    + exists [(st, i - 1)]. split; [reflexivity|].
      split; repeat constructor; simpl; lia.
    + exists []. rewrite app_nil_r. repeat constructor.
  - destruct active, start as [st|].
    + destruct (IH (S i) (Some st) regions) as (runs & He & Hf & Hs); [lia|].
      exists runs. auto.
    + destruct (IH (S i) (Some i) regions) as (runs & He & Hf & Hs); [lia|].
      exists runs. auto.
    + destruct (IH (S i) None (regions ++ [region_of st (i - 1)]))
        as (runs & He & Hf & Hs); [exact I|].
      exists ((st, i - 1) :: runs). split; [|split].
      * rewrite He, <- app_assoc. reflexivity.
      * constructor; [simpl; lia|].
        eapply Forall_impl; [|exact Hf]. simpl. intros p Hp. lia.
      * constructor; [exact Hs|].
        eapply Forall_impl; [|exact Hf]. simpl. intros p Hp. lia.
    + destruct (IH (S i) None regions) as (runs & He & Hf & Hs); [exact I|].
      exists runs. split; [exact He|]. split; [|exact Hs].
      eapply Forall_impl; [|exact Hf]. simpl. intros p Hp. lia.
Qed.
End ScanRuns.

(** ** Facts of real arithmetic *)

Local Open Scope R_scope.

Lemma Rltb_true (a b : R) : Rltb a b = true <-> a < b.
Proof. unfold Rltb. destruct (Rlt_dec a b); split; auto; discriminate. Qed.

Lemma Rltb_false (a b : R) : Rltb a b = false <-> b <= a.
Proof. unfold Rltb. destruct (Rlt_dec a b); split; auto; try discriminate; lra. Qed.

Lemma Rleb_true (a b : R) : Rleb a b = true <-> a <= b.
Proof. unfold Rleb. destruct (Rle_dec a b); split; auto; discriminate. Qed.

Lemma Rleb_false (a b : R) : Rleb a b = false <-> b < a.
Proof. unfold Rleb. destruct (Rle_dec a b); split; auto; try discriminate; lra. Qed.

Lemma of_Z_real (z : Z) : of_Z (F:=R) z = IZR z.
Proof. unfold of_Z. simpl. unfold Q2R, inject_Z. simpl. field. Qed.

Lemma of_nat_real (n : nat) : of_nat (F:=R) n = INR n.
Proof. unfold of_nat. now rewrite of_Z_real, INR_IZR_INZ. Qed.

Lemma py_max_real (a b : R) : py_max a b = Rmax a b.
Proof.
  unfold py_max. simpl. unfold Rltb, Rmax.
  destruct (Rlt_dec a b), (Rle_dec a b); auto; lra.
Qed.

Lemma py_min_real (a b : R) : py_min a b = Rmin a b.
Proof.
  unfold py_min. simpl. unfold Rltb, Rmin.
  destruct (Rlt_dec b a), (Rle_dec a b); auto; lra.
Qed.

(** ** Detected intervals are well formed and separated *)

(** The start of a frame, in seconds. *)
Lemma region_start_real (st en : nat) :
  fst (region_of (F:=R) st en) = INR st / 100.
Proof.
  unfold region_of. cbn [fst]. rewrite of_nat_real, of_Z_real.
  change (INR (st * hop_size) / IZR sr = INR st / 100).
  rewrite mult_INR. unfold hop_size, sr. rewrite (INR_IZR_INZ 160). simpl. field.
Qed.

Lemma region_stop_real (st en : nat) :
  snd (region_of (F:=R) st en) = INR en / 100 + 3 / 100.
Proof.
  unfold region_of. cbn [snd]. rewrite !of_nat_real, of_Z_real.
  change (INR (en * hop_size) / IZR sr + INR vad_frame_size / IZR sr
          = INR en / 100 + 3 / 100).
  rewrite mult_INR. unfold hop_size, vad_frame_size, sr.
  rewrite (INR_IZR_INZ 160), (INR_IZR_INZ 480). simpl. field.
Qed.

Lemma adjacent_map {A B : Type} (f : A -> B) (P : B -> B -> Prop) (l : list A) :
  adjacent P (map f l) -> adjacent (fun a b => P (f a) (f b)) l.
Proof.
  intros H l1 a b l2 ->. apply (H (map f l1) (f a) (f b) (map f l2)).
  now rewrite map_app.
Qed.

Lemma separated_by_map {A B : Type} (f : A -> B) (lo hi : B -> R) (l : list A) :
  separated_by lo hi (map f l) -> separated_by (fun a => lo (f a)) (fun a => hi (f a)) l.
Proof.
  intros [Hv Ha]. split.
  - now apply Forall_map in Hv.
  - now apply adjacent_map in Ha.
Qed.

Lemma separated_all_pairs {A : Type} (lo hi : A -> R) (l : list A) :
  separated_by lo hi l -> ForallOrdPairs (fun a b => hi a < lo b) l.
Proof.
  intros [Hv Ha]. induction l as [|a l IH]; [constructor|].
  inversion Hv as [|? ? Hva Hvl]; subst.
  constructor; [|apply IH; [exact Hvl|eapply adjacent_tail, Ha]].
  clear IH Hv. revert a Hva Ha. induction l as [|b l IH]; intros a Hva Ha; [constructor|].
  inversion Hvl as [|? ? Hvb Hvl']; subst.
  assert (Hab : hi a < lo b) by apply (Ha [] a b l eq_refl).
  constructor; [exact Hab|].
  assert (Hbl : Forall (fun q => hi b < lo q) l).
  { apply IH; auto. eapply adjacent_tail, Ha. }
  eapply Forall_impl; [|exact Hbl]. simpl. intros q Hq. lra.
Qed.

Lemma min_duration_real : min_duration (F:=R) = 65 / 100.
Proof. unfold min_duration. simpl. unfold Q2R. simpl. field. Qed.

Lemma max_gap_real : max_gap (F:=R) = 35 / 100.
Proof. unfold max_gap. simpl. unfold Q2R. simpl. field. Qed.

Lemma max_merge_gap_real : max_merge_gap (F:=R) = 45 / 100.
Proof. unfold max_merge_gap. simpl. unfold Q2R. simpl. field. Qed.

Lemma merge_step_real (merged : list (R * R)) (s e : R) :
  merge_step merged (s, e)
  = if Rltb (e - s) (65 / 100) then merged
    else match merged with
         | [] => [(s, e)]
         | (prev_s, prev_e) :: older =>
             if Rleb (s - prev_e) (35 / 100) then (prev_s, e) :: older
             else (s, e) :: merged
         end.
Proof. unfold merge_step. now rewrite min_duration_real, max_gap_real. Qed.

(** The merge loop, newest interval first. *)
Lemma merge_fold_separated (regions : list (R * R)) : forall merged,
  Forall (fun r => fst r < snd r) regions ->
  StronglySorted (fun a b => fst a <= fst b) regions ->
  Forall (fun r => fst r < snd r) merged ->
  adjacent (fun newer older => snd older < fst newer) merged ->
  (forall h older, merged = h :: older -> Forall (fun r => fst h <= fst r) regions) ->
  Forall (fun r => fst r < snd r) (fold_left merge_step regions merged)
  /\ adjacent (fun newer older => snd older < fst newer) (fold_left merge_step regions merged).
Proof.
  induction regions as [|[s e] rs IH]; intros merged Hv Hs Hm Ha Hh;
    cbn [fold_left]; [auto|].
  inversion Hv as [|? ? Hse Hv']; subst. simpl in Hse.
  apply StronglySorted_inv in Hs as [Hs' Hle].
  rewrite merge_step_real.
  destruct (Rltb (e - s) (65 / 100)) eqn:Hd.
  - apply IH; [exact Hv'|exact Hs'|exact Hm|exact Ha|].
    intros h older Hm'. specialize (Hh h older Hm'). now inversion Hh.
  - destruct merged as [|[ps pe] older].
    + apply IH; [exact Hv'|exact Hs'| | |].
      * constructor; [exact Hse|constructor].
      * apply adjacent_one.
      * intros h older Hm'. inversion Hm'; subst. exact Hle.
    + assert (Hps : ps <= s).
      { specialize (Hh _ _ eq_refl). now inversion Hh. }
      inversion Hm as [|? ? Hpv Hm']; subst. simpl in Hpv.
      destruct (Rleb (s - pe) (35 / 100)) eqn:Hg.
      * apply IH; [exact Hv'|exact Hs'| | |].
        -- constructor; [simpl; lra|exact Hm'].
        -- destruct older as [|o older']; [apply adjacent_one|].
           apply adjacent_cons; [|eapply adjacent_tail, Ha].
           apply (Ha [] (ps, pe) o older' eq_refl).
        -- intros h older0 Hm0. inversion Hm0; subst. simpl.
           eapply Forall_impl; [|exact Hle]. simpl. intros r Hr. lra.
      * apply Rleb_false in Hg.
        apply IH; [exact Hv'|exact Hs'| | |].
        -- constructor; [exact Hse|exact Hm].
        -- apply adjacent_cons; [simpl; lra|exact Ha].
        -- intros h older0 Hm0. inversion Hm0; subst. exact Hle.
Qed.

Lemma region_of_runs_sorted (runs : list (nat * nat)) :
  Forall (fun p => (fst p <= snd p)%nat) runs ->
  StronglySorted (fun a b => (fst a < fst b)%nat) runs ->
  Forall (fun r => fst r < snd r) (map (fun p => region_of (F:=R) (fst p) (snd p)) runs)
  /\ StronglySorted (fun a b => fst a <= fst b)
                    (map (fun p => region_of (F:=R) (fst p) (snd p)) runs).
Proof.
  intros Hf Hs. induction runs as [|[st en] runs IH]; simpl; [split; constructor|].
  inversion Hf as [|? ? Hp Hf']; subst. simpl in Hp.
  apply StronglySorted_inv in Hs as [Hs' Hlt].
  destruct (IH Hf' Hs') as [IHv IHs]. split.
  - constructor; [|exact IHv].
    rewrite region_start_real, region_stop_real.
    apply le_INR in Hp. lra.
  - constructor; [exact IHs|].
    apply Forall_map. eapply Forall_impl; [|exact Hlt].
    intros [st' en'] Hlt'. simpl in Hlt'.
    rewrite !region_start_real. cbn [fst]. apply lt_INR in Hlt'. lra.
Qed.

(** The intervals returned by [detect_speech_regions] have positive
    length and are separated, in time order. *)
Lemma detect_speech_regions_separated (audio : list R) :
  separated (detect_speech_regions audio).
Proof.
  unfold detect_speech_regions.
  destruct (frame_audio audio vad_frame_size hop_size) as [|fr frames];
    [split; [constructor|apply adjacent_nil]|].
  set (mask := fill_holes (speech_mask (fr :: frames))).
  destruct (scan_regions_runs (F:=R) mask 0 None [] I) as (runs & -> & Hf & Hs).
  simpl app. unfold merge_regions.
  destruct (region_of_runs_sorted runs) as [Hv Hsorted]; [|exact Hs|].
  { eapply Forall_impl; [|exact Hf]. simpl. tauto. }
  destruct (merge_fold_separated _ [] Hv Hsorted) as [Hv' Ha'].
  - constructor.
  - apply adjacent_nil.
  - discriminate.
  - split; [apply Forall_rev, Hv'|apply adjacent_rev, Ha'].
Qed.

(** ** Assembly keeps the segments separated *)

Lemma assemble_step_real names (merged : list (Segment R)) (r : SpeechRegion R) :
  assemble_step names merged r
  = let fresh := {| seg_start := start r; seg_end := stop r;
                    speaker := name_of names (label r) |} in
    match merged with
    | [] => [fresh]
    | prev :: older =>
        if String.eqb (speaker prev) (name_of names (label r))
           && Rleb (start r - seg_end prev) (45 / 100)
        then {| seg_start := seg_start prev;
                seg_end := Rmax (seg_end prev) (stop r);
                speaker := speaker prev |} :: older
        else fresh :: merged
    end.
Proof.
  unfold assemble_step. destruct merged as [|prev older]; [reflexivity|].
  now rewrite max_merge_gap_real, py_max_real.
Qed.

Lemma fold_assemble_separated names (regions : list (SpeechRegion R)) : forall merged,
  Forall (fun g => start g < stop g) regions ->
  ForallOrdPairs (fun a b => stop a < start b) regions ->
  Forall (fun g => seg_start g < seg_end g) merged ->
  adjacent (fun newer older => seg_end older < seg_start newer) merged ->
  (forall h older, merged = h :: older -> Forall (fun r => seg_end h < start r) regions) ->
  Forall (fun g => seg_start g < seg_end g) (fold_left (assemble_step names) regions merged)
  /\ adjacent (fun newer older => seg_end older < seg_start newer)
              (fold_left (assemble_step names) regions merged).
Proof.
  induction regions as [|r rs IH]; intros merged Hv Hp Hm Ha Hh;
    cbn [fold_left]; [auto|].
  inversion Hv as [|? ? Hr Hv']; subst.
  inversion Hp as [|? ? Hlater Hp']; subst.
  rewrite assemble_step_real. cbv zeta.
  destruct merged as [|prev older].
  - apply IH; [exact Hv'|exact Hp'| | |].
    + constructor; [exact Hr|constructor].
    + apply adjacent_one.
    + intros h older Hm'. inversion Hm'; subst. exact Hlater.
  - assert (Hprev : Forall (fun r0 => seg_end prev < start r0) (r :: rs))
      by apply (Hh prev older eq_refl).
    inversion Hprev as [|? ? Hpr Hprs]; subst.
    inversion Hm as [|? ? Hpv Hm']; subst.
    destruct (String.eqb (speaker prev) (name_of names (label r))
              && Rleb (start r - seg_end prev) (45 / 100)).
    + apply IH; [exact Hv'|exact Hp'| | |].
      * constructor; [|exact Hm']. simpl.
        pose proof (Rmax_l (seg_end prev) (stop r)). lra.
      * destruct older as [|o older']; [apply adjacent_one|].
        apply adjacent_cons; [|eapply adjacent_tail, Ha].
        apply (Ha [] prev o older' eq_refl).
      * intros h older0 Hm0. inversion Hm0; subst. simpl.
        rewrite Forall_forall in Hprs, Hlater |- *. intros q Hq.
        apply Rmax_lub_lt; auto.
    + apply IH; [exact Hv'|exact Hp'| | |].
      * constructor; [exact Hr|exact Hm].
      * apply adjacent_cons; [exact Hpr|exact Ha].
      * intros h older0 Hm0. inversion Hm0; subst. exact Hlater.
Qed.

Lemma assemble_separated (regions : list (SpeechRegion R)) :
  separated_by start stop regions ->
  separated_by seg_start seg_end (segments (assemble regions)).
Proof.
  intros Hsep. pose proof (separated_all_pairs _ _ _ Hsep) as Hp.
  destruct Hsep as [Hv _].
  destruct (fold_assemble_separated
              (name_table (sorted_keys (first_seen regions))) regions [] Hv Hp)
    as [Hv' Ha'].
  - constructor.
  - apply adjacent_nil.
  - discriminate.
  - unfold assemble. simpl. split; [apply Forall_rev, Hv'|apply adjacent_rev, Ha'].
Qed.

(** C1: the result of [diarize] is well formed: [num_speakers] is the
    number of distinct speaker names in the segments; every segment has
    [start < end]; the segments are sorted by start time and pairwise
    non-overlapping (of two segments, the earlier one ends no later than
    the other starts).  The count holds for every arithmetic
    ([diarize_num_speakers]); the order is stated with the times as exact
    reals. *)
Theorem diarize_well_formed {MF : MelScale R} {SP : Spectral R}
        {G : Type} {RG : Generator R G}
        (default_rng : Z -> G) (audio : list R) (mn mx : Z) :
  exists r : Result R,
    diarize default_rng audio mn mx = Some r
    /\ num_speakers r = List.length (nodup string_dec (map speaker (segments r)))
    /\ Forall (fun g => seg_start g < seg_end g) (segments r)
    /\ ForallOrdPairs (fun p q => seg_start p <= seg_start q /\ seg_end p <= seg_start q)
                      (segments r).
Proof.
  destruct (diarize_shape default_rng audio mn mx) as (r & Hr & [->|(regions & Hs & ->)]);
    eexists; (split; [exact Hr|]).
  - repeat split; constructor.
  - split; [apply assemble_num_speakers|].
    assert (Hsep : separated_by seg_start seg_end (segments (assemble regions))).
    { apply assemble_separated.
      apply (separated_by_map (fun g => (start g, stop g)) fst snd).
      rewrite Hs. apply detect_speech_regions_separated. }
    split; [apply Hsep|].
    pose proof (separated_all_pairs _ _ _ Hsep) as Hp.
    destruct Hsep as [Hv _].
    induction Hp as [|p l Hpl Hl IH]; [constructor|].
    inversion Hv as [|? ? Hpv Hv']; subst.
    constructor; [|exact (IH Hv')].
    eapply Forall_impl; [|exact Hpl]. simpl. intros q Hq. lra.
Qed.

Local Close Scope R_scope.

(* ================================================================== *)
(** * k-means with a single cluster *)
(* ================================================================== *)

Section SingleCluster.
Context {F : Type} {AF : Arith F} {G : Type} {RG : Generator F G}.

Lemma pairwise_distances_rows (y : list (list F)) :
  List.length (pairwise_distances y) = List.length y
  /\ Forall (fun r => List.length r = List.length y) (pairwise_distances y).
Proof.
  unfold pairwise_distances. split; [apply length_map|].
  apply Forall_forall. intros r Hr.
  apply in_map_iff in Hr as (xi & <- & _). apply length_map.
Qed.

Lemma np_argmin_single (l : list F) : List.length l = 1 -> np_argmin l = 0.
Proof.
  destruct l as [|v [|w l]]; try discriminate. intros _.
  unfold np_argmin. simpl. now destruct (np_isnan v).
Qed.

(** With a single centre every point is assigned to cluster 0. *)
Lemma assign_single_center (x : list (list F)) (c : list F) :
  map np_argmin (center_dists x [c]) = repeat 0 (List.length x).
Proof.
  unfold center_dists.
  destruct (pairwise_distances_rows (x ++ [c])) as [Hlen Hrows].
  rewrite length_app in Hlen, Hrows. simpl in Hlen, Hrows.
  set (d := pairwise_distances (x ++ [c])) in *.
  assert (Hf : Forall (fun r => List.length r = 1)
                      (map (skipn (List.length x)) (firstn (List.length x) d))).
  { apply Forall_map, Forall_forall. intros r Hr.
    apply (In_nth _ _ []) in Hr as (i & Hi & <-).
    rewrite length_firstn in Hi.
    rewrite length_skipn, nth_firstn.
    destruct (Nat.ltb_spec i (List.length x)); [|lia].
    rewrite Forall_forall in Hrows.
    rewrite (Hrows (nth i d [])) by (apply nth_In; lia). lia. }
  assert (Hn : List.length (map (skipn (List.length x)) (firstn (List.length x) d))
               = List.length x).
  { rewrite length_map, length_firstn. lia. }
  revert Hf Hn. generalize (map (skipn (List.length x)) (firstn (List.length x) d)).
  generalize (List.length x) as n.
  intros n l Hf. revert n. induction Hf as [|r l Hr Hf IH]; intros n Hn; simpl in *.
  - now subst.
  - destruct n as [|n]; [discriminate|]. simpl.
    rewrite np_argmin_single by exact Hr. f_equal. apply IH. lia.
Qed.

Lemma kmeans_loop_step (iters : nat) (x : list (list F)) (k : nat)
      (labels : list nat) (centers : list (list F)) :
  kmeans_loop (S iters) x k labels centers
  = let dist := center_dists x centers in
    let new_labels := map np_argmin dist in
    if labels_eqb new_labels labels then (labels, centers)
    else kmeans_loop iters x k new_labels
           (fold_left (update_center x new_labels dist) (seq 0 k) centers).
Proof. reflexivity. Qed.

Lemma labels_eqb_refl (l : list nat) : labels_eqb l l = true.
Proof. unfold labels_eqb. destruct (list_eq_dec Nat.eq_dec l l); congruence. Qed.

(** For [k = 1] the loop stops in its first pass, before any centre is
    recomputed: the labels are all zero and the only centre is the
    point drawn by the initialisation. *)
Lemma run_kmeans_single_cluster (default_rng : Z -> G) (x : list (list F)) (seed : Z) :
  run_kmeans default_rng x 1 seed
  = let c := row x (fst (rng_integers (default_rng seed) (List.length x))) in
    (repeat 0 (List.length x), [c], inertia_of x (repeat 0 (List.length x)) [c]).
Proof.
  unfold run_kmeans, kmeans_pp_init. cbn [repeat seq Nat.sub fold_left].
  destruct (rng_integers (default_rng seed) (List.length x)) as [idx g'].
  cbn [set_nth fst]. change max_iter with (S 59).
  rewrite kmeans_loop_step. cbv zeta.
  rewrite assign_single_center, labels_eqb_refl. reflexivity.
Qed.
End SingleCluster.

Local Open Scope R_scope.

Lemma Q2R_0 : Q2R 0 = 0.
Proof. unfold Q2R. simpl. apply Rmult_0_l. Qed.

Lemma sum_sq_real (v : list R) : sum_sq v = Rsum (map (fun a => a * a) v).
Proof. reflexivity. Qed.

Lemma Rsum_cons (a : R) (l : list R) : Rsum (a :: l) = a + Rsum l.
Proof. reflexivity. Qed.

Lemma sum_sq_nonneg (v : list R) : 0 <= sum_sq v.
Proof.
  rewrite sum_sq_real. induction v as [|a v IH]; cbn [map]; [unfold Rsum; simpl; lra|].
  rewrite Rsum_cons. nra.
Qed.

Lemma l2_norm_sq_real (v : list R) : sq (l2_norm v) = sum_sq v.
Proof.
  change (R_sqrt.sqrt (sum_sq v) * R_sqrt.sqrt (sum_sq v) = sum_sq v).
  apply sqrt_sqrt, sum_sq_nonneg.
Qed.

(** C4 (the code at the failing input): for the two points 0 and 2 and
    [k = 1], whatever the generator draws, [run_kmeans] returns all-zero
    labels and an inertia that is not the total variance (which is 2). *)
Theorem run_kmeans_single_cluster_inertia {G : Type} {RG : Generator R G}
        (default_rng : Z -> G) (seed : Z) :
  let x := [[0]; [2]] in
  let '(labels, _, inertia) := run_kmeans default_rng x 1 seed in
  labels = [0%nat; 0%nat] /\ total_variance x = 2 /\ inertia <> total_variance x
  /\ ((fst (rng_integers (default_rng seed) 2) < 2)%nat -> inertia = 4).
Proof.
  cbv zeta. rewrite run_kmeans_single_cluster. cbv zeta. cbn [List.length].
  destruct (rng_integers (default_rng seed) 2) as [idx g']. cbn [fst].
  assert (Hvar : total_variance (F:=R) [[0]; [2]] = 2).
  { unfold total_variance, mean_rows, np_mean, sum_sq, vsub, sq. simpl.
    unfold of_nat, of_Z. simpl. unfold Q2R. simpl. field. }
  assert (Hin : forall c : list R,
    inertia_of [[0]; [2]] (repeat 0%nat 2) [c]
    = sum_sq (vsub [0] c) + (sum_sq (vsub [2] c) + 0)).
  { intros c. unfold inertia_of. cbn [repeat combine map fst snd nth].
    rewrite !l2_norm_sq_real. reflexivity. }
  rewrite Hin, Hvar. split; [reflexivity|]. split; [reflexivity|].
  unfold row.
  destruct idx as [|[|idx]]; simpl; unfold sum_sq, vsub, sq; simpl.
  - split; [lra|intros _; lra].
  - split; [lra|intros _; lra].
  - destruct idx; simpl; (split; [lra|intros H; lia]).
Qed.

Local Close Scope R_scope.

(* ================================================================== *)
(** * Seeded randomness *)
(* ================================================================== *)

Lemma fold_left_ext_in {A B : Type} (f g : A -> B -> A) (l : list B) :
  (forall b, In b l -> forall a, f a b = g a b) ->
  forall a, fold_left f l a = fold_left g l a.
Proof.
  induction l as [|b l IH]; intros H a; cbn [fold_left]; [reflexivity|].
  rewrite (H b (or_introl eq_refl)). apply IH.
  intros b' Hb'. apply H. now right.
Qed.

Section SeededRandomness.
Context {F : Type} {AF : Arith F} {MF : MelScale F} {SP : Spectral F}.
Context {G : Type} {RG : Generator F G}.

Lemma run_kmeans_seed (rng1 rng2 : Z -> G) (x : list (list F)) (k : nat) (seed : Z) :
  rng1 seed = rng2 seed -> run_kmeans rng1 x k seed = run_kmeans rng2 x k seed.
Proof. intros H. unfold run_kmeans. now rewrite H. Qed.

Lemma best_of_seeds_seed (rng1 rng2 : Z -> G) (x : list (list F)) (k : nat) :
  Forall (fun seed => rng1 seed = rng2 seed) seeds ->
  best_of_seeds rng1 x k = best_of_seeds rng2 x k.
Proof.
  intros H. unfold best_of_seeds. apply (f_equal fst).
  apply fold_left_ext_in. intros seed Hin best.
  rewrite Forall_forall in H.
  rewrite (run_kmeans_seed rng1 rng2 x k seed (H seed Hin)). reflexivity.
Qed.

Lemma count_step_seed (rng1 rng2 : Z -> G) (x : list (list F)) (best : Z * F) (k : Z) :
  Forall (fun seed => rng1 seed = rng2 seed) seeds ->
  count_step rng1 x best k = count_step rng2 x best k.
Proof.
  intros H. unfold count_step.
  rewrite (best_of_seeds_seed rng1 rng2 x (Z.to_nat k) H). reflexivity.
Qed.

Lemma choose_speaker_count_seed (rng1 rng2 : Z -> G) (x : list (list F)) (mn mx : Z) :
  Forall (fun seed => rng1 seed = rng2 seed) seeds ->
  choose_speaker_count rng1 x mn mx = choose_speaker_count rng2 x mn mx.
Proof.
  intros H. unfold choose_speaker_count.
  rewrite (fold_left_ext_in (count_step rng1 x) (count_step rng2 x)).
  - reflexivity.
  - intros k _ best. apply count_step_seed, H.
Qed.

(** C9: the output of [diarize] depends on the random generator only
    through the three generators seeded with 7, 17 and 31: two runs on
    the same samples and configuration, in which [default_rng] yields
    the same generators for these seeds (and anything else otherwise),
    return the same result. *)
Theorem diarize_deterministic (rng1 rng2 : Z -> G) (audio : list F) (mn mx : Z) :
  rng1 7%Z = rng2 7%Z -> rng1 17%Z = rng2 17%Z -> rng1 31%Z = rng2 31%Z ->
  diarize rng1 audio mn mx = diarize rng2 audio mn mx.
Proof.
  intros H7 H17 H31.
  assert (H : Forall (fun seed => rng1 seed = rng2 seed) seeds)
    by (repeat constructor; assumption).
  unfold diarize.
  destruct audio as [|a audio]; [reflexivity|].
  destruct (detect_speech_regions (a :: audio)) as [|se speech]; [reflexivity|].
  destruct (build_mel_filterbank sr 512 24 (of_Q 80) (of_Q 7600)) as [fb|]; [|reflexivity].
  cbv zeta.
  match goal with
  | |- match ?x with _ => _ end = _ => destruct x as [|e0 x0] eqn:Hx; [reflexivity|]
  end.
  unfold cluster_labels.
  rewrite (choose_speaker_count_seed rng1 rng2 _ mn mx H).
  rewrite (best_of_seeds_seed rng1 rng2 _ _ H). reflexivity.
Qed.
End SeededRandomness.

(* ================================================================== *)
(** * Embeddings are normalised *)
(* ================================================================== *)

Local Open Scope R_scope.

(** ** Truncation of reals *)

Lemma Rtrunc_nonneg (r : R) : 0 <= r -> (0 <= Rtrunc r)%Z /\ IZR (Rtrunc r) <= r.
Proof.
  intros Hr. unfold Rtrunc. destruct (Rle_dec 0 r); [|contradiction].
  destruct (base_Int_part r) as [Hle Hgt]. split; [|exact Hle].
  assert (H : (-1 < Int_part r)%Z) by (apply lt_IZR; lra).
  lia.
Qed.

Lemma Rtrunc_above (r : R) : r - 1 < IZR (Rtrunc r).
Proof.
  unfold Rtrunc. destruct (Rle_dec 0 r).
  - destruct (base_Int_part r). lra.
  - destruct (base_Int_part (- r)). rewrite opp_IZR. lra.
Qed.

(** ** extract_embedding in exact arithmetic *)

Lemma sr_real : of_Z (F:=R) sr = 16000.
Proof. rewrite of_Z_real. reflexivity. Qed.

Lemma slice_length_le {A : Type} (l : list A) lo hi : (List.length (slice l lo hi) <= hi - lo)%nat.
Proof. unfold slice. rewrite length_firstn. lia. Qed.

(** A chunk of at least 0.4 s comes from an interval longer than
    6399 samples. *)
Lemma chunk_duration (audio : list R) (start_s end_s : R) :
  0 <= end_s ->
  (min_chunk <= List.length (chunk_of audio start_s end_s))%nat ->
  6399 / 16000 < end_s - start_s.
Proof.
  intros Hend Hlen. unfold chunk_of, py_slice in Hlen.
  change (fmul ?a ?b) with (a * b) in Hlen. rewrite sr_real in Hlen.
  change (@int_trunc R real_arith) with Rtrunc in Hlen.
  destruct (Rtrunc_nonneg (end_s * 16000)) as [He0 Hele]; [nra|].
  pose proof (Rtrunc_above (start_s * 16000)) as Hs.
  set (ts := Rtrunc (start_s * 16000)) in *.
  set (te := Rtrunc (end_s * 16000)) in *.
  set (size := Z.of_nat (List.length audio)) in *.
  destruct (Z.ltb_spec (Z.min size te) 0) as [Hneg|Hpos]; [lia|].
  pose proof (slice_length_le audio (Z.to_nat (Z.max 0 ts))
                (Z.to_nat (Z.min (Z.min size te) size))) as Hsl.
  unfold min_chunk in *.
  assert (Hz : (6400 <= te - ts)%Z) by lia.
  apply IZR_le in Hz. rewrite minus_IZR in Hz. lra.
Qed.

Lemma frame_audio_length (chunk : list R) (frame_size hop : nat) :
  (frame_size <= List.length chunk)%nat -> (0 < frame_size)%nat ->
  List.length (frame_audio chunk frame_size hop)
  = (1 + (List.length chunk - frame_size) / hop)%nat.
Proof.
  intros Hle Hpos. unfold frame_audio.
  destruct chunk as [|c chunk]; [simpl in Hle; lia|].
  destruct (Nat.ltb_spec (List.length (c :: chunk)) frame_size); [lia|].
  now rewrite length_map, length_seq.
Qed.

Lemma sum_sq_ge (v : list R) (d : R) : In d v -> d * d <= sum_sq v.
Proof.
  rewrite sum_sq_real. induction v as [|a v IH]; intros Hin; [destruct Hin|].
  cbn [map]. rewrite Rsum_cons. destruct Hin as [->|Hin].
  - pose proof (sum_sq_nonneg v) as H. rewrite sum_sq_real in H. lra.
  - specialize (IH Hin). nra.
Qed.

Lemma sum_sq_scaled (v : list R) (n : R) :
  n <> 0 -> sum_sq (map (fun a => a / n) v) = sum_sq v / (n * n).
Proof.
  intros Hn. rewrite !sum_sq_real. induction v as [|a v IH]; cbn [map].
  - unfold Rsum. simpl. field. exact Hn.
  - rewrite !Rsum_cons, IH. field. exact Hn.
Qed.

Lemma l2_norm_mult (v : list R) : l2_norm v * l2_norm v = sum_sq v.
Proof. exact (l2_norm_sq_real v). Qed.

(** Normalising a vector of norm [n > 0] gives a unit vector. *)
Lemma l2_norm_normalised (v : list R) :
  0 < l2_norm v -> l2_norm (map (fun a => a / l2_norm v) v) = 1.
Proof.
  intros Hn.
  change (R_sqrt.sqrt (sum_sq (map (fun a => a / l2_norm v) v)) = 1).
  rewrite sum_sq_scaled by lra.
  rewrite <- l2_norm_mult.
  replace (l2_norm v * l2_norm v / (l2_norm v * l2_norm v)) with 1 by (field; lra).
  apply sqrt_1.
Qed.

Lemma l2_norm_ge (v : list R) (d : R) : In d v -> 0 <= d -> d <= l2_norm v.
Proof.
  intros Hin Hd. apply sum_sq_ge in Hin.
  change (d <= R_sqrt.sqrt (sum_sq v)).
  rewrite <- (sqrt_square d) by exact Hd.
  now apply sqrt_le_1_alt.
Qed.

Section Embedding.
Context {SP : Spectral R}.

Lemma raw_feature_duration (chunk : list R) (start_s end_s : R) (mel_fb dct : list (list R)) :
  In (end_s - start_s) (raw_feature chunk start_s end_s mel_fb dct).
Proof.
  unfold raw_feature.
  destruct (mfcc_stats mel_fb dct (windowed_frames chunk)) as [m s].
  destruct (centroid_stats (windowed_frames chunk)) as [cm cs].
  rewrite !in_app_iff. right. right. simpl. auto.
Qed.

Lemma raw_feature_length (chunk : list R) (start_s end_s : R) (mel_fb dct : list (list R)) :
  (List.length (fst (mfcc_stats mel_fb dct (windowed_frames chunk))) = 13)%nat ->
  (List.length (snd (mfcc_stats mel_fb dct (windowed_frames chunk))) = 13)%nat ->
  (List.length (raw_feature chunk start_s end_s mel_fb dct) = 30)%nat.
Proof.
  unfold raw_feature.
  destruct (mfcc_stats mel_fb dct (windowed_frames chunk)) as [m s].
  destruct (centroid_stats (windowed_frames chunk)) as [cm cs].
  simpl. intros Hm Hs. rewrite !length_app, Hm, Hs. reflexivity.
Qed.

(** C7: [extract_embedding] returns 30 numbers; the zero vector when the
    sliced sample range is shorter than 0.4 s, and otherwise a vector of
    L2 norm 1; and whenever the norm before normalisation is at most
    1e-8 the result is the zero vector (with at least 0.4 s of samples
    the duration feature alone keeps the norm above 0.39).  In exact
    arithmetic, for an interval that ends at a non-negative time and
    MFCC kernels that return the 13 coefficients. *)
Theorem extract_embedding_normalised
        (audio : list R) (start_s end_s : R) (mel_fb dct : list (list R)) :
  0 <= end_s ->
  (forall frames,
      List.length (fst (mfcc_stats mel_fb dct frames)) = 13%nat
      /\ List.length (snd (mfcc_stats mel_fb dct frames)) = 13%nat) ->
  let chunk := chunk_of audio start_s end_s in
  let v := extract_embedding audio start_s end_s mel_fb dct in
  List.length v = 30%nat
  /\ ((List.length chunk < min_chunk)%nat -> v = np_zeros 30)
  /\ ((min_chunk <= List.length chunk)%nat -> l2_norm v = 1)
  /\ (l2_norm (raw_feature chunk start_s end_s mel_fb dct) <= 1e-8 -> v = np_zeros 30).
Proof.
  intros Hend Hk chunk v. subst v. unfold extract_embedding. fold chunk.
  destruct (Nat.ltb_spec (List.length chunk) min_chunk) as [Hshort|Hlong].
  - repeat split; auto using np_zeros_length. lia.
  - assert (Hfr : (2 <= List.length (frame_audio chunk emb_frame_size hop_size))%nat).
    { rewrite frame_audio_length; unfold emb_frame_size, hop_size, min_chunk in *; try lia.
      assert ((1 <= (List.length chunk - 400) / 160)%nat); [|lia].
      apply Nat.div_le_lower_bound; lia. }
    destruct (Nat.ltb_spec (List.length (frame_audio chunk emb_frame_size hop_size)) 2);
      [lia|].
    set (feature := raw_feature chunk start_s end_s mel_fb dct).
    pose proof (chunk_duration audio start_s end_s Hend Hlong) as Hdur.
    assert (Hnorm : 6399 / 16000 < l2_norm feature).
    { apply Rlt_le_trans with (end_s - start_s); [exact Hdur|].
      apply l2_norm_ge; [apply raw_feature_duration|lra]. }
    assert (Hlit : Q2R 1e-8 < 6399 / 16000).
    { unfold Q2R. simpl. lra. }
    change (fltb (of_Q 1e-8) (l2_norm feature)) with (Rltb (Q2R 1e-8) (l2_norm feature)).
    destruct (Rltb (Q2R 1e-8) (l2_norm feature)) eqn:Hcmp.
    2:{ apply Rltb_false in Hcmp. lra. }
    change (map (fun v => fdiv v (l2_norm feature)) feature)
      with (map (fun a => a / l2_norm feature) feature).
    split; [|split; [|split]].
    + rewrite length_map. apply raw_feature_length; apply Hk.
    + intros Hc. lia.
    + intros _. apply l2_norm_normalised. lra.
    + intros Hsmall. exfalso.
      assert (Hq : (1e-8 : R) = Q2R 1e-8) by (unfold Q2R; simpl; lra).
      lra.
Qed.
End Embedding.

Local Close Scope R_scope.

(* ================================================================== *)
(** * The mel filterbank of the pipeline *)
(* ================================================================== *)

Local Open Scope R_scope.

(** ** The mel scale over the reals *)

Lemma ln_10_pos : 0 < ln 10.
Proof. rewrite <- ln_1. apply ln_increasing; lra. Qed.

Lemma hz_to_mel_real (hz : R) : hz_to_mel hz = 2595 * (ln (1 + hz / 700) / ln 10).
Proof.
  unfold hz_to_mel. simpl.
  replace (Q2R 2595) with 2595 by (unfold Q2R; simpl; field).
  replace (Q2R 1) with 1 by (unfold Q2R; simpl; field).
  replace (Q2R 700) with 700 by (unfold Q2R; simpl; field).
  reflexivity.
Qed.

Lemma mel_to_hz_real (mel : R) : mel_to_hz mel = 700 * (Rpower 10 (mel / 2595) - 1).
Proof.
  unfold mel_to_hz. simpl.
  replace (Q2R 2595) with 2595 by (unfold Q2R; simpl; field).
  replace (Q2R 1) with 1 by (unfold Q2R; simpl; field).
  replace (Q2R 700) with 700 by (unfold Q2R; simpl; field).
  reflexivity.
Qed.

Lemma hz_to_mel_mono (a b : R) : 0 <= a -> a <= b -> hz_to_mel a <= hz_to_mel b.
Proof.
  intros Ha Hab. rewrite !hz_to_mel_real.
  pose proof ln_10_pos as H10.
  assert (Hln : ln (1 + a / 700) <= ln (1 + b / 700)).
  { destruct (Req_dec a b) as [->|Hne]; [lra|].
    apply Rlt_le, ln_increasing; lra. }
  apply Rmult_le_compat_l; [lra|].
  apply Rmult_le_compat_r; [|exact Hln].
  apply Rlt_le, Rinv_0_lt_compat, H10.
Qed.

(** A mel point below the mel value of [hz] maps back below [hz]. *)
Lemma mel_to_hz_below (mel hz : R) :
  0 <= hz -> mel <= hz_to_mel hz -> mel_to_hz mel <= hz.
Proof.
  intros Hhz Hle. rewrite mel_to_hz_real. rewrite hz_to_mel_real in Hle.
  pose proof ln_10_pos as H10.
  assert (Hp : Rpower 10 (mel / 2595) <= 1 + hz / 700).
  { apply Rle_trans with (Rpower 10 (ln (1 + hz / 700) / ln 10)).
    - apply Rle_Rpower; lra.
    - unfold Rpower.
      replace (ln (1 + hz / 700) / ln 10 * ln 10) with (ln (1 + hz / 700)) by (field; lra).
      rewrite exp_ln; lra. }
  lra.
Qed.

Lemma np_linspace_below (start stop : R) (num : nat) :
  start <= stop ->
  Forall (fun p => p <= stop) (np_linspace start stop num).
Proof.
  intros Hle. unfold np_linspace. apply Forall_forall. intros p Hp.
  apply in_map_iff in Hp as (i & <- & Hi). apply in_seq in Hi.
  destruct (Nat.eqb_spec i (num - 1)); [lra|].
  rewrite !of_nat_real.
  change (INR i * ((stop - start) / INR (num - 1)) + start <= stop).
  assert (Hi' : (i < num - 1)%nat) by lia.
  assert (Hn : 0 < INR (num - 1)) by (apply lt_0_INR; lia).
  assert (Hr : INR i / INR (num - 1) <= 1).
  { apply Rle_trans with (INR (num - 1) / INR (num - 1)).
    - apply Rmult_le_compat_r; [apply Rlt_le, Rinv_0_lt_compat, Hn|].
      apply le_INR. lia.
    - right. field. lra. }
  replace (INR i * ((stop - start) / INR (num - 1)))
    with (INR i / INR (num - 1) * (stop - start)) by (field; lra).
  nra.
Qed.

(** The bin edges of the pipeline's filterbank stay below bin 244. *)
Lemma pipeline_bins_bound :
  Forall (fun b => (b <= 243)%nat) (mel_bins (F:=R) sr 512 24 (of_Q 80) (of_Q 7600)).
Proof.
  unfold mel_bins.
  assert (H80 : of_Q (Arith:=real_arith) 80 = 80) by (simpl; unfold Q2R; simpl; field).
  assert (H7600 : of_Q (Arith:=real_arith) 7600 = 7600) by (simpl; unfold Q2R; simpl; field).
  assert (Hfmax : py_min (of_Q 7600) (fsub (fdiv (of_Z sr) (of_Q 2)) (of_Q 1)) = 7600).
  { rewrite py_min_real, H7600, sr_real.
    change (Rmin 7600 (16000 / Q2R 2 - Q2R 1) = 7600).
    replace (Q2R 2) with 2 by (unfold Q2R; simpl; field).
    replace (Q2R 1) with 1 by (unfold Q2R; simpl; field).
    apply Rmin_left. lra. }
  rewrite Hfmax, H80.
  apply Forall_map, Forall_map.
  eapply Forall_impl; [|apply (np_linspace_below (hz_to_mel 80) (hz_to_mel 7600));
                         apply hz_to_mel_mono; lra].
  intros mel Hmel. cbv beta.
  apply mel_to_hz_below in Hmel; [|lra].
  rewrite of_nat_real, sr_real.
  change (@np_floor R real_arith) with Int_part.
  change (fdiv (fmul (INR (512 + 1)) (mel_to_hz mel)) 16000)
    with (INR (512 + 1) * mel_to_hz mel / 16000).
  set (v := INR (512 + 1) * mel_to_hz mel / 16000).
  assert (Hv : v < 244).
  { unfold v. rewrite (INR_IZR_INZ (512 + 1)).
    change (Z.of_nat (512 + 1)) with 513%Z. lra. }
  destruct (base_Int_part v) as [Hlo _].
  assert (Hz : (Int_part v < 244)%Z) by (apply lt_IZR; lra).
  change (512 / 2)%nat with 256%nat. lia.
Qed.

(** ** Rows of the filterbank *)

Lemma set_nth_Forall {A : Type} (P : A -> Prop) (l : list A) (i : nat) (v : A) :
  Forall P l -> P v -> Forall P (set_nth l i v).
Proof.
  intros Hl Hv. revert i. induction Hl as [|a l Ha Hl IH]; intros [|i]; simpl;
    constructor; auto.
Qed.

Lemma fb_weight_nonneg (num den : Z) :
  (0 <= num)%Z -> (0 < den)%Z -> 0 <= fdiv (of_Z (F:=R) num) (of_Z den).
Proof.
  intros Hn Hd. rewrite !of_Z_real.
  change (0 <= IZR num / IZR den).
  apply IZR_le in Hn. apply IZR_lt in Hd.
  apply Rmult_le_pos; [exact Hn|]. apply Rlt_le, Rinv_0_lt_compat, Hd.
Qed.

Lemma fold_opt_fb_write_real (num den : nat -> Z) (ks : list nat) : forall row : list R,
  (forall k, In k ks -> (k < List.length row)%nat /\ (0 < den k)%Z /\ (0 <= num k)%Z) ->
  Forall (fun w => 0 <= w) row ->
  exists row',
    fold_opt (fun row k => fb_write row k (num k) (den k)) ks row = Some row'
    /\ List.length row' = List.length row
    /\ Forall (fun w => 0 <= w) row'
    /\ forall j, ~ In j ks -> nth j row' 0 = nth j row 0.
Proof.
  induction ks as [|k ks IH]; intros row Hks Hrow; cbn [fold_opt].
  - exists row. auto.
  - destruct (Hks k (or_introl eq_refl)) as (Hk & Hd & Hn).
    unfold fb_write at 1.
    destruct (Z.eqb_spec (den k) 0); [lia|].
    destruct (Nat.ltb_spec k (List.length row)); [|lia].
    destruct (IH (set_nth row k (fdiv (of_Z (num k)) (of_Z (den k)))))
      as (row' & Hr & Hl & Hf & Hnth).
    + intros k' Hk'. rewrite set_nth_length. apply Hks. now right.
    + apply set_nth_Forall; [exact Hrow|]. now apply fb_weight_nonneg.
    + exists row'. split; [exact Hr|]. split; [now rewrite Hl, set_nth_length|].
      split; [exact Hf|].
      intros j Hj. rewrite Hnth by (intros Hin; apply Hj; now right).
      rewrite nth_set_nth.
      destruct (Nat.eqb_spec j k) as [->|Hne]; [exfalso; apply Hj; now left|reflexivity].
Qed.

Lemma Rsum_ge_entry (row : list R) : forall c,
  Forall (fun w => 0 <= w) row -> (c < List.length row)%nat -> nth c row 0 <= Rsum row.
Proof.
  induction row as [|a row IH]; intros c Hf Hc; [simpl in Hc; lia|].
  inversion Hf as [|? ? Ha Hf']; subst. rewrite Rsum_cons.
  assert (Hs : 0 <= Rsum row).
  { clear -Hf'. induction Hf' as [|b l Hb Hl IH]; [unfold Rsum; simpl; lra|].
    rewrite Rsum_cons. lra. }
  destruct c as [|c]; simpl.
  - lra.
  - simpl in Hc. specialize (IH c Hf' ltac:(lia)). lra.
Qed.

(** A filter whose (widened) centre lies below the last FFT bin has
    weight 1 at its centre: its row sums to at least 1. *)
Lemma mel_filter_row_positive (n_fft left center right : nat) :
  (left <= n_fft / 2)%nat ->
  ((if center <=? left then left + 1 else center) < n_fft / 2)%nat ->
  exists row : list R,
    mel_filter_row n_fft left center right = Some row
    /\ List.length row = (n_fft / 2 + 1)%nat
    /\ 1 <= np_sum row.
Proof.
  intros Hl Hc. unfold mel_filter_row.
  set (c := if center <=? left then (left + 1)%nat else center) in *.
  set (r := Nat.min (if right <=? c then (c + 1)%nat else right) (n_fft / 2)).
  assert (Hc' : (left < c)%nat).
  { unfold c. destruct (Nat.leb_spec center left); lia. }
  assert (Hr : (c < r /\ r <= n_fft / 2)%nat).
  { unfold r. destruct (Nat.leb_spec right c); lia. }
  assert (Hz : Forall (fun w => 0 <= w) (np_zeros (F:=R) (n_fft / 2 + 1))).
  { unfold np_zeros. apply Forall_forall. intros w Hw.
    apply repeat_spec in Hw. subst w. unfold f0. simpl. rewrite Q2R_0. lra. }
  destruct (fold_opt_fb_write_real (fun k => Z.of_nat k - Z.of_nat left)%Z
              (fun _ => Z.of_nat c - Z.of_nat left)%Z
              (seq left (c - left)) (np_zeros (n_fft / 2 + 1)))
    as (row1 & H1 & L1 & F1 & _); [|exact Hz|].
  { intros k Hk. apply in_seq in Hk. rewrite np_zeros_length. lia. }
  rewrite H1. rewrite np_zeros_length in L1.
  replace (r - c)%nat with (S (r - c - 1)) by lia.
  cbn [seq fold_opt]. unfold fb_write at 1.
  destruct (Z.eqb_spec (Z.of_nat r - Z.of_nat c) 0); [lia|].
  destruct (Nat.ltb_spec c (List.length row1)); [|lia].
  set (one := fdiv (of_Z (Z.of_nat r - Z.of_nat c)) (of_Z (Z.of_nat r - Z.of_nat c))).
  assert (Hone : one = 1).
  { unfold one. rewrite of_Z_real.
    change (IZR (Z.of_nat r - Z.of_nat c) / IZR (Z.of_nat r - Z.of_nat c) = 1).
    field. apply not_0_IZR. lia. }
  destruct (fold_opt_fb_write_real (fun k => Z.of_nat r - Z.of_nat k)%Z
              (fun _ => Z.of_nat r - Z.of_nat c)%Z
              (seq (S c) (r - c - 1)) (set_nth row1 c one))
    as (row2 & H2 & L2 & F2 & N2).
  { intros k Hk. apply in_seq in Hk. rewrite set_nth_length. lia. }
  { apply set_nth_Forall; [exact F1|]. rewrite Hone. lra. }
  rewrite H2. exists row2. rewrite set_nth_length in L2.
  split; [reflexivity|]. split; [lia|].
  change (1 <= Rsum row2).
  apply Rle_trans with (nth c row2 0); [|apply Rsum_ge_entry; [exact F2|lia]].
  rewrite N2 by (intros Hin; apply in_seq in Hin; lia).
  rewrite nth_set_nth, Nat.eqb_refl.
  destruct (Nat.ltb_spec c (List.length row1)); [|lia].
  simpl. lra.
Qed.

(** C8: the mel filterbank of the pipeline (16 kHz, 512-point FFT, 24
    bands between 80 Hz and min(7600, 16000/2 - 1) Hz) is built without a
    division by zero or a write outside a row; it has 24 rows of
    [n_fft/2 + 1 = 257] entries, so that every non-zero entry sits at an
    FFT bin in [0, n_fft/2]; and every row has a sum greater than 0. *)
Theorem pipeline_filterbank_rows :
  exists fb : list (list R),
    build_mel_filterbank sr 512 24 (of_Q 80) (of_Q 7600) = Some fb
    /\ List.length fb = 24%nat
    /\ Forall (fun row => 0 < np_sum row
                          /\ forall k, nth k row 0 <> 0 -> (k <= 512 / 2)%nat) fb.
Proof.
  unfold build_mel_filterbank, filterbank_of_bins.
  pose proof pipeline_bins_bound as Hb.
  set (bins := mel_bins sr 512 24 (of_Q 80) (of_Q 7600)) in *.
  assert (Hnth : forall i, (nth i bins 0 <= 243)%nat).
  { intros i. destruct (Nat.lt_ge_cases i (List.length bins)) as [Hi|Hi].
    - rewrite Forall_forall in Hb. apply Hb, nth_In, Hi.
    - rewrite nth_overflow by exact Hi. lia. }
  assert (Hgen : forall ms (fb0 : list (list R)),
    Forall (fun row => 0 < np_sum row
                       /\ forall k, nth k row 0 <> 0 -> (k <= 512 / 2)%nat) fb0 ->
    exists fb,
      fold_opt (fun fb m =>
                  match mel_filter_row 512 (nth (m - 1) bins 0)%nat (nth m bins 0)%nat
                                       (nth (m + 1) bins 0)%nat with
                  | Some row => Some (fb ++ [row])
                  | None => None
                  end) ms fb0 = Some fb
      /\ List.length fb = (List.length fb0 + List.length ms)%nat
      /\ Forall (fun row => 0 < np_sum row
                            /\ forall k, nth k row 0 <> 0 -> (k <= 512 / 2)%nat) fb).
  { induction ms as [|m ms IH]; intros fb0 H0; cbn [fold_opt].
    - exists fb0. split; [reflexivity|]. split; [simpl; lia|exact H0].
    - destruct (mel_filter_row_positive 512 (nth (m - 1) bins 0)%nat (nth m bins 0)%nat
                  (nth (m + 1) bins 0)%nat) as (row & Hr & Hlen & Hsum).
      + change (512 / 2)%nat with 256%nat. specialize (Hnth (m - 1)%nat). lia.
      + change (512 / 2)%nat with 256%nat.
        pose proof (Hnth (m - 1)%nat). pose proof (Hnth m).
        destruct (Nat.leb_spec (nth m bins 0)%nat (nth (m - 1) bins 0)%nat); lia.
      + rewrite Hr.
        destruct (IH (fb0 ++ [row])) as (fb & Hf & Hl & Hall).
        { apply Forall_app. split; [exact H0|]. constructor; [|constructor].
          split; [lra|]. intros k Hk.
          destruct (Nat.le_gt_cases k (512 / 2)) as [Hle|Hgt]; [exact Hle|].
          exfalso. apply Hk. apply nth_overflow. rewrite Hlen. lia. }
        exists fb. split; [exact Hf|]. split; [|exact Hall].
        rewrite Hl, length_app. simpl. lia. }
  destruct (Hgen (seq 1 24) [] (Forall_nil _)) as (fb & Hf & Hl & Hall).
  exists fb. split; [exact Hf|]. split; [|exact Hall].
  rewrite Hl, length_seq. reflexivity.
Qed.

Local Close Scope R_scope.

(* ================================================================== *)
(** * The silhouette score *)
(* ================================================================== *)

Local Open Scope R_scope.

(** ** Distances *)

Lemma euclid_norm (p q : list R) : euclid p q = l2_norm (vsub p q).
Proof.
  unfold euclid, l2_norm, vsub. rewrite sum_sq_real, map_map. reflexivity.
Qed.

Lemma dot_expansion (p : list R) : forall q,
  List.length p = List.length q ->
  sum_sq p + sum_sq q - 2 * np_dot p q = sum_sq (vsub p q).
Proof.
  induction p as [|a p IH]; intros [|b q] Hlen; try discriminate.
  - unfold sum_sq, vsub. simpl. unfold Rsum. simpl. lra.
  - injection Hlen as Hlen. specialize (IH q Hlen).
    unfold vsub in *. rewrite !sum_sq_real in *. cbn [map combine fst snd].
    change (np_dot (a :: p) (b :: q)) with (a * b + np_dot p q).
    rewrite !Rsum_cons.
    change (fsub a b) with (a - b). lra.
Qed.

(** An entry of [pairwise_distances] is the Euclidean distance. *)
Lemma pairwise_entry (p q : list R) :
  List.length p = List.length q ->
  fsqrt (np_maximum (fsub (fadd (sum_sq p) (sum_sq q)) (fmul (of_Q 2) (np_dot p q))) f0)
  = euclid p q.
Proof.
  intros Hlen. rewrite euclid_norm. unfold l2_norm. f_equal.
  change (Rmax (sum_sq p + sum_sq q - Q2R 2 * np_dot p q) (Q2R 0) = sum_sq (vsub p q)).
  replace (Q2R 2) with 2 by (unfold Q2R; simpl; field).
  rewrite Q2R_0, dot_expansion by exact Hlen.
  apply Rmax_left, sum_sq_nonneg.
Qed.

Lemma euclid_self (p : list R) : euclid p p = 0.
Proof.
  unfold euclid.
  replace (Rsum _) with 0; [apply sqrt_0|].
  induction p as [|a p IH]; cbn [combine map]; [reflexivity|].
  rewrite Rsum_cons, <- IH. cbn [fst snd]. lra.
Qed.

(** ** Masks and member lists *)

Lemma select_members_off {A : Type} (d : A) (c : nat) (labels : list nat) :
  forall (l : list A) (off : nat),
    List.length labels = List.length l ->
    select l (label_mask labels c)
    = map (fun j => nth (j - off) l d)
          (filter (fun j => nth (j - off) labels 0%nat =? c)%nat
                  (seq off (List.length labels))).
Proof.
  induction labels as [|h labels IH]; intros [|a l] off Hlen; try discriminate;
    [reflexivity|].
  injection Hlen as Hlen.
  cbn [label_mask map select List.length seq filter].
  rewrite Nat.sub_diag. change (nth 0 (h :: labels) 0%nat) with h.
  fold (label_mask labels c).
  rewrite (IH l (S off) Hlen).
  assert (Hf : filter (fun j => nth (j - off) (h :: labels) 0%nat =? c)%nat
                      (seq (S off) (List.length labels))
               = filter (fun j => nth (j - S off) labels 0%nat =? c)%nat
                        (seq (S off) (List.length labels))).
  { apply filter_ext_in. intros j Hj. apply in_seq in Hj.
    replace (j - off)%nat with (S (j - S off)) by lia. reflexivity. }
  rewrite Hf.
  set (js := filter (fun j => nth (j - S off) labels 0%nat =? c)%nat
                    (seq (S off) (List.length labels))).
  assert (Hm : map (fun j => nth (j - off) (a :: l) d) js
               = map (fun j => nth (j - S off) l d) js).
  { apply map_ext_in. intros j Hj. apply filter_In in Hj as [Hj _].
    apply in_seq in Hj.
    replace (j - off)%nat with (S (j - S off)) by lia. reflexivity. }
  destruct (h =? c)%nat; cbn [map]; rewrite Hm; [|reflexivity].
  rewrite Nat.sub_diag. reflexivity.
Qed.

Lemma select_members {A : Type} (d : A) (c : nat) (labels : list nat) (l : list A) :
  List.length labels = List.length l ->
  select l (label_mask labels c) = map (fun j => nth j l d) (members labels c).
Proof.
  intros Hlen. rewrite (select_members_off d c labels l 0 Hlen). unfold members.
  erewrite map_ext; [erewrite filter_ext; [reflexivity|]|];
    intros j; cbv beta; now rewrite Nat.sub_0_r.
Qed.

Lemma select_length {A : Type} (l : list A) : forall mask,
  List.length mask = List.length l -> List.length (select l mask) = count_true mask.
Proof.
  unfold count_true.
  induction l as [|a l IH]; intros [|b mask] Hlen; try discriminate; [reflexivity|].
  injection Hlen as Hlen. cbn [select filter].
  destruct b; cbn [List.length]; now rewrite IH.
Qed.

Lemma count_true_members (labels : list nat) (c : nat) :
  count_true (label_mask labels c) = List.length (members labels c).
Proof.
  rewrite <- (select_length labels) by (unfold label_mask; apply length_map).
  rewrite (select_members 0%nat c labels labels eq_refl). apply length_map.
Qed.

Lemma members_spec (labels : list nat) (c j : nat) :
  In j (members labels c) <-> (j < List.length labels)%nat /\ nth j labels 0%nat = c.
Proof.
  unfold members. rewrite filter_In, in_seq, Nat.eqb_eq. intuition lia.
Qed.

Lemma members_NoDup (labels : list nat) (c : nat) : NoDup (members labels c).
Proof. apply NoDup_filter, seq_NoDup. Qed.

Lemma members_nonempty (labels : list nat) (c : nat) :
  In c labels -> members labels c <> [].
Proof.
  intros Hin Hnil. apply (In_nth _ _ 0%nat) in Hin as (j & Hj & Hc).
  assert (H : In j (members labels c)) by (apply members_spec; auto).
  rewrite Hnil in H. destruct H.
Qed.

Lemma existsb_label_mask (labels : list nat) (c : nat) :
  In c labels -> existsb (fun o => o) (label_mask labels c) = true.
Proof.
  intros Hin. apply existsb_exists. exists true. split; [|reflexivity].
  unfold label_mask. apply in_map_iff. exists c. split; [apply Nat.eqb_refl|exact Hin].
Qed.

Lemma insert_unique_In (v : nat) (l : list nat) (c : nat) :
  In c (insert_unique v l) <-> c = v \/ In c l.
Proof.
  induction l as [|h t IH]; simpl; [intuition|].
  destruct (Nat.ltb_spec v h); [simpl; intuition|].
  destruct (Nat.eqb_spec v h) as [->|Hne]; simpl; [intuition|].
  rewrite IH. intuition.
Qed.

Lemma np_unique_In (labels : list nat) (c : nat) : In c (np_unique labels) <-> In c labels.
Proof.
  unfold np_unique. induction labels as [|h t IH]; simpl; [tauto|].
  rewrite insert_unique_In, IH. intuition.
Qed.

(** ** The code computes the amended formula *)

Lemma nth_map_in {A B : Type} (f : A -> B) (l : list A) (i : nat) (d : B) (d' : A) :
  (i < List.length l)%nat -> nth i (map f l) d = f (nth i l d').
Proof.
  intros Hi. rewrite (nth_indep _ d (f d')) by now rewrite length_map.
  apply map_nth.
Qed.

Lemma Rsum_split_at (f : nat -> R) (i : nat) (js : list nat) :
  NoDup js -> In i js ->
  Rsum (map f js) = f i + Rsum (map f (filter (fun j => negb (j =? i)%nat) js))
  /\ List.length js = S (List.length (filter (fun j => negb (j =? i)%nat) js)).
Proof.
  induction js as [|j js IH]; intros Hnd Hin; [destruct Hin|].
  inversion Hnd as [|? ? Hnotin Hnd']; subst.
  cbn [map filter]. rewrite Rsum_cons.
  destruct (Nat.eqb_spec j i) as [->|Hne]; cbn [negb].
  - assert (Hf : filter (fun j => negb (j =? i)%nat) js = js).
    { apply forallb_filter_id, forallb_forall. intros k Hk.
      destruct (Nat.eqb_spec k i) as [->|]; [contradiction|reflexivity]. }
    rewrite Hf. split; reflexivity.
  - destruct Hin as [Heq|Hin]; [congruence|].
    destruct (IH Hnd' Hin) as [Hs Hl].
    cbn [map List.length]. rewrite Rsum_cons, Hs, Hl. split; [lra|reflexivity].
Qed.

Section SilhouetteFormula.
Variable x : list (list R).
Variable labels : list nat.
Hypothesis Hmatrix : forall p q, In p x -> In q x -> List.length p = List.length q.
Hypothesis Hlabels : List.length labels = List.length x.

Lemma distance_row (i : nat) :
  (i < List.length x)%nat ->
  nth i (pairwise_distances x) [] = map (fun xj => euclid (nth i x []) xj) x.
Proof.
  intros Hi. unfold pairwise_distances.
  rewrite (nth_map_in _ x i [] []) by exact Hi.
  apply map_ext_in. intros xj Hj. apply pairwise_entry.
  apply Hmatrix; [apply nth_In, Hi|exact Hj].
Qed.

Lemma select_distances (i c : nat) :
  select (map (fun xj => euclid (nth i x []) xj) x) (label_mask labels c)
  = map (fun j => euclid (nth i x []) (nth j x [])) (members labels c).
Proof.
  rewrite (select_members 0 c labels) by now rewrite length_map.
  apply map_ext_in. intros j Hj. apply members_spec in Hj as [Hj _].
  apply nth_map_in. lia.
Qed.

Lemma sil_a_formula (i : nat) :
  (i < List.length x)%nat ->
  sil_a (map (fun xj => euclid (nth i x []) xj) x) labels (nth i labels 0%nat)
  = match sil_a_spec x labels i with Some a => a | None => 0 end.
Proof.
  intros Hi. unfold sil_a, sil_a_spec.
  rewrite count_true_members, select_distances.
  change (@np_sum R real_arith) with Rsum.
  set (f := fun j => euclid (nth i x []) (nth j x [])).
  assert (Hin : In i (members labels (nth i labels 0%nat)))
    by (apply members_spec; split; [lia|reflexivity]).
  destruct (Rsum_split_at f i _ (members_NoDup labels _) Hin) as [Hs Hl].
  rewrite Hl, Hs. unfold f at 1. rewrite euclid_self.
  destruct (filter (fun j => negb (j =? i)%nat) (members labels (nth i labels 0%nat)))
    as [|j js] eqn:Hother.
  - cbn [List.length Nat.leb]. unfold f0. simpl. apply Q2R_0.
  - cbn [List.length Nat.leb]. unfold mean_dist. fold f.
    rewrite of_nat_real.
    replace (S (S (List.length js)) - 1)%nat with (S (List.length js)) by lia.
    change (fdiv ?a ?b) with (a / b). cbn [List.length]. f_equal. lra.
Qed.

Lemma np_mean_members (i c : nat) :
  np_mean (select (map (fun xj => euclid (nth i x []) xj) x) (label_mask labels c))
  = mean_dist x i (members labels c).
Proof.
  unfold np_mean. rewrite select_distances, length_map, of_nat_real. reflexivity.
Qed.

Lemma sil_b_formula (i : nat) :
  sil_b (map (fun xj => euclid (nth i x []) xj) x) labels (np_unique labels)
        (nth i labels 0%nat)
  = sil_b_spec x labels i.
Proof.
  unfold sil_b, sil_b_spec, min_list.
  assert (Hu : forall c, In c (np_unique labels) -> In c labels)
    by (intros c; apply np_unique_In).
  revert Hu. generalize (np_unique labels) as uniq. generalize (@None R) as acc.
  intros acc uniq. revert acc.
  induction uniq as [|c uniq IH]; intros acc Hu; cbn [fold_left filter map];
    [reflexivity|].
  destruct (c =? nth i labels 0%nat)%nat; cbn [negb].
  - apply IH. intros c' Hc'. apply Hu. now right.
  - rewrite existsb_label_mask by (apply Hu; now left). cbn [negb].
    cbn [map fold_left]. rewrite np_mean_members.
    rewrite <- IH by (intros c' Hc'; apply Hu; now right).
    f_equal. destruct acc as [b|]; cbn [min_inf].
    + now rewrite py_min_real.
    + reflexivity.
Qed.

Lemma point_score_formula (i : nat) :
  (i < List.length x)%nat ->
  point_score (nth i (pairwise_distances x) []) labels (np_unique labels)
              (nth i labels 0%nat)
  = score_amended x labels i.
Proof.
  intros Hi. unfold point_score, score_amended.
  rewrite (distance_row i Hi), sil_a_formula, sil_b_formula by exact Hi.
  destruct (sil_b_spec x labels i) as [b|]; [|unfold f0; simpl; apply Q2R_0].
  rewrite py_max_real.
  set (a := match sil_a_spec x labels i with Some a => a | None => 0 end).
  change (np_isfinite (Rmax a b)) with true. cbn [negb orb].
  change (fleb (Rmax a b) (of_Q 1e-12)) with (Rleb (Rmax a b) (Q2R 1e-12)).
  replace (Q2R 1e-12) with (1 / 10 ^ 12) by (unfold Q2R; simpl; field).
  unfold Rleb. destruct (Rle_dec (Rmax a b) (1 / 10 ^ 12)).
  - unfold f0. simpl. apply Q2R_0.
  - reflexivity.
Qed.

(** The value of [silhouette_score] when there are at least 2 and fewer
    than [n] distinct labels. *)
Lemma silhouette_score_formula :
  (2 <= List.length (np_unique labels) < List.length x)%nat ->
  silhouette_score x labels = mean_over_points (score_amended x labels) (List.length x).
Proof.
  intros [Hlo Hhi]. unfold silhouette_score.
  destruct (Nat.leb_spec (List.length (np_unique labels)) 1); [lia|].
  destruct (Nat.leb_spec (List.length x) (List.length (np_unique labels))); [lia|].
  cbn [orb].
  assert (Hscores :
    map (fun i => point_score (nth i (pairwise_distances x) []) labels
                              (np_unique labels) (nth i labels 0%nat))
        (seq 0 (List.length x))
    = map (score_amended x labels) (seq 0 (List.length x))).
  { apply map_ext_in. intros i Hi. apply in_seq in Hi.
    apply point_score_formula. lia. }
  rewrite Hscores.
  destruct (map (score_amended x labels) (seq 0 (List.length x))) as [|s0 ss] eqn:Hm.
  - apply (f_equal (@List.length R)) in Hm.
    rewrite length_map, length_seq in Hm. simpl in Hm. lia.
  - rewrite <- Hm. unfold np_mean, mean_over_points.
    rewrite length_map, length_seq, of_nat_real. reflexivity.
Qed.
End SilhouetteFormula.

(** C6 (amended): for a feature matrix and a labelling with at least 2
    and fewer than [n] distinct clusters, [silhouette_score] is the mean
    over the points of [(b - a) / max a b], where [a] is the mean distance
    to the other members of the point's cluster, taken as [0] for a point
    alone in its cluster, and [b] is the least mean distance to the
    members of another cluster; a point contributes [0] only when
    [max a b <= 1e-12], so that a point alone in its cluster contributes
    [1] as soon as [b > 1e-12]. *)
Theorem silhouette_score_amended (x : list (list R)) (labels : list nat) :
  (forall p q, In p x -> In q x -> List.length p = List.length q) ->
  List.length labels = List.length x ->
  (2 <= List.length (np_unique labels) < List.length x)%nat ->
  silhouette_score x labels = mean_over_points (score_amended x labels) (List.length x)
  /\ forall i b,
       sil_a_spec x labels i = None -> sil_b_spec x labels i = Some b ->
       1 / 10 ^ 12 < b -> score_amended x labels i = 1.
Proof.
  intros Hm Hl Hu. split; [now apply silhouette_score_formula|].
  intros i b Ha Hb Hgt. unfold score_amended. rewrite Ha, Hb.
  assert (Hmax : Rmax 0 b = b) by (apply Rmax_right; lra).
  rewrite Hmax. destruct (Rle_dec b (1 / 10 ^ 12)); [lra|].
  field. lra.
Qed.

Lemma euclid_1d (a b : R) : euclid [a] [b] = Rabs (a - b).
Proof.
  unfold euclid. cbn [combine map fst snd]. rewrite Rsum_cons.
  change (Rsum []) with 0. rewrite Rplus_0_r.
  apply sqrt_Rsqr_abs.
Qed.

(** C6 (counterexample): the points 0, 4, 8 with labels 0, 1, 1.  The
    first point is alone in its cluster; the code scores it 1 and returns
    (1 + 0 + 1/2) / 3 = 1/2, the claim scores it 0 and gives 1/6. *)
Lemma silhouette_singleton_scores_one : ~ silhouette_claim.
Proof.
  intros Hclaim.
  pose (X := [[0]; [4]; [8]] : list (list R)).
  pose (L := [0; 1; 1]%nat).
  assert (Hm : forall p q, In p X -> In q X -> List.length p = List.length q).
  { intros p q Hp Hq. simpl in Hp, Hq.
    destruct Hp as [<-|[<-|[<-|[]]]], Hq as [<-|[<-|[<-|[]]]]; reflexivity. }
  assert (Hl : List.length L = List.length X) by reflexivity.
  assert (Hu : (2 <= List.length (np_unique L) < List.length X)%nat)
    by (cbv; lia).
  specialize (Hclaim X L Hm Hl Hu).
  rewrite (silhouette_score_formula X L Hm Hl Hu) in Hclaim.
  assert (E04 : euclid [0] [4] = 4) by (rewrite euclid_1d, Rabs_left; lra).
  assert (E08 : euclid [0] [8] = 8) by (rewrite euclid_1d, Rabs_left; lra).
  assert (E40 : euclid [4] [0] = 4) by (rewrite euclid_1d, Rabs_right; lra).
  assert (E48 : euclid [4] [8] = 4) by (rewrite euclid_1d, Rabs_left; lra).
  assert (E80 : euclid [8] [0] = 8) by (rewrite euclid_1d, Rabs_right; lra).
  assert (E84 : euclid [8] [4] = 4) by (rewrite euclid_1d, Rabs_right; lra).
  assert (A0 : sil_a_spec X L 0 = None) by reflexivity.
  assert (A1 : sil_a_spec X L 1 = Some 4).
  { change (sil_a_spec X L 1) with (Some ((euclid [4] [8] + 0) / 1)).
    rewrite E48. f_equal. lra. }
  assert (A2 : sil_a_spec X L 2 = Some 4).
  { change (sil_a_spec X L 2) with (Some ((euclid [8] [4] + 0) / 1)).
    rewrite E84. f_equal. lra. }
  assert (B0 : sil_b_spec X L 0 = Some 6).
  { change (sil_b_spec X L 0)
      with (Some ((euclid [0] [4] + (euclid [0] [8] + 0)) / (1 + 1))).
    rewrite E04, E08. f_equal. lra. }
  assert (B1 : sil_b_spec X L 1 = Some 4).
  { change (sil_b_spec X L 1) with (Some ((euclid [4] [0] + 0) / 1)).
    rewrite E40. f_equal. lra. }
  assert (B2 : sil_b_spec X L 2 = Some 8).
  { change (sil_b_spec X L 2) with (Some ((euclid [8] [0] + 0) / 1)).
    rewrite E80. f_equal. lra. }
  unfold mean_over_points in Hclaim.
  change (List.length X) with 3%nat in Hclaim.
  cbn [seq map] in Hclaim. rewrite !Rsum_cons in Hclaim.
  unfold score_amended, score_claimed in Hclaim.
  rewrite A0, A1, A2, B0, B1, B2 in Hclaim.
  assert (M06 : Rmax 0 6 = 6) by (apply Rmax_right; lra).
  assert (M44 : Rmax 4 4 = 4) by (apply Rmax_left; lra).
  assert (M48 : Rmax 4 8 = 8) by (apply Rmax_right; lra).
  rewrite M06, M44, M48 in Hclaim.
  assert (Heps : 1 / 10 ^ 12 < 4) .
  { apply Rlt_trans with 1; [|lra].
    apply Rmult_lt_reg_r with (10 ^ 12); [apply pow_lt; lra|].
    unfold Rdiv. rewrite Rmult_assoc, Rinv_l, Rmult_1_r, Rmult_1_l;
      [|apply pow_nonzero; lra].
    apply Rlt_pow_R1; [lra|lia]. }
  destruct (Rle_dec 6 (1 / 10 ^ 12)); [lra|].
  destruct (Rle_dec 4 (1 / 10 ^ 12)); [lra|].
  destruct (Rle_dec 8 (1 / 10 ^ 12)); [lra|].
  change (Rsum []) with 0 in Hclaim.
  change (INR 3) with (1 + 1 + 1) in Hclaim.
  lra.
Qed.

Local Close Scope R_scope.

(* ================================================================== *)
(** * Examples *)
(* ================================================================== *)

Local Open Scope R_scope.

Lemma Rsum_zeros (l : list R) : Forall (fun v => v = 0) l -> Rsum (map sq l) = 0.
Proof.
  induction 1 as [|a l Ha Hl IH]; [reflexivity|].
  cbn [map]. rewrite Rsum_cons, IH, Ha. change (sq 0) with (0 * 0). lra.
Qed.

(** A frame of silence is inactive. *)
Lemma silent_frame_inactive (fr : list R) :
  Forall (fun v => v = 0) fr -> speech_mask [fr] = [false].
Proof.
  intros Hz. unfold speech_mask. cbn [map]. f_equal.
  rewrite py_max_real.
  set (nf := fmul (np_percentile _ _) (of_Q 2.2)).
  change (Rltb (Rmax nf (Q2R 0.015))
               (R_sqrt.sqrt (Rsum (map sq fr) / of_nat (List.length (map sq fr))
                             + Q2R 1e-10))
          = false).
  rewrite Rsum_zeros by exact Hz.
  apply Rltb_false.
  apply Rle_trans with (Q2R 0.015); [|apply Rmax_r].
  replace (0 / of_nat (List.length (map sq fr)) + Q2R 1e-10) with (Q2R 1e-10)
    by (unfold Rdiv; rewrite Rmult_0_l; lra).
  assert (H15 : Q2R 0.015 = 15 / 1000) by (unfold Q2R; simpl; field).
  assert (H10 : Q2R 1e-10 = 1 / 10000000000) by (unfold Q2R; simpl; field).
  rewrite H15, H10.
  rewrite <- (sqrt_square (15 / 1000)) by lra.
  apply sqrt_le_1_alt. lra.
Qed.

Lemma In_firstn_elim {A : Type} (a : A) (n : nat) (l : list A) :
  In a (firstn n l) -> In a l.
Proof.
  revert l; induction n as [|n IH]; intros [|b l] H; simpl in *; try tauto.
  destruct H as [->|H]; auto.
Qed.

Lemma silent_sample_no_speech : detect_speech_regions [0] = [].
Proof.
  unfold detect_speech_regions.
  change (frame_audio [0] vad_frame_size hop_size)
    with [slice ([0] ++ np_zeros (vad_frame_size - 1)) 0 (0 + vad_frame_size)].
  rewrite silent_frame_inactive; [reflexivity|].
  unfold slice. apply Forall_forall. intros v Hv.
  apply In_firstn_elim in Hv. cbn [skipn app] in Hv.
  destruct Hv as [<-|Hv]; [reflexivity|].
  apply repeat_spec in Hv. subst v. apply Q2R_0.
Qed.

Local Close Scope R_scope.

(** ** The pipeline on three bursts, in binary64 *)

(** Three bursts, the second one quieter: three intervals are detected,
    the clustering runs on their three embeddings and tells two speakers
    apart; the labels of [run_kmeans] depend on what the generator
    draws. *)
Lemma three_bursts_binary64 :
  let audio := burst_audio [1; 0.0625; 1]%float in
  (let regions := detect_speech_regions audio in
   let x := map (fun se => extract_embedding audio (fst se) (snd se) [] []) regions in
   (List.length regions,
    fst (fst (run_kmeans (G:=nat) Z.to_nat x 2 7)),
    fst (fst (run_kmeans (G:=nat) Z.to_nat x 2 17))))
  = (3, [1; 0; 1], [0; 1; 0])
  /\ option_map (fun r => (map speaker (segments r), num_speakers r))
                (diarize (MF:=linear_mel) (G:=nat) Z.to_nat audio 1 4)
     = Some (["Participant 1"; "Participant 2"; "Participant 1"]%string, 2).
Proof. cbv zeta. split; vm_compute; reflexivity. Qed.

(** Two bursts: fewer than three intervals, hence a single speaker, and
    the two intervals, 0.39 s apart, are merged into one segment. *)
Lemma two_bursts_binary64 :
  let audio := burst_audio [1; 0.0625]%float in
  List.length (detect_speech_regions audio) = 2
  /\ option_map (fun r => (map speaker (segments r), num_speakers r))
                (diarize (MF:=linear_mel) (G:=nat) Z.to_nat audio 1 4)
     = Some (["Participant 1"]%string, 1).
Proof. cbv zeta. split; vm_compute; reflexivity. Qed.

Local Open Scope R_scope.

(** ** Instances of the statements that carry hypotheses *)

Lemma diarize_empty_witness :
  detect_speech_regions [0] = []
  /\ diarize (G:=nat) Z.to_nat [0] 1 4 = Some empty_result.
Proof.
  split; [exact silent_sample_no_speech|].
  apply (proj2 (diarize_empty (G:=nat) Z.to_nat 1 4)).
  exact silent_sample_no_speech.
Defined.

Lemma diarize_deterministic_witness :
  let audio := burst_audio [1; 0.0625; 1]%float in
  let rng1 := Z.to_nat in
  let rng2 := fun seed : Z => if (seed <? 32)%Z then Z.to_nat seed else 0%nat in
  rng1 7%Z = rng2 7%Z /\ rng1 17%Z = rng2 17%Z /\ rng1 31%Z = rng2 31%Z
  /\ rng1 32%Z <> rng2 32%Z
  /\ option_map (fun r => (map speaker (segments r), num_speakers r))
                (diarize (MF:=linear_mel) rng1 audio 1 4)
     = Some (["Participant 1"; "Participant 2"; "Participant 1"]%string, 2%nat)
  /\ diarize (MF:=linear_mel) rng1 audio 1 4 = diarize (MF:=linear_mel) rng2 audio 1 4.
Proof.
  cbv zeta.
  split; [reflexivity|]. split; [reflexivity|]. split; [reflexivity|].
  split; [discriminate|].
  split; [exact (proj2 three_bursts_binary64)|].
  exact (diarize_deterministic (F:=float) (MF:=linear_mel) (G:=nat) Z.to_nat
           (fun seed : Z => if (seed <? 32)%Z then Z.to_nat seed else 0%nat)
           (burst_audio [1; 0.0625; 1]%float) 1 4 eq_refl eq_refl eq_refl).
Defined.

Lemma extract_embedding_normalised_witness :
  0 <= 1
  /\ (forall frames : list (list R),
        List.length (fst (mfcc_stats [] [] frames)) = 13%nat
        /\ List.length (snd (mfcc_stats [] [] frames)) = 13%nat)
  /\ List.length (extract_embedding (repeat 1 min_chunk) 0 1 [] []) = 30%nat.
Proof.
  assert (H01 : 0 <= 1) by lra.
  assert (Hk : forall frames : list (list R),
             List.length (fst (mfcc_stats [] [] frames)) = 13%nat
             /\ List.length (snd (mfcc_stats [] [] frames)) = 13%nat)
    by (intros frames; split; reflexivity).
  split; [exact H01|]. split; [exact Hk|].
  exact (proj1 (extract_embedding_normalised (repeat 1 min_chunk) 0 1 [] [] H01 Hk)).
Defined.

Lemma silhouette_score_amended_witness :
  let x := [[0]; [4]; [8]] in
  let labels := [0; 1; 1]%nat in
  (forall p q, In p x -> In q x -> List.length p = List.length q)
  /\ List.length labels = List.length x
  /\ (2 <= List.length (np_unique labels) < List.length x)%nat
  /\ silhouette_score x labels = mean_over_points (score_amended x labels) 3.
Proof.
  cbv zeta.
  assert (Hm : forall p q : list R,
             In p [[0]; [4]; [8]] -> In q [[0]; [4]; [8]] -> List.length p = List.length q).
  { intros p q Hp Hq. simpl in Hp, Hq.
    destruct Hp as [<-|[<-|[<-|[]]]], Hq as [<-|[<-|[<-|[]]]]; reflexivity. }
  assert (Hu : (2 <= List.length (np_unique [0; 1; 1]%nat) < 3)%nat) by (cbv; lia).
  split; [exact Hm|]. split; [reflexivity|]. split; [exact Hu|].
  exact (proj1 (silhouette_score_amended [[0]; [4]; [8]] [0; 1; 1]%nat Hm eq_refl Hu)).
Defined.

(** ** The model runs: binary64 evaluations *)

Local Close Scope R_scope.

Example fill_holes_single_gap :
  fill_holes (repeat true 12 ++ [false] ++ repeat true 12) = repeat true 25.
Proof. reflexivity. Qed.

Example fill_holes_double_gap :
  fill_holes (repeat true 12 ++ [false; false] ++ repeat true 12)
  = repeat true 12 ++ [false; false] ++ repeat true 12.
Proof. reflexivity. Qed.

Example detect_one_second_binary64 :
  detect_speech_regions
    (repeat 0%float (30 * 160) ++ repeat 1%float (100 * 160) ++ repeat 0%float (30 * 160))
  = [((28 * 160) / 16000, (129 * 160) / 16000 + 480 / 16000)%float].
Proof. vm_compute. reflexivity. Qed.

Example run_kmeans_single_cluster_binary64 :
  run_kmeans (G:=nat) Z.to_nat [[0%float]; [2%float]] 1 7
  = ([0; 0], [[2%float]], 4%float)
  /\ total_variance [[0%float]; [2%float]] = 2%float.
Proof. split; vm_compute; reflexivity. Qed.

Example silhouette_singleton_binary64 :
  silhouette_score [[0%float]; [4%float]; [8%float]] [0; 1; 1] = 0.5%float.
Proof. vm_compute. reflexivity. Qed.

(* ================================================================== *)
(** * Framing *)
(* ================================================================== *)

Section Framing.
Context {F : Type} {AF : Arith F}.

Lemma padded_length (audio : list F) frame_size :
  List.length (padded audio frame_size) = Nat.max (List.length audio) frame_size.
Proof. unfold padded, np_zeros. rewrite length_app, repeat_length. lia. Qed.

Lemma frame_audio_padded (audio : list F) frame_size hop :
  audio <> [] ->
  frame_audio audio frame_size hop
  = map (fun i => slice (padded audio frame_size) (i * hop) (i * hop + frame_size))
        (seq 0 (1 + (List.length (padded audio frame_size) - frame_size) / hop)).
Proof.
  intros Hne. unfold frame_audio.
  destruct audio as [|a audio]; [congruence|].
  set (au := a :: audio).
  assert (Hp : (if List.length au <? frame_size
                then au ++ np_zeros (frame_size - List.length au) else au)
               = padded au frame_size).
  { unfold padded. destruct (Nat.ltb_spec (List.length au) frame_size); [reflexivity|].
    replace (frame_size - List.length au) with 0 by lia.
    simpl. now rewrite app_nil_r. }
  rewrite Hp. reflexivity.
Qed.

Lemma frame_audio_count (audio : list F) frame_size hop :
  audio <> [] ->
  List.length (frame_audio audio frame_size hop)
  = 1 + (Nat.max (List.length audio) frame_size - frame_size) / hop.
Proof.
  intros Hne. rewrite (frame_audio_padded audio frame_size hop Hne).
  now rewrite length_map, length_seq, padded_length.
Qed.

Lemma frame_fits (size frame_size hop i : nat) :
  i < 1 + (Nat.max size frame_size - frame_size) / hop ->
  i * hop + frame_size <= Nat.max size frame_size.
Proof.
  intros Hi.
  assert (i <= (Nat.max size frame_size - frame_size) / hop) by lia.
  assert (i * hop <= Nat.max size frame_size - frame_size).
  { etransitivity; [apply Nat.mul_le_mono_r; eassumption|].
    rewrite Nat.mul_comm. apply Nat.Div0.mul_div_le. }
  lia.
Qed.

(** X1: for a positive hop (a zero hop divides by zero) and a non-empty
    signal, [frame_audio] returns
    [1 + (max(size, frame_size) - frame_size) // hop] frames, each of
    exactly [frame_size] samples, and sample [j] of frame [i] is sample
    [i * hop + j] of the signal (padded with zeros up to one frame). *)
Theorem frame_audio_shape (audio : list F) (frame_size hop : nat) :
  0 < hop -> audio <> [] ->
  let frames := frame_audio audio frame_size hop in
  let count := 1 + (Nat.max (List.length audio) frame_size - frame_size) / hop in
  List.length frames = count /\
  Forall (fun fr => List.length fr = frame_size) frames /\
  forall i j, i < count -> j < frame_size ->
    nth j (nth i frames []) f0 = nth (i * hop + j) (padded audio frame_size) f0.
Proof.
  intros _ Hne frames count. subst frames.
  pose proof (frame_audio_count audio frame_size hop Hne) as Hcount.
  fold count in Hcount.
  rewrite (frame_audio_padded audio frame_size hop Hne) in *.
  pose proof (padded_length audio frame_size) as Hlen.
  set (p := padded audio frame_size) in *.
  rewrite length_map, length_seq in Hcount. rewrite Hcount.
  assert (Hfit : forall i, i < count -> i * hop + frame_size <= List.length p).
  { intros i Hi. rewrite Hlen. apply frame_fits. exact Hi. }
  split; [|split].
  - now rewrite length_map, length_seq.
  - apply Forall_forall. intros fr Hfr.
    apply in_map_iff in Hfr as (i & <- & Hi). apply in_seq in Hi.
    rewrite slice_length by (apply Hfit; lia). lia.
  - intros i j Hi Hj.
    rewrite (nth_indep _ [] (slice p (0 * hop) (0 * hop + frame_size)))
      by (rewrite length_map, length_seq; lia).
    rewrite (map_nth (fun i => slice p (i * hop) (i * hop + frame_size))).
    rewrite seq_nth by lia. cbn [Nat.add].
    rewrite nth_slice by lia. reflexivity.
Qed.
End Framing.

Lemma frame_audio_shape_witness :
  let audio := [1; 2; 3]%R in
  0 < 1 /\ audio <> [] /\
  List.length (frame_audio audio 2 1) = 2 /\
  Forall (fun fr => List.length fr = 2) (frame_audio audio 2 1) /\
  forall i j, i < 2 -> j < 2 ->
    nth j (nth i (frame_audio audio 2 1) []) f0 = nth (i * 1 + j) (padded audio 2) f0.
Proof.
  cbv zeta.
  assert (H1 : 0 < 1) by lia.
  assert (Hne : [1; 2; 3]%R <> []) by discriminate.
  split; [exact H1|]. split; [exact Hne|].
  exact (frame_audio_shape [1; 2; 3]%R 2 1 H1 Hne).
Defined.

(* ================================================================== *)
(** * Hole filling is a closure *)
(* ================================================================== *)

Lemma fill_holes_length (mask : list bool) :
  List.length (fill_holes mask) = List.length mask.
Proof.
  assert (H : forall idx fixed,
             List.length (fold_left (fill_step mask) idx fixed) = List.length fixed).
  { induction idx as [|i idx IH]; intros fixed; simpl; [reflexivity|].
    now rewrite IH, fill_step_length. }
  unfold fill_holes. destruct (_ && _); [apply H|reflexivity].
Qed.

Lemma fill_holes_cases (mask : list bool) (j : nat) :
  nth j (fill_holes mask) false = true <->
  nth j mask false = true \/
  (hole <= j /\ j + hole < List.length mask /\ isolated_hole mask j = true).
Proof.
  unfold fill_holes.
  destruct ((0 <? hole) && (2 * hole <? List.length mask)) eqn:Hg.
  - apply andb_true_iff in Hg as [_ Hn]. apply Nat.ltb_lt in Hn.
    rewrite fill_fold_nth.
    2:{ intros k Hk. apply in_seq in Hk. lia. }
    rewrite existsb_seq_at, orb_true_iff, !andb_true_iff.
    rewrite Nat.leb_le, Nat.ltb_lt.
    split.
    + intros [H|[[Hlo Hhi] Hi]]; [now left|right]. repeat split; auto; lia.
    + intros [H|(Hlo & Hhi & Hi)]; [now left|right]. repeat split; auto; lia.
  - split; [now left|].
    intros [H|(Hlo & Hhi & _)]; auto.
    apply andb_false_iff in Hg as [Hg|Hg]; [discriminate|].
    apply Nat.ltb_ge in Hg. lia.
Qed.

Lemma isolated_hole_spec (mask : list bool) (j : nat) :
  hole <= j -> j + hole < List.length mask ->
  (isolated_hole mask j = true <->
   nth j mask false = false /\ all_active mask (j - hole) j
   /\ all_active mask (j + 1) (j + 1 + hole)).
Proof.
  intros Hlo Hhi. unfold isolated_hole.
  rewrite !andb_true_iff, negb_true_iff.
  rewrite !forallb_slice_active by lia. tauto.
Qed.

(** X2: hole filling keeps the length of the mask, never deactivates a
    frame, and filling twice changes nothing more. *)
Theorem fill_holes_closure (mask : list bool) :
  List.length (fill_holes mask) = List.length mask /\
  (forall i, nth i mask false = true -> nth i (fill_holes mask) false = true) /\
  fill_holes (fill_holes mask) = fill_holes mask.
Proof.
  split; [apply fill_holes_length|]. split.
  - intros i Hi. apply fill_holes_cases. now left.
  - apply (nth_ext _ _ false false); [apply fill_holes_length|].
    intros i _.
    destruct (nth i (fill_holes mask) false) eqn:Hi.
    + apply fill_holes_cases. now left.
    + destruct (nth i (fill_holes (fill_holes mask)) false) eqn:Hii; [|reflexivity].
      exfalso.
      apply fill_holes_cases in Hii as [Hii|(Hlo & Hhi & Hiso)]; [congruence|].
      rewrite fill_holes_length in Hhi.
      apply isolated_hole_spec in Hiso; [|lia|rewrite fill_holes_length; lia].
      destruct Hiso as (_ & Hb & Ha).
      assert (Hm : nth i mask false = false).
      { destruct (nth i mask false) eqn:E; [|reflexivity].
        assert (nth i (fill_holes mask) false = true) by (apply fill_holes_cases; now left).
        congruence. }
      assert (Hno : isolated_hole mask i <> true).
      { intros E.
        assert (nth i (fill_holes mask) false = true)
          by (apply fill_holes_cases; right; auto).
        congruence. }
      apply Hno. apply isolated_hole_spec; [lia|lia|].
      split; [exact Hm|].
      assert (Hnear : forall j, i - hole <= j < i + 1 + hole -> j <> i ->
                                nth j mask false = true).
      { intros j Hj Hne.
        assert (Hfj : nth j (fill_holes mask) false = true).
        { destruct (Nat.lt_ge_cases j i); [apply Hb|apply Ha]; lia. }
        apply fill_holes_cases in Hfj as [Hfj|(Hjlo & Hjhi & Hjiso)]; [exact Hfj|].
        apply isolated_hole_spec in Hjiso; [|lia|lia].
        destruct Hjiso as (_ & Hjb & Hja).
        assert (nth i mask false = true)
          by (destruct (Nat.lt_ge_cases j i); [apply Hja|apply Hjb]; lia).
        congruence. }
      split; intros j Hj; apply Hnear; lia.
Qed.

(* ================================================================== *)
(** * The region scan *)
(* ================================================================== *)

Section Scan.
Context {F : Type} {AF : Arith F}.

Lemma scan_regions_cover (mask : list bool) : forall i start (regions : list (F * F)),
  match start with Some st => st < i | None => True end ->
  exists runs : list (nat * nat),
    scan_regions mask i start regions
    = regions ++ map (fun p => region_of (fst p) (snd p)) runs
    /\ (forall j, (exists p, In p runs /\ fst p <= j <= snd p) <->
                  (match start with Some st => st <= j < i | None => False end
                   \/ (i <= j /\ nth (j - i) mask false = true)))
    /\ Forall (fun p => match start with Some st => st | None => i end <= fst p
                        /\ fst p <= snd p
                        /\ snd p < Nat.max 1 (i + List.length mask)) runs
    /\ adjacent (fun a b => snd a + 1 < fst b) runs.
Proof.
  induction mask as [|active rest IH]; intros i start regions Hst.
  - destruct start as [st|]; cbn [scan_regions].
    + exists [(st, i - 1)]. split; [reflexivity|]. split; [|split].
      * intros j. split.
        -- intros (p & [<-|[]] & Hp). simpl in Hp. left. lia.
        -- intros [Hj|[_ Hj]]; [|destruct (j - i); discriminate].
           exists (st, i - 1). split; [now left|simpl; lia].
      * constructor; [cbn [fst snd List.length]; lia|constructor].
      * apply adjacent_one.
    + exists []. split; [now rewrite app_nil_r|]. split; [|split].
      * intros j. split; [intros (p & [] & _)|].
        intros [[]|[_ Hj]]. destruct (j - i); discriminate.
      * constructor.
      * apply adjacent_nil.
  - assert (Hnth : forall j, i <= j ->
               nth (j - i) (active :: rest) false
               = if j =? i then active else nth (j - S i) rest false).
    { intros j Hj. destruct (Nat.eqb_spec j i) as [->|Hne].
      - now rewrite Nat.sub_diag.
      - replace (j - i) with (S (j - S i)) by lia. reflexivity. }
    destruct active, start as [st|]; cbn [scan_regions].
    + destruct (IH (S i) (Some st) regions) as (runs & -> & Hc & Hf & Ha); [lia|].
      exists runs. split; [reflexivity|]. split; [|split; [|exact Ha]].
      * intros j. rewrite Hc. split.
        -- intros [Hj|[Hj Hn]].
           ++ destruct (Nat.eq_dec j i) as [->|]; [right|left; lia].
              split; [lia|]. now rewrite Nat.sub_diag.
           ++ right. split; [lia|]. rewrite Hnth by lia.
              destruct (Nat.eqb_spec j i); [lia|exact Hn].
        -- intros [Hj|[Hj Hn]]; [left; lia|].
           rewrite Hnth in Hn by lia.
           destruct (Nat.eqb_spec j i) as [->|]; [left; lia|right; split; [lia|exact Hn]].
      * eapply Forall_impl; [|exact Hf]. cbn [List.length]. intros p Hp. lia.
    + destruct (IH (S i) (Some i) regions) as (runs & -> & Hc & Hf & Ha); [lia|].
      exists runs. split; [reflexivity|]. split; [|split; [|exact Ha]].
      * intros j. rewrite Hc. split.
        -- intros [Hj|[Hj Hn]]; right.
           ++ assert (j = i) as -> by lia. split; [lia|]. now rewrite Nat.sub_diag.
           ++ split; [lia|]. rewrite Hnth by lia.
              destruct (Nat.eqb_spec j i); [lia|exact Hn].
        -- intros [[]|[Hj Hn]].
           rewrite Hnth in Hn by lia.
           destruct (Nat.eqb_spec j i) as [->|]; [left; lia|right; split; [lia|exact Hn]].
      * eapply Forall_impl; [|exact Hf]. cbn [List.length]. intros p Hp. lia.
    + destruct (IH (S i) None (regions ++ [region_of st (i - 1)]))
        as (runs & -> & Hc & Hf & Ha); [exact I|].
      exists ((st, i - 1) :: runs). split; [now rewrite <- app_assoc|].
      split; [|split].
      * intros j. split.
        -- intros (p & [<-|Hp] & Hj); [left; simpl in Hj; lia|].
           destruct (proj1 (Hc j) (ex_intro _ p (conj Hp Hj))) as [[]|[Hj' Hn]].
           right. split; [lia|]. rewrite Hnth by lia.
           destruct (Nat.eqb_spec j i); [lia|exact Hn].
        -- intros [Hj|[Hj Hn]].
           ++ exists (st, i - 1). split; [now left|simpl; lia].
           ++ rewrite Hnth in Hn by lia.
              destruct (Nat.eqb_spec j i); [discriminate|].
              destruct (proj2 (Hc j)) as (p & Hp & Hjp); [right; split; [lia|exact Hn]|].
              exists p. split; [now right|exact Hjp].
      * constructor; [cbn [fst snd List.length]; lia|].
        eapply Forall_impl; [|exact Hf]. cbn [List.length]. intros p Hp. lia.
      * destruct runs as [|q runs']; [apply adjacent_one|].
        apply adjacent_cons; [|exact Ha].
        inversion Hf as [|? ? Hq _]; subst. cbn [fst snd]. lia.
    + destruct (IH (S i) None regions) as (runs & -> & Hc & Hf & Ha); [exact I|].
      exists runs. split; [reflexivity|]. split; [|split; [|exact Ha]].
      * intros j. rewrite Hc. split.
        -- intros [[]|[Hj Hn]]. right. split; [lia|]. rewrite Hnth by lia.
           destruct (Nat.eqb_spec j i); [lia|exact Hn].
        -- intros [[]|[Hj Hn]].
           rewrite Hnth in Hn by lia.
           destruct (Nat.eqb_spec j i); [discriminate|right; split; [lia|exact Hn]].
      * eapply Forall_impl; [|exact Hf]. cbn [List.length]. intros p Hp. lia.
Qed.

(** X3: the scan of the activity mask emits one interval per maximal run
    of active frames, in order: a frame is active exactly when it lies in
    one of the runs, every run lies inside the mask, and two consecutive
    runs are separated by at least one inactive frame. *)
Theorem scan_regions_maximal_runs (mask : list bool) :
  exists runs : list (nat * nat),
    scan_regions (F:=F) mask 0 None []
    = map (fun p => region_of (fst p) (snd p)) runs
    /\ (forall j, nth j mask false = true <->
                  exists p, In p runs /\ fst p <= j <= snd p)
    /\ Forall (fun p => fst p <= snd p < List.length mask) runs
    /\ adjacent (fun a b => snd a + 1 < fst b) runs.
Proof.
  destruct (scan_regions_cover mask 0 None [] I) as (runs & Hr & Hc & Hf & Ha).
  exists runs. split; [exact Hr|]. split; [|split; [|exact Ha]].
  - intros j. rewrite Hc, Nat.sub_0_r. split.
    + intros H. right. split; [lia|exact H].
    + intros [[]|[_ H]]. exact H.
  - destruct mask as [|b mask].
    + assert (runs = []) as ->; [|constructor].
      destruct runs as [|p runs]; [reflexivity|exfalso].
      inversion Hf as [|? ? Hp _]; subst.
      destruct (proj1 (Hc (fst p))) as [[]|[_ Hn]].
      * exists p. split; [now left|lia].
      * destruct (fst p - 0); discriminate.
    + eapply Forall_impl; [|exact Hf]. cbn [List.length]. intros p Hp. lia.
Qed.
End Scan.

(* ================================================================== *)
(** * Durations and gaps of the detected intervals *)
(* ================================================================== *)

Local Open Scope R_scope.

Lemma merge_fold_durations (regions : list (R * R)) : forall merged,
  StronglySorted (fun a b => fst a <= fst b) regions ->
  Forall (fun r => 65 / 100 <= snd r - fst r) merged ->
  adjacent (fun newer older => 35 / 100 < fst newer - snd older) merged ->
  (forall h older, merged = h :: older -> Forall (fun r => fst h <= fst r) regions) ->
  Forall (fun r => 65 / 100 <= snd r - fst r) (fold_left merge_step regions merged)
  /\ adjacent (fun newer older => 35 / 100 < fst newer - snd older)
              (fold_left merge_step regions merged).
Proof.
  induction regions as [|[s e] rs IH]; intros merged Hs Hm Ha Hh;
    cbn [fold_left]; [auto|].
  apply StronglySorted_inv in Hs as [Hs' Hle].
  rewrite merge_step_real.
  destruct (Rltb (e - s) (65 / 100)) eqn:Hd.
  - apply IH; [exact Hs'|exact Hm|exact Ha|].
    intros h older Hm'. specialize (Hh h older Hm'). now inversion Hh.
  - apply Rltb_false in Hd.
    destruct merged as [|[ps pe] older].
    + apply IH; [exact Hs'| | |].
      * constructor; [exact Hd|constructor].
      * apply adjacent_one.
      * intros h older Hm'. inversion Hm'; subst. exact Hle.
    + assert (Hps : ps <= s).
      { specialize (Hh _ _ eq_refl). now inversion Hh. }
      inversion Hm as [|? ? Hpv Hm']; subst. simpl in Hpv.
      destruct (Rleb (s - pe) (35 / 100)) eqn:Hg.
      * apply IH; [exact Hs'| | |].
        -- constructor; [simpl; lra|exact Hm'].
        -- destruct older as [|o older']; [apply adjacent_one|].
           apply adjacent_cons; [|eapply adjacent_tail, Ha].
           apply (Ha [] (ps, pe) o older' eq_refl).
        -- intros h older0 Hm0. inversion Hm0; subst. simpl.
           eapply Forall_impl; [|exact Hle]. simpl. intros r Hr. lra.
      * apply Rleb_false in Hg.
        apply IH; [exact Hs'| | |].
        -- constructor; [exact Hd|exact Hm].
        -- apply adjacent_cons; [simpl; lra|exact Ha].
        -- intros h older0 Hm0. inversion Hm0; subst. exact Hle.
Qed.

Lemma merge_regions_durations (audio : list R) :
  Forall (fun r => 65 / 100 <= snd r - fst r) (detect_speech_regions audio)
  /\ adjacent (fun a b => 35 / 100 < fst b - snd a) (detect_speech_regions audio).
Proof.
  unfold detect_speech_regions.
  destruct (frame_audio audio vad_frame_size hop_size) as [|fr frames];
    [split; [constructor|apply adjacent_nil]|].
  set (mask := fill_holes (speech_mask (fr :: frames))).
  destruct (scan_regions_runs (F:=R) mask 0 None [] I) as (runs & -> & Hf & Hs).
  simpl app. unfold merge_regions.
  destruct (region_of_runs_sorted runs) as [Hv Hsorted]; [|exact Hs|].
  { eapply Forall_impl; [|exact Hf]. simpl. tauto. }
  destruct (merge_fold_durations _ [] Hsorted) as [Hv' Ha'].
  - constructor.
  - apply adjacent_nil.
  - discriminate.
  - split; [apply Forall_rev, Hv'|apply adjacent_rev, Ha'].
Qed.

Local Close Scope R_scope.

Section MergeBounds.
Context {F : Type} {AF : Arith F}.

(** Every merged interval starts where an input interval starts and ends
    where one ends. *)
Lemma merge_fold_times (P Q : F -> Prop) (regions : list (F * F)) : forall merged,
  Forall (fun r => P (fst r) /\ Q (snd r)) regions ->
  Forall (fun r => P (fst r) /\ Q (snd r)) merged ->
  Forall (fun r => P (fst r) /\ Q (snd r)) (fold_left merge_step regions merged).
Proof.
  induction regions as [|[s e] rs IH]; intros merged Hr Hm; cbn [fold_left]; [exact Hm|].
  inversion Hr as [|? ? Hse Hr']; subst. cbn [fst snd] in Hse.
  apply IH; [exact Hr'|].
  unfold merge_step.
  destruct (fltb (fsub e s) min_duration); [exact Hm|].
  destruct merged as [|[ps pe] older]; [constructor; [exact Hse|constructor]|].
  inversion Hm as [|? ? Hp Hm']; subst. cbn [fst snd] in Hp.
  destruct (fleb (fsub s pe) max_gap).
  - constructor; [cbn [fst snd]; tauto|exact Hm'].
  - constructor; [exact Hse|exact Hm].
Qed.

Lemma speech_mask_length (frames : list (list F)) :
  List.length (speech_mask frames) = List.length frames.
Proof. unfold speech_mask. now rewrite !length_map. Qed.
End MergeBounds.

Local Open Scope R_scope.

(** Every interval returned by [detect_speech_regions] lies inside the
    recording: it starts at or after 0 s and ends at or before the
    duration of the signal (of one frame, 0.03 s, for a shorter signal). *)
Lemma detect_speech_regions_within_audio (audio : list R) :
  Forall (fun r => 0 <= fst r
                   /\ snd r <= INR (Nat.max (List.length audio) vad_frame_size) / 16000)
         (detect_speech_regions audio).
Proof.
  unfold detect_speech_regions.
  destruct audio as [|a audio]; [constructor|].
  set (au := a :: audio).
  assert (Hne : au <> []) by discriminate.
  pose proof (frame_audio_count au vad_frame_size hop_size Hne) as Hcount.
  destruct (frame_audio au vad_frame_size hop_size) as [|fr frames] eqn:Hfr; [constructor|].
  set (mask := fill_holes (speech_mask (fr :: frames))).
  assert (Hmask : List.length mask = List.length (fr :: frames)).
  { subst mask. now rewrite fill_holes_length, speech_mask_length. }
  destruct (scan_regions_cover (F:=R) mask 0 None [] I) as (runs & -> & _ & Hf & _).
  simpl app. unfold merge_regions. apply Forall_rev.
  apply merge_fold_times with (P := fun s => 0 <= s)
    (Q := fun e => e <= INR (Nat.max (List.length au) vad_frame_size) / 16000);
    [|constructor].
  apply Forall_map. eapply Forall_impl; [|exact Hf].
  intros [st en] Hp. cbn [fst snd] in Hp.
  rewrite region_start_real, region_stop_real. cbn [fst snd].
  split.
  - pose proof (pos_INR st). lra.
  - assert (Hen : (en < 1 + (Nat.max (List.length au) vad_frame_size - vad_frame_size)
                          / hop_size)%nat).
    { rewrite <- Hcount, <- Hmask. cbn [Nat.add] in Hp.
      assert (List.length mask <> 0%nat) by (rewrite Hmask; discriminate). lia. }
    apply frame_fits in Hen. apply le_INR in Hen.
    rewrite plus_INR, mult_INR in Hen.
    assert (Hh : INR hop_size = 160)
      by (unfold hop_size; rewrite (INR_IZR_INZ 160); reflexivity).
    assert (Hv : INR vad_frame_size = 480)
      by (unfold vad_frame_size; rewrite (INR_IZR_INZ 480); reflexivity).
    rewrite Hh, Hv in Hen. lra.
Qed.

(** X4: over the reals, every interval returned by
    [detect_speech_regions] lasts at least 0.65 s, lies between 0 s and
    the duration of the signal, and is followed by a gap of more than
    0.35 s before the next interval starts. *)
Theorem detect_speech_regions_durations (audio : list R) :
  Forall (fun r => 65 / 100 <= snd r - fst r
                   /\ 0 <= fst r
                   /\ snd r <= INR (Nat.max (List.length audio) vad_frame_size) / 16000)
         (detect_speech_regions audio)
  /\ adjacent (fun a b => 35 / 100 < fst b - snd a) (detect_speech_regions audio).
Proof.
  destruct (merge_regions_durations audio) as [Hd Hg].
  pose proof (detect_speech_regions_within_audio audio) as Hw.
  split; [|exact Hg].
  rewrite Forall_forall in *. intros r Hr. split; [apply Hd, Hr|apply Hw, Hr].
Qed.

Local Close Scope R_scope.

(* ================================================================== *)
(** * K-means: shapes and ranges *)
(* ================================================================== *)

Section KMeansShape.
Context {F : Type} {AF : Arith F} {G : Type} {RG : Generator F G}.

Lemma pp_step_centers (x : list (list F)) (st : list (list F) * list F * G) (c : nat) :
  exists idx,
    fst (fst (pp_step x st c)) = set_nth (fst (fst st)) c (row x idx)
    /\ (draws_in_range (F:=F) (G:=G) -> x <> [] -> idx < List.length x).
Proof.
  destruct st as [[centers cd] rng]. unfold pp_step.
  assert (Hn : x <> [] -> 0 < List.length x).
  { destruct x; [congruence|simpl; lia]. }
  destruct (fleb (np_sum cd) (of_Q 1e-12) || negb (np_isfinite (np_sum cd))).
  - destruct (rng_integers rng (List.length x)) as [idx rng'] eqn:Hd.
    exists idx. split; [reflexivity|].
    intros Hr Hx. destruct (Hr rng (List.length x) (Hn Hx)) as [Hi _].
    now rewrite Hd in Hi.
  - cbv zeta.
    match goal with |- context [if fleb ?a ?b then _ else _] => destruct (fleb a b) end.
    + destruct (rng_integers rng (List.length x)) as [idx rng'] eqn:Hd.
      exists idx. split; [reflexivity|].
      intros Hr Hx. destruct (Hr rng (List.length x) (Hn Hx)) as [Hi _].
      now rewrite Hd in Hi.
    + match goal with |- context [rng_choice rng ?n ?p] =>
        destruct (rng_choice rng n p) as [idx rng'] eqn:Hd end.
      exists idx. split; [reflexivity|].
      intros Hr Hx. destruct (Hr rng (List.length x) (Hn Hx)) as [_ Hi].
      specialize (Hi (map (fun p => fdiv p (np_sum (map (fun p0 => np_minimum (np_maximum p0 f0) (of_Q 1)) (map (fun v => fdiv v (np_sum cd)) cd)))) (map (fun p0 => np_minimum (np_maximum p0 f0) (of_Q 1)) (map (fun v => fdiv v (np_sum cd)) cd)))).
      now rewrite Hd in Hi.
Qed.

(** The loop of [kmeans_pp_init]: after the centres [0 .. c - 1] are
    set, the centres [c .. c + m - 1] are. *)
Lemma fold_pp_step (x : list (list F)) (P : list F -> Prop) (m : nat) :
  forall (c : nat) (st : list (list F) * list F * G),
    (forall idx, (draws_in_range (F:=F) (G:=G) -> x <> [] -> idx < List.length x) ->
                 P (row x idx)) ->
    c + m <= List.length (fst (fst st)) ->
    (forall i, i < c -> P (nth i (fst (fst st)) [])) ->
    let st' := fold_left (pp_step x) (seq c m) st in
    List.length (fst (fst st')) = List.length (fst (fst st))
    /\ forall i, i < c + m -> P (nth i (fst (fst st')) []).
Proof.
  induction m as [|m IH]; intros c st HP Hlen Hc; cbn [seq fold_left].
  - split; [reflexivity|]. intros i Hi. apply Hc. lia.
  - destruct (pp_step_centers x st c) as (idx & Hst & Hidx).
    destruct (IH (S c) (pp_step x st c)) as [Hl Hi]; [exact HP| | |].
    + rewrite Hst, set_nth_length. lia.
    + intros i Hi. rewrite Hst, nth_set_nth.
      destruct (Nat.eqb_spec i c) as [->|Hne]; cbn [andb].
      * destruct (Nat.ltb_spec c (List.length (fst (fst st)))); [|lia].
        apply HP, Hidx.
      * apply Hc. lia.
    + split.
      * rewrite Hl, Hst. apply set_nth_length.
      * intros i Hlt. apply Hi. lia.
Qed.

Lemma kmeans_pp_init_spec (x : list (list F)) (k : nat) (rng : G) (P : list F -> Prop) :
  (forall idx, (draws_in_range (F:=F) (G:=G) -> x <> [] -> idx < List.length x) ->
               P (row x idx)) ->
  List.length (kmeans_pp_init x k rng) = k
  /\ forall i, i < k -> P (nth i (kmeans_pp_init x k rng) []).
Proof.
  intros HP. unfold kmeans_pp_init.
  destruct (rng_integers rng (List.length x)) as [idx rng'] eqn:Hd.
  set (centers0 := set_nth (repeat (np_zeros (List.length (hd [] x))) k) 0 (row x idx)).
  assert (Hl0 : List.length centers0 = k).
  { subst centers0. now rewrite set_nth_length, repeat_length. }
  destruct k as [|k].
  - cbn [Nat.sub seq fold_left fst]. split; [exact Hl0|]. intros i Hi. lia.
  - pose proof (fold_pp_step x P (S k - 1) 1
                  (centers0, dist_sq_to x (nth 0 centers0 []), rng') HP) as H.
    cbn [fst] in H. rewrite Hl0 in H.
    destruct H as [Hl Hi]; [lia| |].
    + intros i Hi. assert (i = 0) as -> by lia.
      subst centers0. cbn [repeat set_nth nth].
      apply HP. intros Hr Hx.
      assert (Hn : 0 < List.length x) by (destruct x; [congruence|simpl; lia]).
      destruct (Hr rng (List.length x) Hn) as [Hlt _]. now rewrite Hd in Hlt.
    + split; [exact Hl|]. intros i Hlt. apply Hi. lia.
Qed.

(** X6: when the generator draws indices in range, [kmeans_pp_init]
    returns exactly [k] centres and each of them is one of the points. *)
Theorem kmeans_pp_init_points (x : list (list F)) (k : nat) (rng : G) :
  draws_in_range (F:=F) (G:=G) -> x <> [] -> 1 <= k ->
  List.length (kmeans_pp_init x k rng) = k
  /\ Forall (fun c => In c x) (kmeans_pp_init x k rng).
Proof.
  intros Hr Hx _.
  destruct (kmeans_pp_init_spec x k rng (fun c => In c x)) as [Hl Hi].
  - intros idx Hidx. unfold row. apply nth_In. auto.
  - split; [exact Hl|].
    apply Forall_forall. intros c Hc.
    apply (In_nth _ _ []) in Hc as (i & Hlt & <-). apply Hi. lia.
Qed.

Lemma argmin_from_bound (l : list F) : forall i mp best,
  best < i -> argmin_from l i mp best < i + List.length l.
Proof.
  induction l as [|v l IH]; intros i mp best Hb; cbn [argmin_from List.length]; [lia|].
  destruct (negb (fleb mp v)).
  - destruct (np_isnan v); [lia|].
    specialize (IH (S i) v i). lia.
  - specialize (IH (S i) mp best). lia.
Qed.

Lemma np_argmin_bound (l : list F) : l <> [] -> np_argmin l < List.length l.
Proof.
  destruct l as [|v l]; [congruence|]. intros _. unfold np_argmin.
  destruct (np_isnan v); [simpl; lia|].
  pose proof (argmin_from_bound l 1 v 0). simpl. lia.
Qed.

Lemma center_dists_rows (x centers : list (list F)) :
  List.length (center_dists x centers) = List.length x
  /\ Forall (fun r => List.length r = List.length centers) (center_dists x centers).
Proof.
  unfold center_dists.
  destruct (pairwise_distances_rows (x ++ centers)) as [Hlen Hrows].
  rewrite length_app in Hlen, Hrows.
  set (d := pairwise_distances (x ++ centers)) in *.
  split.
  - rewrite length_map, length_firstn. lia.
  - apply Forall_map, Forall_forall. intros r Hr.
    apply (In_nth _ _ []) in Hr as (i & Hi & <-).
    rewrite length_firstn in Hi.
    rewrite length_skipn, nth_firstn.
    destruct (Nat.ltb_spec i (List.length x)); [|lia].
    rewrite Forall_forall in Hrows.
    rewrite (Hrows (nth i d [])) by (apply nth_In; lia). lia.
Qed.

Lemma update_center_length (x : list (list F)) labels dist centers j :
  List.length (update_center x labels dist centers j) = List.length centers.
Proof.
  unfold update_center. destruct (select x (label_mask labels j)); apply set_nth_length.
Qed.

Lemma fold_update_center_length (x : list (list F)) labels dist idx : forall centers,
  List.length (fold_left (update_center x labels dist) idx centers) = List.length centers.
Proof.
  induction idx as [|j idx IH]; intros centers; cbn [fold_left]; [reflexivity|].
  now rewrite IH, update_center_length.
Qed.

Lemma kmeans_loop_shape (x : list (list F)) (k : nat) (iters : nat) :
  forall labels centers,
    1 <= k -> List.length centers = k ->
    List.length labels = List.length x -> Forall (fun l => l < k) labels ->
    List.length (fst (kmeans_loop iters x k labels centers)) = List.length x
    /\ Forall (fun l => l < k) (fst (kmeans_loop iters x k labels centers))
    /\ List.length (snd (kmeans_loop iters x k labels centers)) = k.
Proof.
  induction iters as [|iters IH]; intros labels centers Hk Hc Hl Hf.
  - cbn [kmeans_loop fst snd]. auto.
  - rewrite kmeans_loop_step. cbv zeta.
    destruct (labels_eqb (map np_argmin (center_dists x centers)) labels);
      [cbn [fst snd]; auto|].
    destruct (center_dists_rows x centers) as [Hn Hrows].
    apply IH; [exact Hk| | |].
    + now rewrite fold_update_center_length.
    + now rewrite length_map.
    + apply Forall_map. eapply Forall_impl; [|exact Hrows].
      intros r Hr. cbv beta in Hr. rewrite <- Hc, <- Hr.
      apply np_argmin_bound. intros ->. simpl in Hr. lia.
Qed.

(** X7: for at least one cluster and a non-empty point set, [run_kmeans]
    returns one label per point, every label below [k], and [k] centres. *)
Theorem run_kmeans_shape (default_rng : Z -> G) (x : list (list F)) (k : nat) (seed : Z) :
  x <> [] -> 1 <= k ->
  let '(labels, centers, _) := run_kmeans default_rng x k seed in
  List.length labels = List.length x
  /\ Forall (fun l => l < k) labels
  /\ List.length centers = k.
Proof.
  intros _ Hk. unfold run_kmeans.
  pose proof (kmeans_loop_shape x k max_iter (repeat 0 (List.length x))
                (kmeans_pp_init x k (default_rng seed)) Hk) as H.
  destruct (kmeans_loop max_iter x k (repeat 0 (List.length x))
              (kmeans_pp_init x k (default_rng seed))) as [labels centers].
  cbn [fst snd] in H. apply H.
  - apply (kmeans_pp_init_spec x k (default_rng seed) (fun _ => True)). auto.
  - apply repeat_length.
  - apply Forall_forall. intros l Hl. apply repeat_spec in Hl. lia.
Qed.
End KMeansShape.

Lemma counting_generator_in_range {F : Type} : draws_in_range (F:=F) (G:=nat).
Proof.
  intros g n Hn. cbn [rng_integers rng_choice counting_generator fst].
  split; [|intros _]; apply Nat.mod_upper_bound; lia.
Qed.

Lemma kmeans_pp_init_points_witness :
  let x := [[0]; [2]]%R in
  draws_in_range (F:=R) (G:=nat) /\ x <> [] /\ 1 <= 2 /\
  List.length (kmeans_pp_init x 2 7) = 2
  /\ Forall (fun c => In c x) (kmeans_pp_init x 2 7).
Proof.
  cbv zeta.
  assert (Hx : [[0]; [2]]%R <> []) by discriminate.
  assert (Hk : 1 <= 2) by lia.
  split; [exact counting_generator_in_range|]. split; [exact Hx|]. split; [exact Hk|].
  exact (kmeans_pp_init_points [[0]; [2]]%R 2 7 counting_generator_in_range Hx Hk).
Defined.

Lemma run_kmeans_shape_witness :
  let x := [[0]; [2]]%R in
  x <> [] /\ 1 <= 2 /\
  let '(labels, centers, _) := run_kmeans (G:=nat) Z.to_nat x 2 7 in
  List.length labels = List.length x
  /\ Forall (fun l => l < 2) labels
  /\ List.length centers = 2.
Proof.
  cbv zeta.
  assert (Hx : [[0]; [2]]%R <> []) by discriminate.
  assert (Hk : 1 <= 2) by lia.
  split; [exact Hx|]. split; [exact Hk|].
  exact (run_kmeans_shape (G:=nat) Z.to_nat [[0]; [2]]%R 2 7 Hx Hk).
Defined.

(* ================================================================== *)
(** * Distances and silhouette, over the reals *)
(* ================================================================== *)

Local Open Scope R_scope.

Lemma euclid_sym (p : list R) : forall q, euclid p q = euclid q p.
Proof.
  unfold euclid. intros q. f_equal. revert q.
  induction p as [|a p IH]; intros [|b q]; cbn [combine map]; try reflexivity.
  rewrite !Rsum_cons, IH. cbn [fst snd]. ring.
Qed.

Lemma euclid_nonneg (p q : list R) : 0 <= euclid p q.
Proof. unfold euclid. apply sqrt_pos. Qed.

(** X8: on a feature matrix, [pairwise_distances] is the matrix of
    Euclidean distances: it is symmetric, non-negative, and zero on the
    diagonal. *)
Theorem pairwise_distances_euclidean (x : list (list R)) :
  (forall p q, In p x -> In q x -> List.length p = List.length q) ->
  forall i j, (i < List.length x)%nat -> (j < List.length x)%nat ->
    let d := pairwise_distances x in
    nth j (nth i d []) 0 = euclid (nth i x []) (nth j x [])
    /\ nth j (nth i d []) 0 = nth i (nth j d []) 0
    /\ 0 <= nth j (nth i d []) 0
    /\ nth i (nth i d []) 0 = 0.
Proof.
  intros Hm i j Hi Hj. cbv zeta.
  assert (He : forall a b, (a < List.length x)%nat -> (b < List.length x)%nat ->
             nth b (nth a (pairwise_distances x) []) 0 = euclid (nth a x []) (nth b x [])).
  { intros a b Ha Hb. rewrite (distance_row x Hm a Ha).
    now rewrite (nth_map_in _ x b 0 []) by exact Hb. }
  rewrite !He by assumption.
  split; [reflexivity|]. split; [apply euclid_sym|].
  split; [apply euclid_nonneg|apply euclid_self].
Qed.

Lemma pairwise_distances_euclidean_witness :
  let x := [[0; 0]; [3; 4]] in
  (forall p q, In p x -> In q x -> List.length p = List.length q)
  /\ (0 < List.length x)%nat /\ (1 < List.length x)%nat
  /\ nth 1 (nth 0 (pairwise_distances x) []) 0 = euclid (nth 0 x []) (nth 1 x []).
Proof.
  cbv zeta.
  assert (Hm : forall p q : list R,
             In p [[0; 0]; [3; 4]] -> In q [[0; 0]; [3; 4]] -> List.length p = List.length q).
  { intros p q Hp Hq. simpl in Hp, Hq.
    destruct Hp as [<-|[<-|[]]], Hq as [<-|[<-|[]]]; reflexivity. }
  assert (H0 : (0 < List.length [[0; 0]; [3; 4]])%nat) by (simpl; lia).
  assert (H1 : (1 < List.length [[0; 0]; [3; 4]])%nat) by (simpl; lia).
  split; [exact Hm|]. split; [exact H0|]. split; [exact H1|].
  exact (proj1 (pairwise_distances_euclidean [[0; 0]; [3; 4]] Hm 0%nat 1%nat H0 H1)).
Defined.

(** ** The silhouette lies between -1 and 1 *)

Lemma Q2R_m1 : Q2R (-1) = -1.
Proof. unfold Q2R. simpl. field. Qed.

Lemma select_Forall {A : Type} (P : A -> Prop) (l : list A) : forall mask,
  Forall P l -> Forall P (select l mask).
Proof.
  induction l as [|a l IH]; intros [|b mask] H; cbn [select]; try constructor.
  inversion H; subst. destruct b; [constructor|]; auto.
Qed.

Lemma Rsum_nonneg (l : list R) : Forall (fun v => 0 <= v) l -> 0 <= Rsum l.
Proof.
  induction 1 as [|a l Ha _ IH]; [unfold Rsum; simpl; lra|].
  rewrite Rsum_cons. lra.
Qed.

Lemma Rsum_bounds (lo hi : R) (l : list R) :
  Forall (fun v => lo <= v <= hi) l ->
  lo * INR (List.length l) <= Rsum l <= hi * INR (List.length l).
Proof.
  induction 1 as [|a l Ha _ IH].
  - unfold Rsum. simpl. lra.
  - rewrite Rsum_cons. change (List.length (a :: l)) with (S (List.length l)).
    rewrite S_INR. lra.
Qed.

Lemma np_mean_nonneg (l : list R) : Forall (fun v => 0 <= v) l -> 0 <= np_mean l.
Proof.
  intros H. unfold np_mean. rewrite of_nat_real.
  change (0 <= Rsum l / INR (List.length l)).
  destruct l as [|a l].
  - unfold Rsum, Rdiv. simpl. lra.
  - apply Rsum_nonneg in H.
    assert (0 < INR (List.length (a :: l))) by (apply lt_0_INR; simpl; lia).
    apply Rmult_le_pos; [exact H|]. left. now apply Rinv_0_lt_compat.
Qed.

Lemma sil_a_nonneg (d_i : list R) labels li :
  Forall (fun v => 0 <= v) d_i -> 0 <= sil_a d_i labels li.
Proof.
  intros H. unfold sil_a.
  destruct (Nat.leb_spec (count_true (label_mask labels li)) 1) as [|Hc];
    [rewrite <- Q2R_0 at 1; apply Rle_refl|].
  rewrite of_nat_real.
  change (0 <= Rsum (select d_i (label_mask labels li))
               / INR (count_true (label_mask labels li) - 1)).
  assert (0 < INR (count_true (label_mask labels li) - 1)) by (apply lt_0_INR; lia).
  apply Rmult_le_pos; [|left; now apply Rinv_0_lt_compat].
  apply Rsum_nonneg, select_Forall, H.
Qed.

Lemma sil_b_nonneg (d_i : list R) labels uniq li b :
  Forall (fun v => 0 <= v) d_i -> sil_b d_i labels uniq li = Some b -> 0 <= b.
Proof.
  intros H. unfold sil_b.
  assert (Hgen : forall acc,
             (forall b0, acc = Some b0 -> 0 <= b0) ->
             forall b1,
               fold_left
                 (fun b c =>
                    if (c =? li)%nat then b
                    else if negb (existsb (fun o => o) (label_mask labels c)) then b
                         else min_inf b (np_mean (select d_i (label_mask labels c))))
                 uniq acc = Some b1 -> 0 <= b1).
  { induction uniq as [|c uniq IH]; intros acc Hacc b1; cbn [fold_left]; [apply Hacc|].
    apply IH.
    destruct (c =? li)%nat; [exact Hacc|].
    destruct (negb _); [exact Hacc|].
    assert (Hm : 0 <= np_mean (select d_i (label_mask labels c)))
      by (apply np_mean_nonneg, select_Forall, H).
    intros b0. destruct acc as [b'|]; cbn [min_inf lt_inf real_arith].
    - intros [= <-]. rewrite py_min_real. apply Rmin_glb; [now apply Hacc|exact Hm].
    - intros [= <-]. exact Hm. }
  apply Hgen. discriminate.
Qed.

Lemma point_score_bounds (d_i : list R) labels uniq li :
  Forall (fun v => 0 <= v) d_i -> -1 <= point_score d_i labels uniq li <= 1.
Proof.
  intros H. unfold point_score.
  pose proof (sil_a_nonneg d_i labels li H) as Ha.
  destruct (sil_b d_i labels uniq li) as [b|] eqn:Hb; [|change (@f0 R real_arith) with (Q2R 0); rewrite Q2R_0; lra].
  apply sil_b_nonneg in Hb; [|exact H].
  cbn [np_isfinite real_arith negb orb]. rewrite py_max_real.
  change (fleb (Rmax (sil_a d_i labels li) b) (of_Q 1e-12))
    with (Rleb (Rmax (sil_a d_i labels li) b) (Q2R 1e-12)).
  destruct (Rleb _ _) eqn:Hd; [change (@f0 R real_arith) with (Q2R 0); rewrite Q2R_0; lra|].
  apply Rleb_false in Hd.
  assert (H12 : 0 < Q2R 1e-12) by (unfold Q2R; simpl; lra).
  set (a := sil_a d_i labels li) in *.
  change (-1 <= (b - a) / Rmax a b <= 1).
  assert (Hpos : 0 < Rmax a b) by lra.
  assert (Hup : b - a <= Rmax a b) by (pose proof (Rmax_r a b); lra).
  assert (Hlo : - Rmax a b <= b - a) by (pose proof (Rmax_l a b); lra).
  split.
  - apply Rmult_le_reg_r with (Rmax a b); [exact Hpos|].
    unfold Rdiv. rewrite Rmult_assoc, Rinv_l by lra. lra.
  - apply Rmult_le_reg_r with (Rmax a b); [exact Hpos|].
    unfold Rdiv. rewrite Rmult_assoc, Rinv_l by lra. lra.
Qed.

Lemma pairwise_row_nonneg (x : list (list R)) (i : nat) :
  Forall (fun v => 0 <= v) (nth i (pairwise_distances x) []).
Proof.
  destruct (Nat.lt_ge_cases i (List.length (pairwise_distances x))) as [Hi|Hi].
  - assert (Hin : In (nth i (pairwise_distances x) []) (pairwise_distances x))
      by now apply nth_In.
    unfold pairwise_distances in Hin at 2.
    apply in_map_iff in Hin as (xi & <- & _).
    apply Forall_map, Forall_forall. intros xj _. apply sqrt_pos.
  - rewrite nth_overflow by exact Hi. constructor.
Qed.

(** X9: over the reals, [silhouette_score] always lies between -1 and 1. *)
Theorem silhouette_score_bounds (x : list (list R)) (labels : list nat) :
  -1 <= silhouette_score x labels <= 1.
Proof.
  unfold silhouette_score.
  destruct (_ || _); [change (of_Q (-1)) with (Q2R (-1)); rewrite Q2R_m1; lra|].
  set (scores := map _ (seq 0 (List.length x))).
  assert (Hs : Forall (fun v => -1 <= v <= 1) scores).
  { subst scores. apply Forall_map, Forall_forall. intros i _.
    apply point_score_bounds, pairwise_row_nonneg. }
  destruct scores as [|s scores]; [change (of_Q (-1)) with (Q2R (-1)); rewrite Q2R_m1; lra|].
  apply Rsum_bounds in Hs.
  unfold np_mean. rewrite of_nat_real.
  change (-1 <= Rsum (s :: scores) / INR (List.length (s :: scores)) <= 1).
  assert (Hn : 0 < INR (List.length (s :: scores))) by (apply lt_0_INR; simpl; lia).
  split.
  - apply Rmult_le_reg_r with (INR (List.length (s :: scores))); [exact Hn|].
    unfold Rdiv. rewrite Rmult_assoc, Rinv_l by lra. lra.
  - apply Rmult_le_reg_r with (INR (List.length (s :: scores))); [exact Hn|].
    unfold Rdiv. rewrite Rmult_assoc, Rinv_l by lra. lra.
Qed.

Local Close Scope R_scope.

(* ================================================================== *)
(** * Speaker counts and speaker names *)
(* ================================================================== *)

Lemma fold_left_invariant {A B : Type} (P : A -> Prop) (f : A -> B -> A) (l : list B) :
  (forall a b, P a -> P (f a b)) -> forall a, P a -> P (fold_left f l a).
Proof.
  intros Hf. induction l as [|b l IH]; intros a Ha; cbn [fold_left]; auto.
Qed.

(** A loop that keeps its first component or replaces it by the current
    item ends with the initial component or with one of the items. *)
Lemma fold_left_choice {A B : Type} (f : B * A -> B -> B * A) :
  (forall a b, fst (f a b) = fst a \/ fst (f a b) = b) ->
  forall l a, fst (fold_left f l a) = fst a \/ In (fst (fold_left f l a)) l.
Proof.
  intros Hf. induction l as [|b l IH]; intros a; cbn [fold_left]; [now left|].
  destruct (IH (f a b)) as [H|H]; [|right; now right].
  rewrite H. destruct (Hf a b) as [E|E]; rewrite E; [now left|right; now left].
Qed.

Section Counting.
Context {F : Type} {AF : Arith F} {MF : MelScale F} {SP : Spectral F}.
Context {G : Type} {RG : Generator F G}.

Lemma run_kmeans_labels (default_rng : Z -> G) (x : list (list F)) (k : nat) (seed : Z) :
  1 <= k ->
  List.length (fst (fst (run_kmeans default_rng x k seed))) = List.length x
  /\ Forall (fun l => l < k) (fst (fst (run_kmeans default_rng x k seed))).
Proof.
  intros Hk. unfold run_kmeans.
  pose proof (kmeans_loop_shape x k max_iter (repeat 0 (List.length x))
                (kmeans_pp_init x k (default_rng seed)) Hk) as H.
  destruct (kmeans_loop max_iter x k (repeat 0 (List.length x))
              (kmeans_pp_init x k (default_rng seed))) as [labels centers].
  cbn [fst snd] in *.
  destruct H as (Hl & Hf & _).
  - apply (kmeans_pp_init_spec x k (default_rng seed) (fun _ => True)). auto.
  - apply repeat_length.
  - apply Forall_forall. intros l Hl. apply repeat_spec in Hl. lia.
  - auto.
Qed.

(** One pass of the loop over the seeds keeps the best labelling so far
    or replaces it by the labelling of this seed. *)
Lemma seed_step_labels (default_rng : Z -> G) (x : list (list F)) (k : nat)
      (best : option (list nat) * option F) (seed : Z) :
  1 <= k ->
  (forall l, fst best = Some l ->
             List.length l = List.length x /\ Forall (fun v => v < k) l) ->
  forall l,
    fst (let '(labels, _, inertia) := run_kmeans default_rng x k seed in
         if lt_best inertia (snd best) then (Some labels, Some inertia) else best)
    = Some l ->
    List.length l = List.length x /\ Forall (fun v => v < k) l.
Proof.
  intros Hk Hb.
  generalize (run_kmeans_labels default_rng x k seed Hk).
  generalize (run_kmeans default_rng x k seed). intros [[ls cs] inertia] Hrun.
  cbn [fst] in Hrun.
  destruct (lt_best inertia (snd best)); [|exact Hb].
  intros l [= <-]. exact Hrun.
Qed.

Lemma fold_seeds_labels (default_rng : Z -> G) (x : list (list F)) (k : nat)
      (sds : list Z) :
  1 <= k ->
  forall best : option (list nat) * option F,
    (forall l, fst best = Some l ->
               List.length l = List.length x /\ Forall (fun v => v < k) l) ->
    forall l,
      fst (fold_left
             (fun (best : option (list nat) * option F) seed =>
                let '(labels, _, inertia) := run_kmeans default_rng x k seed in
                if lt_best inertia (snd best) then (Some labels, Some inertia) else best)
             sds best) = Some l ->
      List.length l = List.length x /\ Forall (fun v => v < k) l.
Proof.
  intros Hk best Hb.
  apply (fold_left_invariant
           (fun best : option (list nat) * option F =>
              forall l, fst best = Some l ->
                        List.length l = List.length x /\ Forall (fun v => v < k) l)).
  - intros a b Ha. exact (seed_step_labels default_rng x k a b Hk Ha).
  - exact Hb.
Qed.

Lemma best_of_seeds_labels (default_rng : Z -> G) (x : list (list F)) (k : nat) labels :
  1 <= k -> best_of_seeds default_rng x k = Some labels ->
  List.length labels = List.length x /\ Forall (fun l => l < k) labels.
Proof.
  intros Hk. unfold best_of_seeds.
  apply fold_seeds_labels; [exact Hk|].
  intros l E. discriminate E.
Qed.

Lemma count_step_fst (default_rng : Z -> G) (x : list (list F)) (best : Z * F) (k : Z) :
  fst (count_step default_rng x best k) = fst best
  \/ fst (count_step default_rng x best k) = k.
Proof.
  unfold count_step.
  destruct (best_of_seeds default_rng x (Z.to_nat k)) as [l|]; [|now left].
  destruct (fltb _ _); [right|left]; reflexivity.
Qed.

Lemma fold_count_step_fst (default_rng : Z -> G) (x : list (list F)) (ks : list Z) :
  forall best,
    fst (fold_left (count_step default_rng x) ks best) = fst best
    \/ In (fst (fold_left (count_step default_rng x) ks best)) ks.
Proof.
  intros best.
  exact (fold_left_choice (count_step default_rng x) (count_step_fst default_rng x) ks best).
Qed.

Lemma range_Z_In (lo hi k : Z) : In k (range_Z lo hi) -> (lo <= k < hi)%Z.
Proof.
  unfold range_Z. intros H. apply in_map_iff in H as (i & <- & Hi).
  apply in_seq in Hi. lia.
Qed.

(** The early return of [choose_speaker_count]. *)
Lemma choose_speaker_count_few (default_rng : Z -> G) (x : list (list F)) (mn mx : Z) :
  (Z.of_nat (List.length x) < 3 \/ Z.min mx (Z.of_nat (List.length x)) <= 1)%Z ->
  choose_speaker_count default_rng x mn mx = 1%Z.
Proof.
  intros H. unfold choose_speaker_count.
  destruct (Z.ltb_spec (Z.of_nat (List.length x)) 3); [reflexivity|].
  destruct (Z.leb_spec (Z.min mx (Z.of_nat (List.length x))) 1); [reflexivity|lia].
Qed.

(** The count chosen by the loop is 1 or one of the counts tried. *)
Lemma choose_speaker_count_bounds (default_rng : Z -> G) (x : list (list F)) (mn mx : Z) :
  let max_k := Z.min mx (Z.of_nat (List.length x)) in
  let k := choose_speaker_count default_rng x mn mx in
  (k = 1 \/ Z.max 2 (Z.min mn max_k) <= k <= max_k)%Z.
Proof.
  cbv zeta. unfold choose_speaker_count.
  set (n := Z.of_nat (List.length x)).
  set (max_k := Z.min mx n).
  destruct ((n <? 3)%Z || (max_k <=? 1)%Z); [now left|].
  pose proof (fold_count_step_fst default_rng x
                (range_Z (Z.max 2 (Z.min mn max_k)) (max_k + 1))
                (1%Z, of_Q (-1))) as H.
  destruct (fold_left _ _ _) as [best_k best_score]. cbn [fst] in H.
  destruct (fltb best_score (of_Q 0.10)); [now left|].
  destruct H as [->|H]; [now left|].
  apply range_Z_In in H. right. lia.
Qed.

(** X10: [choose_speaker_count] returns 1, or a count between
    [max(2, min(min_speakers, max_k))] and [max_k = min(max_speakers, n)];
    it returns 1 whenever there are fewer than three points or
    [max_speakers] is at most 1. *)
Theorem choose_speaker_count_range (default_rng : Z -> G) (x : list (list F))
        (min_speakers max_speakers : Z) :
  let n := Z.of_nat (List.length x) in
  let max_k := Z.min max_speakers n in
  let k := choose_speaker_count default_rng x min_speakers max_speakers in
  (k = 1 \/ Z.max 2 (Z.min min_speakers max_k) <= k <= max_k)%Z
  /\ ((n < 3 \/ max_speakers <= 1)%Z -> k = 1%Z).
Proof.
  cbv zeta. split.
  - apply choose_speaker_count_bounds.
  - intros [Hn|Hm]; apply choose_speaker_count_few; [now left|right; lia].
Qed.

Lemma cluster_labels_bound (default_rng : Z -> G) (x : list (list F)) (mn mx : Z) :
  Forall (fun l => l < Z.to_nat (Z.max 1 (choose_speaker_count default_rng x mn mx)))
         (cluster_labels default_rng x mn mx).
Proof.
  unfold cluster_labels.
  set (k := choose_speaker_count default_rng x mn mx).
  assert (Hz : Forall (fun l => l < Z.to_nat (Z.max 1 k)) (repeat 0 (List.length x))).
  { apply Forall_forall. intros l Hl. apply repeat_spec in Hl. lia. }
  destruct (Z.leb_spec k 1); [exact Hz|].
  destruct (best_of_seeds default_rng x (Z.to_nat k)) as [labels|] eqn:Hb; [|exact Hz].
  apply best_of_seeds_labels in Hb as [_ Hb]; [|lia].
  eapply Forall_impl; [|exact Hb]. cbv beta. intros l Hl. lia.
Qed.

Lemma with_labels_label (regions : list (SpeechRegion F)) (labels : list nat) (K : nat) :
  1 <= K -> Forall (fun l => l < K) labels ->
  Forall (fun r => label r < K) (with_labels regions labels).
Proof.
  intros HK Hl. unfold with_labels. apply Forall_map, Forall_forall.
  intros [i r] _. cbn [label fst].
  destruct (Nat.lt_ge_cases i (List.length labels)) as [Hi|Hi].
  - rewrite Forall_forall in Hl. apply Hl, nth_In, Hi.
  - rewrite nth_overflow by exact Hi. lia.
Qed.

Lemma with_labels_embedding (regions : list (SpeechRegion F)) labels :
  map embedding (with_labels regions labels) = map embedding regions.
Proof.
  unfold with_labels. rewrite map_map. simpl.
  now rewrite <- (map_map snd embedding), map_snd_combine_seq.
Qed.

(** [diarize] returns the empty result when nothing is detected, and
    otherwise the assembly of one region per detected interval, labelled
    below the chosen speaker count. *)
Lemma diarize_clustered (default_rng : Z -> G) (audio : list F) (mn mx : Z) :
  exists r : Result F,
    diarize default_rng audio mn mx = Some r
    /\ ((detect_speech_regions audio = [] /\ r = empty_result)
        \/ exists regions : list (SpeechRegion F),
             detect_speech_regions audio <> []
             /\ map (fun g => (start g, stop g)) regions = detect_speech_regions audio
             /\ Forall (fun g => label g
                                 < Z.to_nat (Z.max 1 (choose_speaker_count
                                                        default_rng (map embedding regions)
                                                        mn mx)))
                       regions
             /\ r = assemble regions).
Proof.
  unfold diarize.
  destruct audio as [|a audio]; [eexists; split; [reflexivity|now left]|].
  destruct (detect_speech_regions (a :: audio)) as [|se speech] eqn:Hs;
    [eexists; split; [reflexivity|now left]|].
  destruct (build_mel_filterbank_total sr 512 24 (of_Q 80) (of_Q 7600))
    as (fb & -> & _).
  cbn [map]. eexists. split; [reflexivity|]. right.
  eexists. split; [discriminate|]. split; [|split; [|reflexivity]].
  - rewrite with_labels_times. cbn [map start stop].
    rewrite map_map. cbn [start stop]. rewrite <- surjective_pairing. f_equal.
    rewrite <- (map_id speech) at 2. apply map_ext. now intros [s e].
  - rewrite with_labels_embedding.
    apply with_labels_label; [lia|]. apply cluster_labels_bound.
Qed.

Lemma assemble_ordered (regions : list (SpeechRegion F)) :
  let ordered := sorted_keys (first_seen regions) in
  NoDup ordered /\ forall l, In l ordered <-> In l (map label regions).
Proof.
  cbv zeta.
  destruct (first_seen_fold regions [] (NoDup_nil _)) as [Hnd Hin].
  fold (first_seen regions) in Hnd, Hin.
  pose proof (sorted_keys_perm (first_seen regions)) as Hperm.
  split.
  - eapply Permutation_NoDup; [symmetry; exact Hperm|exact Hnd].
  - intros l. split.
    + intros H. eapply Permutation_in in H; [|exact Hperm].
      apply Hin in H as [[]|H]. exact H.
    + intros H. eapply Permutation_in; [symmetry; exact Hperm|].
      apply Hin. now right.
Qed.

Lemma assemble_num_speakers_le (regions : list (SpeechRegion F)) (K : nat) :
  Forall (fun r => label r < K) regions -> num_speakers (assemble regions) <= K.
Proof.
  intros Hl. unfold assemble. cbn [num_speakers].
  destruct (assemble_ordered regions) as [Hnd Hin]. cbv zeta in Hnd, Hin.
  apply Nat.le_trans with (List.length (seq 0 K)); [|rewrite length_seq; lia].
  apply NoDup_incl_length; [exact Hnd|].
  intros l Hl'. apply Hin in Hl'. apply in_map_iff in Hl' as (r & <- & Hr).
  rewrite Forall_forall in Hl. apply in_seq. specialize (Hl r Hr). lia.
Qed.

Lemma assemble_step_length names (merged : list (Segment F)) (r : SpeechRegion F) :
  1 <= List.length (assemble_step names merged r) <= S (List.length merged).
Proof.
  unfold assemble_step. destruct merged as [|prev older]; [simpl; lia|].
  destruct (_ && _); simpl; lia.
Qed.

Lemma fold_assemble_length names (regions : list (SpeechRegion F)) : forall merged,
  List.length (fold_left (assemble_step names) regions merged)
  <= List.length merged + List.length regions
  /\ (regions <> [] -> 1 <= List.length (fold_left (assemble_step names) regions merged)).
Proof.
  induction regions as [|r rs IH]; intros merged; cbn [fold_left List.length].
  - split; [lia|congruence].
  - destruct (IH (assemble_step names merged r)) as [Hle Hne].
    pose proof (assemble_step_length names merged r) as Hs.
    split; [lia|]. intros _.
    destruct rs as [|r' rs]; [cbn [fold_left]; lia|apply Hne; discriminate].
Qed.

Lemma assemble_speaker_names (regions : list (SpeechRegion F)) :
  Forall (fun g => exists i, i < num_speakers (assemble regions)
                             /\ speaker g = participant i)
         (segments (assemble regions)).
Proof.
  unfold assemble. cbn [segments num_speakers].
  destruct (assemble_ordered regions) as [Hnd Hin]. cbv zeta in Hnd, Hin.
  set (ordered := sorted_keys (first_seen regions)) in *.
  apply Forall_forall. intros g Hg.
  assert (Hs : In (speaker g)
                  (map speaker (fold_left (assemble_step (name_table ordered)) regions [])))
    by (apply in_map, in_rev, Hg).
  apply fold_assemble_speakers in Hs as [[]|Hs].
  apply in_map_iff in Hs as (r & Hr & Hin').
  assert (Hl : In (label r) ordered) by (apply Hin, in_map, Hin').
  apply (In_nth _ _ 0) in Hl as (i & Hi & Hnth).
  exists i. split; [exact Hi|].
  rewrite <- Hr, <- Hnth. unfold name_table.
  apply (name_of_table_at ordered 0 i Hnd Hi).
Qed.

(** X11: [diarize] always returns a result, in which the number of
    speakers is at most the number of segments, the number of segments
    is at most the number of detected intervals, the number of speakers
    is at most [max(1, max_speakers)], and there is a segment (and a
    speaker) exactly when an interval was detected. *)
Theorem diarize_counts (default_rng : Z -> G) (audio : list F) (mn mx : Z) :
  exists r : Result F,
    diarize default_rng audio mn mx = Some r
    /\ num_speakers r <= List.length (segments r)
    /\ List.length (segments r) <= List.length (detect_speech_regions audio)
    /\ (Z.of_nat (num_speakers r) <= Z.max 1 mx)%Z
    /\ (detect_speech_regions audio = [] <-> segments r = [])
    /\ (num_speakers r = 0 <-> segments r = []).
Proof.
  destruct (diarize_clustered default_rng audio mn mx)
    as (r & Hr & [[Hd ->]|(regions & Hne & Ht & Hl & ->)]);
    exists r + eexists; (split; [exact Hr|]).
  - rewrite Hd. cbn. repeat split; auto; lia.
  - assert (Hlen : List.length (detect_speech_regions audio) = List.length regions)
      by (now rewrite <- Ht, length_map).
    assert (Hregs : regions <> []).
    { intros ->. apply Hne. now rewrite <- Ht. }
    assert (Hn : num_speakers (assemble regions) <= List.length (segments (assemble regions))).
    { rewrite assemble_num_speakers.
      rewrite <- (length_map speaker (segments (assemble regions))).
      apply NoDup_incl_length; [apply NoDup_nodup|].
      intros s Hs. now apply nodup_In in Hs. }
    pose proof (assemble_speaker_names regions) as Hnames.
    assert (Hseg : 1 <= List.length (segments (assemble regions))
                   <= List.length regions).
    { unfold assemble. cbn [segments]. rewrite length_rev.
      destruct (fold_assemble_length (name_table (sorted_keys (first_seen regions)))
                  regions []) as [Hle Hge].
      specialize (Hge Hregs). simpl in Hle. lia. }
    assert (Hsegs : segments (assemble regions) <> []).
    { intros Hs. rewrite Hs in Hseg. simpl in Hseg. lia. }
    split; [exact Hn|]. split; [lia|]. split; [|split].
    + pose proof (assemble_num_speakers_le regions _ Hl) as Hk.
      pose proof (choose_speaker_count_bounds default_rng (map embedding regions) mn mx)
        as Hc. cbv zeta in Hc. lia.
    + split; intros H; contradiction.
    + split; [|intros H; contradiction].
      intros H0.
      destruct (segments (assemble regions)) as [|g gs]; [reflexivity|].
      inversion Hnames as [|? ? (i & Hi & _) _]; subst. lia.
Qed.
(** X12: every segment returned by [diarize] carries a speaker name
    [Participant i] with [1 <= i <= num_speakers]. *)
Theorem diarize_speaker_names (default_rng : Z -> G) (audio : list F) (mn mx : Z) :
  exists r : Result F,
    diarize default_rng audio mn mx = Some r
    /\ Forall (fun g => exists i, i < num_speakers r /\ speaker g = participant i)
              (segments r).
Proof.
  destruct (diarize_clustered default_rng audio mn mx)
    as (r & Hr & [[Hd ->]|(regions & _ & _ & _ & ->)]);
    eexists; (split; [exact Hr|]).
  - constructor.
  - apply assemble_speaker_names.
Qed.

(** X13: when fewer than three intervals are detected, or
    [max_speakers] is at most 1, a single speaker is reported: every
    segment is attributed to [Participant 1]. *)
Theorem diarize_single_speaker (default_rng : Z -> G) (audio : list F) (mn mx : Z) :
  (Z.of_nat (List.length (detect_speech_regions audio)) < 3 \/ mx <= 1)%Z ->
  exists r : Result F,
    diarize default_rng audio mn mx = Some r
    /\ num_speakers r <= 1
    /\ Forall (fun g => speaker g = "Participant 1"%string) (segments r).
Proof.
  intros Hfew.
  destruct (diarize_clustered default_rng audio mn mx)
    as (r & Hr & [[Hd ->]|(regions & _ & Ht & Hl & ->)]);
    eexists; (split; [exact Hr|]).
  - split; [simpl; lia|constructor].
  - assert (Hlen : List.length (detect_speech_regions audio)
                   = List.length (map embedding regions))
      by (now rewrite <- Ht, !length_map).
    assert (Hone : choose_speaker_count default_rng (map embedding regions) mn mx = 1%Z).
    { apply choose_speaker_count_few. rewrite <- Hlen.
      destruct Hfew as [Hn|Hm]; [now left|right; lia]. }
    rewrite Hone in Hl.
    pose proof (assemble_num_speakers_le regions _ Hl) as Hk.
    change (Z.to_nat (Z.max 1 1)) with 1 in Hk.
    split; [exact Hk|].
    eapply Forall_impl; [|apply assemble_speaker_names].
    intros g (i & Hi & ->). assert (i = 0) as -> by lia. reflexivity.
Qed.
End Counting.

Lemma diarize_single_speaker_witness :
  let audio := burst_audio [1; 0.0625]%float in
  (Z.of_nat (List.length (detect_speech_regions audio)) < 3 \/ 4 <= 1)%Z
  /\ option_map (fun r => (map speaker (segments r), num_speakers r))
                (diarize (MF:=linear_mel) (G:=nat) Z.to_nat audio 1 4)
     = Some (["Participant 1"]%string, 1)
  /\ exists r : Result float,
       diarize (MF:=linear_mel) (G:=nat) Z.to_nat audio 1 4 = Some r
       /\ num_speakers r <= 1
       /\ Forall (fun g => speaker g = "Participant 1"%string) (segments r).
Proof.
  cbv zeta.
  assert (H : (Z.of_nat (List.length (detect_speech_regions
                                         (burst_audio [1; 0.0625]%float))) < 3
               \/ 4 <= 1)%Z).
  { left. rewrite (proj1 two_bursts_binary64). reflexivity. }
  split; [exact H|]. split; [exact (proj2 two_bursts_binary64)|].
  exact (diarize_single_speaker (F:=float) (MF:=linear_mel) (G:=nat) Z.to_nat
           (burst_audio [1; 0.0625]%float) 1 4 H).
Defined.

(* ================================================================== *)
(** * Segments against detected speech, over the reals *)
(* ================================================================== *)

Local Open Scope R_scope.

Lemma starts_increasing {A : Type} (lo hi : A -> R) (l : list A) :
  separated_by lo hi l -> ForallOrdPairs (fun a b => lo a < lo b) l.
Proof.
  intros Hsep. pose proof (separated_all_pairs _ _ _ Hsep) as Hp.
  destruct Hsep as [Hv _].
  induction Hp as [|a l Hal Hl IH]; [constructor|].
  inversion Hv as [|? ? Hva Hv']; subst.
  constructor; [|exact (IH Hv')].
  eapply Forall_impl; [|exact Hal]. simpl. intros b Hb. lra.
Qed.

(** A segment that covers the interval from [s] to [e]. *)
Lemma fold_assemble_covers names (regions : list (SpeechRegion R)) : forall merged,
  ForallOrdPairs (fun a b => start a < start b) regions ->
  (forall h older, merged = h :: older -> Forall (fun r => seg_start h <= start r) regions) ->
  (forall s e, (exists g, In g merged /\ seg_start g <= s /\ e <= seg_end g) ->
               exists g, In g (fold_left (assemble_step names) regions merged)
                         /\ seg_start g <= s /\ e <= seg_end g)
  /\ Forall (fun r => exists g, In g (fold_left (assemble_step names) regions merged)
                                /\ seg_start g <= start r /\ stop r <= seg_end g)
            regions.
Proof.
  induction regions as [|r rs IH]; intros merged Hp Hh; cbn [fold_left].
  - split; [auto|constructor].
  - inversion Hp as [|? ? Hlater Hp']; subst.
    assert (Hstep :
      (forall h older, assemble_step names merged r = h :: older ->
                       Forall (fun r0 => seg_start h <= start r0) rs)
      /\ (forall s e, (exists g, In g merged /\ seg_start g <= s /\ e <= seg_end g) ->
                      exists g, In g (assemble_step names merged r)
                                /\ seg_start g <= s /\ e <= seg_end g)
      /\ (exists g, In g (assemble_step names merged r)
                    /\ seg_start g <= start r /\ stop r <= seg_end g)).
    { assert (Hlater' : Forall (fun r0 => start r <= start r0) rs).
      { eapply Forall_impl; [|exact Hlater]. simpl. intros q Hq. lra. }
      rewrite assemble_step_real. cbv zeta.
      destruct merged as [|prev older].
      - split; [|split].
        + intros h older Hm. inversion Hm; subst. exact Hlater'.
        + intros s e (g & [] & _).
        + eexists. split; [left; reflexivity|]. simpl. lra.
      - assert (Hprev : Forall (fun r0 => seg_start prev <= start r0) (r :: rs))
          by apply (Hh prev older eq_refl).
        inversion Hprev as [|? ? Hpr Hprs]; subst.
        destruct (String.eqb (speaker prev) (name_of names (label r))
                  && Rleb (start r - seg_end prev) (45 / 100)).
        + split; [|split].
          * intros h older0 Hm. inversion Hm; subst. exact Hprs.
          * intros s e (g & [<-|Hg] & Hs & He).
            -- eexists. split; [left; reflexivity|]. simpl.
               pose proof (Rmax_l (seg_end prev) (stop r)). lra.
            -- exists g. split; [now right|auto].
          * eexists. split; [left; reflexivity|]. simpl.
            pose proof (Rmax_r (seg_end prev) (stop r)). lra.
        + split; [|split].
          * intros h older0 Hm. inversion Hm; subst. exact Hlater'.
          * intros s e (g & Hg & Hs & He). exists g. split; [now right|auto].
          * eexists. split; [left; reflexivity|]. simpl. lra. }
    destruct Hstep as (Hh' & Hmono & Hr).
    destruct (IH (assemble_step names merged r) Hp' Hh') as [IHm IHr].
    split.
    + intros s e Hc. apply IHm, Hmono, Hc.
    + constructor; [apply IHm, Hr|exact IHr].
Qed.

Lemma assemble_covers (regions : list (SpeechRegion R)) :
  separated_by start stop regions ->
  Forall (fun r => exists g, In g (segments (assemble regions))
                             /\ seg_start g <= start r /\ stop r <= seg_end g)
         regions.
Proof.
  intros Hsep. apply starts_increasing in Hsep.
  destruct (fold_assemble_covers (name_table (sorted_keys (first_seen regions)))
              regions [] Hsep) as [_ H]; [discriminate|].
  eapply Forall_impl; [|exact H].
  intros r (g & Hg & Hb). exists g. split; [|exact Hb].
  unfold assemble. cbn [segments]. now apply in_rev in Hg.
Qed.

Section Coverage.
Context {MF : MelScale R} {SP : Spectral R} {G : Type} {RG : Generator R G}.

(** X5: over the reals, the segments returned by [diarize] cover the
    detected speech and stay inside the recording: every detected
    interval lies within one segment, and every segment starts at or
    after 0 s and ends at or before the duration of the signal (of one
    frame, 0.03 s, for a shorter signal). *)
Theorem diarize_covers_speech (default_rng : Z -> G) (audio : list R) (mn mx : Z) :
  exists r : Result R,
    diarize default_rng audio mn mx = Some r
    /\ (forall s e, In (s, e) (detect_speech_regions audio) ->
                    exists g, In g (segments r) /\ seg_start g <= s /\ e <= seg_end g)
    /\ Forall (fun g => 0 <= seg_start g
                        /\ seg_end g
                           <= INR (Nat.max (List.length audio) vad_frame_size) / 16000)
              (segments r).
Proof.
  destruct (diarize_clustered default_rng audio mn mx)
    as (r & Hr & [[Hd ->]|(regions & _ & Ht & _ & ->)]);
    eexists; (split; [exact Hr|]).
  - rewrite Hd. split; [intros s e []|constructor].
  - assert (Hsep : separated_by start stop regions).
    { apply (separated_by_map (fun g => (start g, stop g)) fst snd).
      rewrite Ht. apply detect_speech_regions_separated. }
    split.
    + intros s e Hin. rewrite <- Ht in Hin.
      apply in_map_iff in Hin as (q & Hq & Hin). inversion Hq; subst.
      pose proof (assemble_covers regions Hsep) as Hc.
      rewrite Forall_forall in Hc. exact (Hc q Hin).
    + pose proof (detect_speech_regions_within_audio audio) as Hw.
      rewrite <- Ht in Hw. rewrite Forall_map in Hw. cbn [fst snd] in Hw.
      rewrite Forall_forall in Hw.
      eapply Forall_impl; [|apply assemble_times].
      intros g [Hs He]. cbv beta in Hs, He.
      apply in_map_iff in Hs as (q1 & <- & Hq1).
      apply in_map_iff in He as (q2 & <- & Hq2).
      split; [apply (Hw q1 Hq1)|apply (Hw q2 Hq2)].
Qed.
End Coverage.

Local Close Scope R_scope.

(* ================================================================== *)
(** * Speakers are numbered by first appearance *)
(* ================================================================== *)

Section FirstSeen.
Context {F : Type} {AF : Arith F}.

Lemma setdefault_app (d : list (nat * F)) key v :
  setdefault d key v
  = if in_dec Nat.eq_dec key (map fst d) then d else d ++ [(key, v)].
Proof.
  induction d as [|[k' v'] d IH]; simpl; [reflexivity|].
  destruct (Nat.eqb_spec key k') as [E|Hne].
  - destruct (Nat.eq_dec k' key); [reflexivity|congruence].
  - rewrite IH.
    destruct (Nat.eq_dec k' key) as [E|Hn]; [congruence|].
    destruct (in_dec Nat.eq_dec key (map fst d)); reflexivity.
Qed.

Lemma first_seen_prefix (regions : list (SpeechRegion F)) : forall d,
  exists ext, fold_left (fun d r => setdefault d (label r) (start r)) regions d = d ++ ext
              /\ Forall (fun e => exists r, In r regions /\ e = (label r, start r)) ext.
Proof.
  induction regions as [|r rs IH]; intros d; cbn [fold_left].
  - exists []. split; [now rewrite app_nil_r|constructor].
  - destruct (IH (setdefault d (label r) (start r))) as (ext & -> & Hext).
    assert (Hext' : Forall (fun e => exists r0, In r0 (r :: rs) /\ e = (label r0, start r0)) ext).
    { eapply Forall_impl; [|exact Hext]. intros e (r0 & Hr0 & ->).
      exists r0. split; [now right|reflexivity]. }
    rewrite setdefault_app.
    destruct (in_dec Nat.eq_dec (label r) (map fst d)).
    + exists ext. split; [reflexivity|exact Hext'].
    + exists ((label r, start r) :: ext). split; [now rewrite <- app_assoc|].
      constructor; [|exact Hext']. exists r. split; [now left|reflexivity].
Qed.

(** The keys of [first_seen], in insertion order: the key at position
    [i + 1] is the label of no interval before one labelled with the key
    at position [i]. *)
Lemma first_seen_order (regions : list (SpeechRegion F)) : forall d,
  NoDup (map fst d) ->
  forall pre r post i,
    regions = pre ++ r :: post ->
    nth_error (map fst (fold_left (fun d r => setdefault d (label r) (start r)) regions d))
              (S i) = Some (label r) ->
    exists l', nth_error (map fst (fold_left (fun d r => setdefault d (label r) (start r))
                                             regions d)) i = Some l'
               /\ (In l' (map fst d) \/ In l' (map label pre)).
Proof.
  induction regions as [|r1 rs IH]; intros d Hd pre r post i Hreg Hnth.
  - destruct pre; discriminate.
  - cbn [fold_left] in *.
    set (d1 := setdefault d (label r1) (start r1)) in *.
    assert (Hk1 : map fst d1
                  = if in_dec Nat.eq_dec (label r1) (map fst d)
                    then map fst d else map fst d ++ [label r1])
      by apply setdefault_keys.
    assert (Hd1 : NoDup (map fst d1)).
    { rewrite Hk1. destruct (in_dec Nat.eq_dec (label r1) (map fst d)); [exact Hd|].
      apply NoDup_app; [exact Hd|repeat constructor; intros []|].
      intros a Ha [<-|[]]. contradiction. }
    destruct (first_seen_fold rs d1 Hd1) as [Hnd _].
    destruct (first_seen_prefix rs d1) as (ext & Hfin & _).
    destruct pre as [|p pre'].
    + injection Hreg as <- <-.
      rewrite Hfin, map_app in Hnth, Hnd |- *.
      assert (Hin1 : In (label r1) (map fst d1)).
      { rewrite Hk1. destruct (in_dec Nat.eq_dec (label r1) (map fst d)); [assumption|].
        apply in_or_app. right. now left. }
      assert (Hidx : (S i <= List.length (map fst d))%nat).
      { destruct (in_dec Nat.eq_dec (label r1) (map fst d)) as [Hin|Hnin].
        - apply (In_nth_error) in Hin as (j & Hj).
          assert (Hjl : (j < List.length (map fst d))%nat)
            by (apply nth_error_Some; congruence).
          assert (Hj' : nth_error (map fst d1 ++ map fst ext) j = Some (label r1)).
          { rewrite Hk1. rewrite nth_error_app1 by exact Hjl. exact Hj. }
          assert (j = S i).
          { apply (proj1 (NoDup_nth_error _) Hnd).
            - rewrite length_app, Hk1. lia.
            - congruence. }
          lia.
        - assert (Hj' : nth_error (map fst d1 ++ map fst ext) (List.length (map fst d))
                        = Some (label r1)).
          { rewrite Hk1. rewrite nth_error_app1 by (rewrite length_app; simpl; lia).
            rewrite nth_error_app2 by lia. now rewrite Nat.sub_diag. }
          assert (List.length (map fst d) = S i).
          { apply (proj1 (NoDup_nth_error _) Hnd).
            - rewrite length_app, Hk1, length_app. simpl. lia.
            - congruence. }
          lia. }
      assert (Hi : (i < List.length (map fst d))%nat) by lia.
      destruct (nth_error (map fst d) i) as [l'|] eqn:El;
        [|apply nth_error_None in El; lia].
      exists l'. split; [|left; eapply nth_error_In; exact El].
      rewrite nth_error_app1.
      * rewrite Hk1. destruct (in_dec Nat.eq_dec (label r1) (map fst d)); [exact El|].
        rewrite nth_error_app1 by exact Hi. exact El.
      * rewrite Hk1. destruct (in_dec Nat.eq_dec (label r1) (map fst d));
          [|rewrite length_app]; lia.
    + injection Hreg as <- Hrs.
      destruct (IH d1 Hd1 pre' r post i Hrs Hnth) as (l' & Hl' & Hor).
      exists l'. split; [exact Hl'|].
      destruct Hor as [Hor|Hor]; [|right; now right].
      rewrite Hk1 in Hor.
      destruct (in_dec Nat.eq_dec (label r1) (map fst d)); [now left|].
      apply in_app_or in Hor as [Hor|[<-|[]]]; [now left|right; now left].
Qed.

(** With the names of [names], a sequence of intervals whose labels are
    named in the order of [first_seen] is numbered by appearance. *)
Lemma names_numbered (regions : list (SpeechRegion F)) :
  let keys := map fst (first_seen regions) in
  numbered_by_appearance (map (fun r => name_of (name_table keys) (label r)) regions).
Proof.
  cbv zeta. set (keys := map fst (first_seen regions)).
  destruct (first_seen_fold regions [] (NoDup_nil _)) as [Hnd Hin].
  fold (first_seen regions) in Hnd, Hin. fold keys in Hnd, Hin.
  assert (Hname : forall r, In r regions ->
             exists j, nth_error keys j = Some (label r)
                       /\ name_of (name_table keys) (label r) = participant j).
  { intros r Hr.
    assert (Hl : In (label r) keys) by (apply Hin; right; now apply in_map).
    apply (In_nth _ _ 0%nat) in Hl as (j & Hj & Hnth).
    exists j. split.
    - rewrite <- Hnth. now apply nth_error_nth'.
    - rewrite <- Hnth. apply (name_of_table_at keys 0 j Hnd Hj). }
  intros pre s post i Hsplit Hs.
  apply map_eq_app in Hsplit as (rpre & rrest & Hreg & Hpre & Hrest).
  destruct rrest as [|r rpost]; [discriminate|].
  cbn [map] in Hrest. injection Hrest as Hr Hpost.
  destruct (Hname r) as (j & Hj & Hnj).
  { rewrite Hreg. apply in_or_app. right. now left. }
  assert (j = S i) as ->.
  { apply participant_inj. now rewrite <- Hnj, Hr. }
  destruct (first_seen_order regions [] (NoDup_nil _) rpre r rpost i Hreg Hj)
    as (l' & Hl' & [[]|Hor]).
  apply in_map_iff in Hor as (r' & Hlab & Hr').
  rewrite <- Hpre. apply in_map_iff. exists r'. split; [|exact Hr'].
  destruct (Hname r') as (j' & Hj' & ->).
  { rewrite Hreg. apply in_or_app. now left. }
  f_equal.
  apply (proj1 (NoDup_nth_error _) Hnd).
  - apply nth_error_Some. congruence.
  - fold (first_seen regions) in Hl'. fold keys in Hl'. congruence.
Qed.

Lemma numbered_rev_spec (l : list string) :
  numbered_rev l -> numbered_by_appearance (List.rev l).
Proof.
  intros H pre s post i Hsplit Hs.
  assert (Hl : l = List.rev post ++ s :: List.rev pre).
  { rewrite <- (rev_involutive l), Hsplit, rev_app_distr. simpl.
    now rewrite <- app_assoc. }
  apply in_rev. clear Hsplit. revert l H Hl.
  induction (List.rev post) as [|a b IH]; intros l H ->; simpl in H.
  - apply H, Hs.
  - destruct H as [_ H]. eapply IH; [exact H|reflexivity].
Qed.

Lemma fold_assemble_numbered names (rest : list (SpeechRegion F)) :
  forall processed merged,
    numbered_by_appearance
      (map (fun r => name_of names (label r)) (processed ++ rest)) ->
    numbered_rev (map speaker merged) ->
    (forall s, In s (map speaker merged)
               <-> In s (map (fun r => name_of names (label r)) processed)) ->
    numbered_rev (map speaker (fold_left (assemble_step names) rest merged)).
Proof.
  induction rest as [|r rest IH]; intros processed merged Hnum Hm Hset;
    cbn [fold_left]; [exact Hm|].
  apply (IH (processed ++ [r])).
  - now rewrite <- app_assoc.
  - assert (Hfresh : forall i, name_of names (label r) = participant (S i) ->
                               In (participant i) (map speaker merged)).
    { intros i Hi. apply Hset.
      apply (Hnum (map (fun r => name_of names (label r)) processed)
                  (name_of names (label r))
                  (map (fun r => name_of names (label r)) rest) i);
        [|exact Hi].
      now rewrite map_app. }
    unfold assemble_step.
    destruct merged as [|prev older]; [cbn; split; [exact Hfresh|exact I]|].
    destruct (String.eqb (speaker prev) (name_of names (label r))
              && fleb (fsub (start r) (seg_end prev)) max_merge_gap).
    + exact Hm.
    + cbn [map speaker numbered_rev]. split; [exact Hfresh|exact Hm].
  - intros s. rewrite map_app, in_app_iff. cbn [map In].
    unfold assemble_step.
    destruct merged as [|prev older].
    + cbn [map In speaker]. specialize (Hset s). cbn [map In] in Hset. tauto.
    + destruct (String.eqb (speaker prev) (name_of names (label r))
                && fleb (fsub (start r) (seg_end prev)) max_merge_gap) eqn:Ht.
      * apply andb_true_iff in Ht as [Ht _]. apply String.eqb_eq in Ht.
        cbn [map In speaker]. specialize (Hset s). cbn [map In] in Hset.
        rewrite <- Ht. tauto.
      * cbn [map In speaker]. specialize (Hset s). cbn [map In] in Hset. tauto.
Qed.
End FirstSeen.

Local Open Scope R_scope.

Lemma insert_by_value_last (e : nat * R) (l : list (nat * R)) :
  Forall (fun h => snd h <= snd e) l -> insert_by_value e l = l ++ [e].
Proof.
  induction 1 as [|h l Hh _ IH]; cbn [insert_by_value app]; [reflexivity|].
  change (fltb (snd e) (snd h)) with (Rltb (snd e) (snd h)).
  rewrite (proj2 (Rltb_false _ _) Hh). now rewrite IH.
Qed.

(** Sorting a dictionary whose values already increase keeps the keys in
    insertion order. *)
Lemma sorted_keys_in_order (d : list (nat * R)) :
  StronglySorted (fun a b => snd a <= snd b) d -> sorted_keys d = map fst d.
Proof.
  intros Hs. unfold sorted_keys. f_equal.
  assert (H : forall acc,
             Forall (fun a => Forall (fun b => snd a <= snd b) d) acc ->
             fold_left (fun acc e => insert_by_value e acc) d acc = acc ++ d).
  { induction Hs as [|e d Hs IH He]; intros acc Hacc; cbn [fold_left];
      [now rewrite app_nil_r|].
    rewrite insert_by_value_last.
    - rewrite IH; [now rewrite <- app_assoc|].
      apply Forall_app. split.
      + eapply Forall_impl; [|exact Hacc]. intros a Ha. now inversion Ha.
      + constructor; [exact He|constructor].
    - eapply Forall_impl; [|exact Hacc]. intros a Ha. now inversion Ha. }
  apply (H []). constructor.
Qed.

Lemma StronglySorted_app_one {A : Type} (P : A -> A -> Prop) (l : list A) (e : A) :
  StronglySorted P l -> Forall (fun a => P a e) l -> StronglySorted P (l ++ [e]).
Proof.
  induction 1 as [|a l Hs IH Ha]; intros He; cbn [app].
  - constructor; constructor.
  - inversion He as [|? ? Hae He']; subst.
    constructor; [exact (IH He')|].
    apply Forall_app. split; [exact Ha|constructor; [exact Hae|constructor]].
Qed.

Lemma first_seen_sorted (regions : list (SpeechRegion R)) : forall d,
  ForallOrdPairs (fun a b => start a < start b) regions ->
  StronglySorted (fun a b => snd a <= snd b) d ->
  Forall (fun a => Forall (fun r => snd a <= start r) regions) d ->
  StronglySorted (fun a b => snd a <= snd b)
                 (fold_left (fun d r => setdefault d (label r) (start r)) regions d).
Proof.
  induction regions as [|r rs IH]; intros d Hp Hd Hb; cbn [fold_left]; [exact Hd|].
  inversion Hp as [|? ? Hlater Hp']; subst.
  assert (Hb' : Forall (fun a => Forall (fun r0 => snd a <= start r0) rs) d).
  { eapply Forall_impl; [|exact Hb]. intros a Ha. now inversion Ha. }
  rewrite setdefault_app.
  destruct (in_dec Nat.eq_dec (label r) (map fst d)); [now apply IH|].
  apply IH; [exact Hp'| |].
  - apply StronglySorted_app_one; [exact Hd|].
    eapply Forall_impl; [|exact Hb]. intros a Ha. now inversion Ha.
  - apply Forall_app. split; [exact Hb'|].
    constructor; [|constructor]. cbn [snd].
    eapply Forall_impl; [|exact Hlater]. intros q Hq. simpl in Hq. lra.
Qed.

Lemma assemble_numbered (regions : list (SpeechRegion R)) :
  separated_by start stop regions ->
  numbered_by_appearance (map speaker (segments (assemble regions))).
Proof.
  intros Hsep. apply starts_increasing in Hsep.
  unfold assemble. cbn [segments].
  rewrite sorted_keys_in_order.
  2:{ apply first_seen_sorted; [exact Hsep|constructor|constructor]. }
  rewrite map_rev. apply numbered_rev_spec.
  apply (fold_assemble_numbered _ regions [] []).
  - apply names_numbered.
  - exact I.
  - intros s. reflexivity.
Qed.

Section Numbering.
Context {MF : MelScale R} {SP : Spectral R} {G : Type} {RG : Generator R G}.

(** X14: over the reals, [diarize] numbers the speakers by first
    appearance: the first segment belongs to [Participant 1], and a
    segment of [Participant i + 2] comes only after a segment of
    [Participant i + 1]. *)
Theorem diarize_numbered_by_appearance (default_rng : Z -> G) (audio : list R)
        (mn mx : Z) :
  exists r : Result R,
    diarize default_rng audio mn mx = Some r
    /\ numbered_by_appearance (map speaker (segments r))
    /\ (forall g rest, segments r = g :: rest -> speaker g = "Participant 1"%string).
Proof.
  destruct (diarize_clustered default_rng audio mn mx)
    as (r & Hr & [[Hd ->]|(regions & _ & Ht & _ & ->)]);
    eexists; (split; [exact Hr|]).
  - split; [|intros g rest Hs; discriminate Hs].
    intros [|a pre] s post i Hs; discriminate Hs.
  - assert (Hsep : separated_by start stop regions).
    { apply (separated_by_map (fun g => (start g, stop g)) fst snd).
      rewrite Ht. apply detect_speech_regions_separated. }
    pose proof (assemble_numbered regions Hsep) as Hnum.
    split; [exact Hnum|].
    intros g rest Hs.
    pose proof (assemble_speaker_names regions) as Hnames.
    rewrite Hs in Hnames, Hnum.
    inversion Hnames as [|? ? (i & _ & Hi) _]; subst.
    destruct i as [|i]; [exact Hi|].
    destruct (Hnum [] (speaker g) (map speaker rest) i eq_refl Hi).
Qed.
End Numbering.

Local Close Scope R_scope.

(* ================================================================== *)
(** * The mel scale and the filterbank, over the reals *)
(* ================================================================== *)

Local Open Scope R_scope.

(** X15: the two conversions of the mel scale are inverse to each
    other: over the reals, [mel_to_hz (hz_to_mel hz) = hz] for every
    frequency above -700 Hz, and [hz_to_mel (mel_to_hz mel) = mel]. *)
Theorem mel_scale_round_trip (hz mel : R) :
  -700 < hz ->
  mel_to_hz (hz_to_mel hz) = hz /\ hz_to_mel (mel_to_hz mel) = mel.
Proof.
  intros Hhz. pose proof ln_10_pos as H10. split.
  - rewrite mel_to_hz_real, hz_to_mel_real. unfold Rpower.
    replace (2595 * (ln (1 + hz / 700) / ln 10) / 2595 * ln 10)
      with (ln (1 + hz / 700)) by (field; lra).
    rewrite exp_ln by lra. field.
  - rewrite hz_to_mel_real, mel_to_hz_real. unfold Rpower.
    replace (1 + 700 * (exp (mel / 2595 * ln 10) - 1) / 700)
      with (exp (mel / 2595 * ln 10)) by field.
    rewrite ln_exp. field. lra.
Qed.

Lemma mel_scale_round_trip_witness :
  -700 < 440
  /\ mel_to_hz (hz_to_mel 440) = 440 /\ hz_to_mel (mel_to_hz 1000) = 1000.
Proof.
  assert (H : -700 < 440) by lra.
  split; [exact H|]. exact (mel_scale_round_trip 440 1000 H).
Defined.

(** ** Filter weights *)

Lemma fb_weight_unit (num den : Z) :
  (0 <= num <= den)%Z -> (0 < den)%Z -> 0 <= fdiv (of_Z (F:=R) num) (of_Z den) <= 1.
Proof.
  intros [Hn Hnd] Hd. rewrite !of_Z_real.
  change (0 <= IZR num / IZR den <= 1).
  apply IZR_le in Hn. apply IZR_le in Hnd. apply IZR_lt in Hd.
  split.
  - apply Rmult_le_pos; [exact Hn|]. apply Rlt_le, Rinv_0_lt_compat, Hd.
  - apply Rmult_le_reg_r with (IZR den); [exact Hd|].
    unfold Rdiv. rewrite Rmult_assoc, Rinv_l by lra. lra.
Qed.

Lemma fold_opt_fb_write_unit (num den : nat -> Z) (ks : list nat) : forall row : list R,
  (forall k, In k ks -> (k < List.length row)%nat /\ (0 < den k)%Z
                        /\ (0 <= num k <= den k)%Z) ->
  Forall (fun w => 0 <= w <= 1) row ->
  exists row',
    fold_opt (fun row k => fb_write row k (num k) (den k)) ks row = Some row'
    /\ List.length row' = List.length row
    /\ Forall (fun w => 0 <= w <= 1) row'.
Proof.
  induction ks as [|k ks IH]; intros row Hks Hrow; cbn [fold_opt].
  - exists row. auto.
  - destruct (Hks k (or_introl eq_refl)) as (Hk & Hd & Hn).
    unfold fb_write at 1.
    destruct (Z.eqb_spec (den k) 0); [lia|].
    destruct (Nat.ltb_spec k (List.length row)); [|lia].
    destruct (IH (set_nth row k (fdiv (of_Z (num k)) (of_Z (den k)))))
      as (row' & Hr & Hl & Hf).
    + intros k' Hk'. rewrite set_nth_length. apply Hks. now right.
    + apply set_nth_Forall; [exact Hrow|]. now apply fb_weight_unit.
    + exists row'. split; [exact Hr|]. split; [now rewrite Hl, set_nth_length|exact Hf].
Qed.

Lemma mel_filter_row_unit (n_fft left center right : nat) :
  (left <= n_fft / 2)%nat -> (center <= n_fft / 2)%nat ->
  exists row : list R,
    mel_filter_row n_fft left center right = Some row
    /\ List.length row = (n_fft / 2 + 1)%nat
    /\ Forall (fun w => 0 <= w <= 1) row.
Proof.
  intros Hl Hc. unfold mel_filter_row.
  set (c := if center <=? left then (left + 1)%nat else center).
  set (r := Nat.min (if right <=? c then (c + 1)%nat else right) (n_fft / 2)).
  assert (Hc' : (left < c /\ c <= n_fft / 2 + 1)%nat).
  { unfold c. destruct (Nat.leb_spec center left); lia. }
  assert (Hr : (r <= n_fft / 2)%nat) by (unfold r; lia).
  assert (Hz : Forall (fun w => 0 <= w <= 1) (np_zeros (F:=R) (n_fft / 2 + 1))).
  { unfold np_zeros. apply Forall_forall. intros w Hw.
    apply repeat_spec in Hw. subst w. unfold f0. simpl. rewrite Q2R_0. lra. }
  destruct (fold_opt_fb_write_unit (fun k => Z.of_nat k - Z.of_nat left)%Z
              (fun _ => Z.of_nat c - Z.of_nat left)%Z
              (seq left (c - left)) (np_zeros (n_fft / 2 + 1)))
    as (row1 & H1 & L1 & F1); [|exact Hz|].
  { intros k Hk. apply in_seq in Hk. rewrite np_zeros_length. lia. }
  rewrite H1. rewrite np_zeros_length in L1.
  destruct (fold_opt_fb_write_unit (fun k => Z.of_nat r - Z.of_nat k)%Z
              (fun _ => Z.of_nat r - Z.of_nat c)%Z
              (seq c (r - c)) row1)
    as (row2 & H2 & L2 & F2); [|exact F1|].
  { intros k Hk. apply in_seq in Hk. rewrite L1. lia. }
  rewrite H2. exists row2. split; [reflexivity|]. split; [lia|exact F2].
Qed.

(** X16: over the reals and for any parameters, [build_mel_filterbank]
    completes without a division by zero or a write outside a row, and
    returns [n_mels] rows of [n_fft // 2 + 1] weights, each between 0
    and 1. *)
Theorem build_mel_filterbank_weights (sample_rate : Z) (n_fft n_mels : nat)
        (f_min f_max : R) :
  exists fb : list (list R),
    build_mel_filterbank sample_rate n_fft n_mels f_min f_max = Some fb
    /\ List.length fb = n_mels
    /\ Forall (fun row => List.length row = (n_fft / 2 + 1)%nat
                          /\ Forall (fun w => 0 <= w <= 1) row) fb.
Proof.
  unfold build_mel_filterbank, filterbank_of_bins.
  pose proof (mel_bins_clipped sample_rate n_fft n_mels f_min f_max) as Hb.
  set (bins := mel_bins sample_rate n_fft n_mels f_min f_max) in *.
  assert (Hnth : forall i, (nth i bins 0 <= n_fft / 2)%nat).
  { intros i. destruct (Nat.lt_ge_cases i (List.length bins)) as [Hi|Hi].
    - rewrite Forall_forall in Hb. apply Hb, nth_In, Hi.
    - rewrite nth_overflow by exact Hi. lia. }
  assert (Hgen : forall ms (fb0 : list (list R)),
    Forall (fun row => List.length row = (n_fft / 2 + 1)%nat
                       /\ Forall (fun w => 0 <= w <= 1) row) fb0 ->
    exists fb,
      fold_opt (fun fb m =>
                  match mel_filter_row n_fft (nth (m - 1) bins 0)%nat (nth m bins 0)%nat
                                       (nth (m + 1) bins 0)%nat with
                  | Some row => Some (fb ++ [row])
                  | None => None
                  end) ms fb0 = Some fb
      /\ List.length fb = (List.length fb0 + List.length ms)%nat
      /\ Forall (fun row => List.length row = (n_fft / 2 + 1)%nat
                            /\ Forall (fun w => 0 <= w <= 1) row) fb).
  { induction ms as [|m ms IH]; intros fb0 H0; cbn [fold_opt].
    - exists fb0. split; [reflexivity|]. split; [simpl; lia|exact H0].
    - destruct (mel_filter_row_unit n_fft (nth (m - 1) bins 0)%nat (nth m bins 0)%nat
                  (nth (m + 1) bins 0)%nat (Hnth _) (Hnth _)) as (row & Hr & Hlen & Hw).
      rewrite Hr.
      destruct (IH (fb0 ++ [row])) as (fb & Hf & Hl & Hall).
      { apply Forall_app. split; [exact H0|]. constructor; [|constructor]. auto. }
      exists fb. split; [exact Hf|]. split; [|exact Hall].
      rewrite Hl, length_app. simpl. lia. }
  destruct (Hgen (seq 1 n_mels) [] (Forall_nil _)) as (fb & Hf & Hl & Hall).
  exists fb. split; [exact Hf|]. split; [|exact Hall].
  rewrite Hl, length_seq. reflexivity.
Qed.

(** ** The bin edges are sorted *)

Lemma np_linspace_mono (start stop : R) (num i j : nat) :
  start <= stop -> (i <= j < num)%nat ->
  nth i (np_linspace start stop num) 0 <= nth j (np_linspace start stop num) 0.
Proof.
  intros Hle [Hij Hj].
  pose proof (np_linspace_below start stop num Hle) as Hbelow.
  assert (Hlen : List.length (np_linspace start stop num) = num)
    by (unfold np_linspace; now rewrite length_map, length_seq).
  destruct (Nat.eq_dec j (num - 1)) as [Hlast|Hmid].
  - assert (Hpj : nth j (np_linspace start stop num) 0 = stop).
    { unfold np_linspace. rewrite (nth_map_in _ (seq 0 num) j 0 0%nat)
        by (rewrite length_seq; lia).
      rewrite seq_nth by lia. cbn [Nat.add].
      destruct (Nat.eqb_spec j (num - 1)); [reflexivity|contradiction]. }
    rewrite Hpj. rewrite Forall_forall in Hbelow. apply Hbelow, nth_In. lia.
  - assert (Hp : forall k, (k < num - 1)%nat ->
               nth k (np_linspace start stop num) 0
               = INR k * ((stop - start) / INR (num - 1)) + start).
    { intros k Hk. unfold np_linspace.
      rewrite (nth_map_in _ (seq 0 num) k 0 0%nat) by (rewrite length_seq; lia).
      rewrite seq_nth by lia. cbn [Nat.add].
      destruct (Nat.eqb_spec k (num - 1)); [lia|].
      rewrite !of_nat_real. reflexivity. }
    rewrite !Hp by lia.
    assert (Hn : 0 < INR (num - 1)) by (apply lt_0_INR; lia).
    assert (Hstep : 0 <= (stop - start) / INR (num - 1)).
    { apply Rmult_le_pos; [lra|]. apply Rlt_le, Rinv_0_lt_compat, Hn. }
    apply le_INR in Hij. nra.
Qed.

Lemma mel_to_hz_mono (a b : R) : a <= b -> mel_to_hz a <= mel_to_hz b.
Proof.
  intros Hab. rewrite !mel_to_hz_real.
  assert (Rpower 10 (a / 2595) <= Rpower 10 (b / 2595)) by (apply Rle_Rpower; lra).
  lra.
Qed.

Lemma Int_part_mono (a b : R) : a <= b -> (Int_part a <= Int_part b)%Z.
Proof.
  intros Hab.
  destruct (base_Int_part a) as [Ha _]. destruct (base_Int_part b) as [_ Hb].
  assert (H : (Int_part a < Int_part b + 1)%Z).
  { apply lt_IZR. rewrite plus_IZR. lra. }
  lia.
Qed.

(** X17: over the reals, for a positive sample rate and
    [0 <= f_min <= min(f_max, sample_rate / 2 - 1)], the FFT-bin edges
    computed by [build_mel_filterbank] are [n_mels + 2] bins between 0
    and [n_fft // 2], in non-decreasing order. *)
Theorem mel_bins_sorted (sample_rate : Z) (n_fft n_mels : nat) (f_min f_max : R) :
  (0 < sample_rate)%Z -> 0 <= f_min -> f_min <= f_max ->
  f_min <= IZR sample_rate / 2 - 1 ->
  let bins := mel_bins sample_rate n_fft n_mels f_min f_max in
  List.length bins = (n_mels + 2)%nat
  /\ Forall (fun b => (b <= n_fft / 2)%nat) bins
  /\ forall i j, (i <= j < n_mels + 2)%nat -> (nth i bins 0 <= nth j bins 0)%nat.
Proof.
  intros Hsr Hmin Hmax Hny. cbv zeta.
  split; [|split; [apply mel_bins_clipped|]].
  - unfold mel_bins, np_linspace. now rewrite !length_map, length_seq.
  - intros i j Hij. unfold mel_bins.
    set (top := py_min f_max (fsub (fdiv (of_Z sample_rate) (of_Q 2)) (of_Q 1))).
    assert (Htop : f_min <= top).
    { unfold top. rewrite py_min_real, of_Z_real.
      change (f_min <= Rmin f_max (IZR sample_rate / Q2R 2 - Q2R 1)).
      replace (Q2R 2) with 2 by (unfold Q2R; simpl; field).
      replace (Q2R 1) with 1 by (unfold Q2R; simpl; field).
      apply Rmin_glb; assumption. }
    set (pts := np_linspace (hz_to_mel f_min) (hz_to_mel top) (n_mels + 2)).
    assert (Hlen : List.length pts = (n_mels + 2)%nat)
      by (unfold pts, np_linspace; now rewrite length_map, length_seq).
    assert (Hpts : nth i pts 0 <= nth j pts 0).
    { apply np_linspace_mono; [|exact Hij]. apply hz_to_mel_mono; assumption. }
    rewrite map_map.
    rewrite (nth_map_in _ pts i 0%nat 0) by lia.
    rewrite (nth_map_in _ pts j 0%nat 0) by lia.
    apply mel_to_hz_mono in Hpts.
    rewrite of_nat_real, of_Z_real.
    change (@np_floor R real_arith) with Int_part.
    change (fdiv (fmul ?a ?b) ?c) with (a * b / c).
    assert (Hs : 0 < IZR sample_rate) by (apply IZR_lt in Hsr; exact Hsr).
    assert (Hc : 0 <= INR (n_fft + 1)) by apply pos_INR.
    assert (Hv : INR (n_fft + 1) * mel_to_hz (nth i pts 0) / IZR sample_rate
                 <= INR (n_fft + 1) * mel_to_hz (nth j pts 0) / IZR sample_rate).
    { apply Rmult_le_compat_r; [apply Rlt_le, Rinv_0_lt_compat, Hs|].
      apply Rmult_le_compat_l; assumption. }
    apply Int_part_mono in Hv. lia.
Qed.

Lemma mel_bins_sorted_witness :
  let bins := mel_bins (F:=R) 16000 512 24 80 7600 in
  (0 < 16000)%Z /\ 0 <= 80 /\ 80 <= 7600 /\ 80 <= IZR 16000 / 2 - 1
  /\ List.length bins = (24 + 2)%nat
  /\ Forall (fun b => (b <= 512 / 2)%nat) bins
  /\ forall i j, (i <= j < 24 + 2)%nat -> (nth i bins 0 <= nth j bins 0)%nat.
Proof.
  cbv zeta.
  assert (H1 : (0 < 16000)%Z) by lia.
  assert (H2 : 0 <= 80) by lra.
  assert (H3 : 80 <= 7600) by lra.
  assert (H4 : 80 <= IZR 16000 / 2 - 1) by lra.
  split; [exact H1|]. split; [exact H2|]. split; [exact H3|]. split; [exact H4|].
  exact (mel_bins_sorted 16000 512 24 80 7600 H1 H2 H3 H4).
Defined.

Local Close Scope R_scope.

(* ================================================================== *)
(** * Loading: peak normalisation *)
(* ================================================================== *)

Lemma concat_keep_chunks {F : Type} (arrays : list (list F)) :
  List.concat (keep_chunks arrays) = List.concat arrays.
Proof.
  unfold keep_chunks. induction arrays as [|a arrays IH]; [reflexivity|].
  cbn [filter]. destruct a as [|v a]; cbn [List.length Nat.eqb negb List.concat app].
  - exact IH.
  - now rewrite IH.
Qed.

Lemma concat_map_keep_chunks {F : Type} (decoded : list (list (list F))) :
  List.concat (List.concat (map keep_chunks decoded)) = List.concat (List.concat decoded).
Proof.
  induction decoded as [|d decoded IH]; [reflexivity|].
  cbn [map List.concat]. rewrite !concat_app, concat_keep_chunks, IH. reflexivity.
Qed.

Local Open Scope R_scope.

Lemma fold_Rmax_spec (rest : list R) : forall v,
  (forall w, In w (v :: rest) -> w <= fold_left Rmax rest v)
  /\ In (fold_left Rmax rest v) (v :: rest).
Proof.
  induction rest as [|a rest IH]; intros v; cbn [fold_left].
  - split; [intros w [<-|[]]; lra|now left].
  - destruct (IH (Rmax v a)) as [Hle Hin]. split.
    + intros w [Hw|[Hw|Hw]].
      * rewrite <- Hw.
        apply Rle_trans with (Rmax v a); [apply Rmax_l|apply Hle; now left].
      * rewrite <- Hw.
        apply Rle_trans with (Rmax v a); [apply Rmax_r|apply Hle; now left].
      * apply Hle. now right.
    + destruct Hin as [Hin|Hin]; [|right; now right].
      rewrite <- Hin.
      destruct (Rmax_case v a (fun m => m = v \/ m = a)) as [E|E]; auto;
        rewrite E; [now left|right; now left].
Qed.

(** The peak of a non-empty signal bounds every sample and is attained. *)
Lemma peak_spec (audio : list R) :
  audio <> [] ->
  let peak := np_max (map np_abs audio) in
  Forall (fun v => Rabs v <= peak) audio /\ Exists (fun v => Rabs v = peak) audio.
Proof.
  destruct audio as [|a audio]; [congruence|]. intros _. cbv zeta.
  cbn [map np_max real_absmax np_abs].
  destruct (fold_Rmax_spec (map Rabs audio) (Rabs a)) as [Hle Hin].
  split.
  - apply Forall_forall. intros v Hv. apply Hle.
    change (In (Rabs v) (map Rabs (a :: audio))). now apply in_map.
  - apply Exists_exists.
    change (In (fold_left Rmax (map Rabs audio) (Rabs a)) (map Rabs (a :: audio))) in Hin.
    apply in_map_iff in Hin as (v & Hv & Hin). eauto.
Qed.

Lemma normalize_peak_spec (audio : list R) :
  List.length (normalize_peak audio) = List.length audio
  /\ Forall (fun v => Rabs v <= 1) (normalize_peak audio)
  /\ (Exists (fun v => 1 / 1000000 < Rabs v) audio ->
      Exists (fun v => Rabs v = 1) (normalize_peak audio)
      /\ exists peak, 0 < peak /\ normalize_peak audio = map (fun v => v / peak) audio)
  /\ (~ Exists (fun v => 1 / 1000000 < Rabs v) audio -> normalize_peak audio = audio).
Proof.
  assert (H6 : Q2R 1e-6 = 1 / 1000000) by (unfold Q2R; simpl; field).
  unfold normalize_peak.
  destruct audio as [|a audio].
  - change (fltb (of_Q 1e-6) f0) with (Rltb (Q2R 1e-6) (Q2R 0)).
    rewrite (proj2 (Rltb_false _ _)) by (rewrite H6, Q2R_0; lra).
    split; [reflexivity|]. split; [constructor|]. split; [|reflexivity].
    intros H. inversion H.
  - set (au := a :: audio).
    destruct (peak_spec au) as [Hle Hex]; [discriminate|]. cbv zeta in Hle, Hex.
    set (peak := np_max (map np_abs au)) in *.
    change (fltb (of_Q 1e-6) peak) with (Rltb (Q2R 1e-6) peak).
    destruct (Rltb (Q2R 1e-6) peak) eqn:Hp.
    + apply Rltb_true in Hp. rewrite H6 in Hp.
      assert (Hpos : 0 < peak) by lra.
      assert (Habs : forall v, Rabs (v / peak) = Rabs v / peak).
      { intros v. unfold Rdiv. rewrite Rabs_mult, (Rabs_right (/ peak)); [reflexivity|].
        apply Rle_ge, Rlt_le, Rinv_0_lt_compat, Hpos. }
      split; [apply length_map|]. split; [|split].
      * apply Forall_map. eapply Forall_impl; [|exact Hle].
        intros v Hv. cbv beta in Hv |- *. change (fdiv v peak) with (v / peak).
        rewrite Habs.
        apply Rmult_le_reg_r with peak; [exact Hpos|].
        unfold Rdiv. rewrite Rmult_assoc, Rinv_l by lra. lra.
      * intros _. split; [|exists peak; split; [exact Hpos|reflexivity]].
        apply Exists_exists in Hex as (v & Hv & Hvp).
        apply Exists_exists. exists (v / peak). split.
        -- apply in_map_iff. exists v. split; [reflexivity|exact Hv].
        -- rewrite Habs, Hvp. field. lra.
      * intros Hno. exfalso. apply Hno.
        apply Exists_exists in Hex as (v & Hv & Hvp).
        apply Exists_exists. exists v. split; [exact Hv|lra].
    + apply Rltb_false in Hp. rewrite H6 in Hp.
      split; [reflexivity|]. split; [|split; [|reflexivity]].
      * eapply Forall_impl; [|exact Hle]. intros v Hv. cbv beta in Hv. lra.
      * intros Hex'. exfalso.
        apply Exists_exists in Hex' as (v & Hv & Hvp).
        rewrite Forall_forall in Hle. specialize (Hle v Hv). cbv beta in Hle. lra.
Qed.

(** X18: [load_audio_mono_16k] always reports 16000 Hz.  Over the
    reals, the samples it returns are the decoded samples (the arrays of
    every frame, then those of the flush, concatenated) divided by their
    peak when the peak exceeds 1e-6, and unchanged otherwise: as many as
    were decoded, all within [-1, 1], and of peak exactly 1 when the
    decoded peak exceeds 1e-6. *)
Theorem load_audio_mono_16k_normalised
        (stream : option (list (list (list R)) * list (list R))) :
  let raw := match stream with
             | None => []
             | Some (decoded, flushed) => List.concat (List.concat decoded ++ flushed)
             end in
  let audio := fst (load_audio_mono_16k stream) in
  snd (load_audio_mono_16k stream) = 16000%Z
  /\ List.length audio = List.length raw
  /\ Forall (fun v => Rabs v <= 1) audio
  /\ (Exists (fun v => 1 / 1000000 < Rabs v) raw ->
      Exists (fun v => Rabs v = 1) audio
      /\ exists peak, 0 < peak /\ audio = map (fun v => v / peak) raw)
  /\ (~ Exists (fun v => 1 / 1000000 < Rabs v) raw -> audio = raw).
Proof.
  cbv zeta.
  destruct stream as [[decoded flushed]|]; cbn [load_audio_mono_16k].
  - remember (List.concat (map keep_chunks decoded) ++ keep_chunks flushed) as chunks
      eqn:Hc.
    assert (Hraw : List.concat chunks = List.concat (List.concat decoded ++ flushed)).
    { rewrite Hc. now rewrite !concat_app, concat_map_keep_chunks, concat_keep_chunks. }
    rewrite <- Hraw. clear Hc Hraw.
    destruct chunks as [|c chunks].
    + cbn [fst snd List.concat np_zeros repeat].
      split; [reflexivity|]. split; [reflexivity|]. split; [constructor|].
      split; [intros H; inversion H|reflexivity].
    + cbn [fst snd]. split; [reflexivity|]. apply normalize_peak_spec.
  - cbn [fst snd np_zeros repeat].
    split; [reflexivity|]. split; [reflexivity|]. split; [constructor|].
    split; [intros H; inversion H|reflexivity].
Qed.

Local Close Scope R_scope.

(** The loader runs in binary64: two samples of peak 2 are halved. *)
Example load_audio_binary64 :
  load_audio_mono_16k (Some ([[[0.5; -2]; []]; []], [[]]))%float
  = ([0.25; -1]%float, 16000%Z).
Proof. vm_compute. reflexivity. Qed.

(* ================================================================== *)
(** * Durations and gaps of the segments, over the reals *)
(* ================================================================== *)

Local Open Scope R_scope.

Lemma fold_assemble_durations names (regions : list (SpeechRegion R)) : forall merged,
  Forall (fun r => 65 / 100 <= stop r - start r) regions ->
  adjacent (fun a b => 35 / 100 < start b - stop a) regions ->
  Forall (fun g => 65 / 100 <= seg_end g - seg_start g) merged ->
  adjacent (fun newer older => 35 / 100 < seg_start newer - seg_end older) merged ->
  (forall h older r rs, merged = h :: older -> regions = r :: rs ->
                        35 / 100 < start r - seg_end h) ->
  Forall (fun g => 65 / 100 <= seg_end g - seg_start g)
         (fold_left (assemble_step names) regions merged)
  /\ adjacent (fun newer older => 35 / 100 < seg_start newer - seg_end older)
              (fold_left (assemble_step names) regions merged).
Proof.
  induction regions as [|r rs IH]; intros merged Hd Hg Hm Ha Hh;
    cbn [fold_left]; [auto|].
  inversion Hd as [|? ? Hr Hd']; subst.
  assert (Hg' : adjacent (fun a b => 35 / 100 < start b - stop a) rs)
    by (eapply adjacent_tail, Hg).
  assert (Hnext : forall r2 rs2, rs = r2 :: rs2 -> 35 / 100 < start r2 - stop r).
  { intros r2 rs2 ->. apply (Hg [] r r2 rs2 eq_refl). }
  rewrite assemble_step_real. cbv zeta.
  destruct merged as [|prev older].
  - apply IH; [exact Hd'|exact Hg'| | |].
    + constructor; [exact Hr|constructor].
    + apply adjacent_one.
    + intros h older r2 rs2 Hm' Hrs. inversion Hm'; subst. cbn [seg_end].
      now apply (Hnext r2 rs2).
  - pose proof (Hh prev older r rs eq_refl eq_refl) as Hgap.
    inversion Hm as [|? ? Hpv Hm']; subst.
    assert (Hmax : Rmax (seg_end prev) (stop r) = stop r) by (apply Rmax_right; lra).
    destruct (String.eqb (speaker prev) (name_of names (label r))
              && Rleb (start r - seg_end prev) (45 / 100)).
    + apply IH; [exact Hd'|exact Hg'| | |].
      * constructor; [|exact Hm']. cbn [seg_start seg_end]. rewrite Hmax. lra.
      * destruct older as [|o older']; [apply adjacent_one|].
        apply adjacent_cons; [|eapply adjacent_tail, Ha].
        apply (Ha [] prev o older' eq_refl).
      * intros h older0 r2 rs2 Hm0 Hrs. inversion Hm0; subst. cbn [seg_end].
        rewrite Hmax. now apply (Hnext r2 rs2).
    + apply IH; [exact Hd'|exact Hg'| | |].
      * constructor; [exact Hr|exact Hm].
      * apply adjacent_cons; [exact Hgap|exact Ha].
      * intros h older0 r2 rs2 Hm0 Hrs. inversion Hm0; subst. cbn [seg_end].
        now apply (Hnext r2 rs2).
Qed.

Section SegmentDurations.
Context {MF : MelScale R} {SP : Spectral R} {G : Type} {RG : Generator R G}.

(** X19: over the reals, every segment returned by [diarize] lasts at
    least 0.65 s, and between the end of a segment and the start of the
    next there are more than 0.35 s. *)
Theorem diarize_segment_durations (default_rng : Z -> G) (audio : list R) (mn mx : Z) :
  exists r : Result R,
    diarize default_rng audio mn mx = Some r
    /\ Forall (fun g => 65 / 100 <= seg_end g - seg_start g) (segments r)
    /\ adjacent (fun p q => 35 / 100 < seg_start q - seg_end p) (segments r).
Proof.
  destruct (diarize_clustered default_rng audio mn mx)
    as (r & Hr & [[Hd ->]|(regions & _ & Ht & _ & ->)]);
    eexists; (split; [exact Hr|]).
  - split; [constructor|apply adjacent_nil].
  - destruct (merge_regions_durations audio) as [Hdur Hgap].
    rewrite <- Ht in Hdur, Hgap.
    rewrite Forall_map in Hdur. cbn [fst snd] in Hdur.
    apply adjacent_map in Hgap. cbn [fst snd] in Hgap.
    destruct (fold_assemble_durations
                (name_table (sorted_keys (first_seen regions))) regions []
                Hdur Hgap) as [Hv Ha].
    + constructor.
    + apply adjacent_nil.
    + discriminate.
    + unfold assemble. cbn [segments].
      split; [apply Forall_rev, Hv|apply adjacent_rev, Ha].
Qed.
End SegmentDurations.

Local Close Scope R_scope.

(* ================================================================== *)
(** * What is never detected as speech *)
(* ================================================================== *)

Section NoSpeech.
Context {F : Type} {AF : Arith F}.

Lemma In_slice (l : list F) lo hi v : In v (slice l lo hi) -> In v l.
Proof.
  unfold slice. intros H. apply In_firstn_elim in H.
  revert l H. induction lo as [|lo IH]; intros [|a l] H; cbn [skipn] in H; auto.
  right. now apply IH.
Qed.

(** A sample of a frame is a sample of the signal, or a padding zero. *)
Lemma frame_samples (audio : list F) frame_size hop fr v :
  In fr (frame_audio audio frame_size hop) -> In v fr ->
  In v audio \/ (List.length audio < frame_size /\ v = f0).
Proof.
  intros Hfr Hv.
  destruct audio as [|a audio]; [destruct Hfr|].
  rewrite frame_audio_padded in Hfr by discriminate.
  apply in_map_iff in Hfr as (i & <- & _).
  apply In_slice in Hv. unfold padded in Hv.
  apply in_app_or in Hv as [Hv|Hv]; [now left|right].
  unfold np_zeros in Hv. split; [|now apply repeat_spec in Hv].
  destruct (frame_size - List.length (a :: audio)) eqn:E; [destruct Hv|lia].
Qed.

Lemma frame_sizes (audio : list F) frame_size hop fr :
  In fr (frame_audio audio frame_size hop) -> List.length fr = frame_size.
Proof.
  intros Hfr.
  destruct audio as [|a audio]; [destruct Hfr|].
  assert (Hne : a :: audio <> []) by discriminate.
  pose proof (frame_audio_count (a :: audio) frame_size hop Hne) as Hcount.
  rewrite frame_audio_padded in Hfr, Hcount by exact Hne.
  rewrite length_map, length_seq in Hcount.
  apply in_map_iff in Hfr as (i & <- & Hi). apply in_seq in Hi.
  rewrite Hcount in Hi.
  rewrite slice_length; [lia|].
  rewrite padded_length. apply frame_fits. lia.
Qed.

(** A mask without an active frame yields no interval. *)
Lemma inactive_mask_no_regions (mask : list bool) :
  (forall j, nth j mask false = false) ->
  merge_regions (scan_regions (F:=F) (fill_holes mask) 0 None []) = [].
Proof.
  intros Hoff.
  assert (Hfill : forall j, nth j (fill_holes mask) false = false).
  { intros j. destruct (nth j (fill_holes mask) false) eqn:E; [|reflexivity].
    apply fill_holes_cases in E as [E|(Hlo & Hhi & Hiso)]; [now rewrite Hoff in E|].
    apply isolated_hole_spec in Hiso as (_ & Hb & _); [|exact Hlo|exact Hhi].
    specialize (Hb (j - 1)). unfold hole in *. rewrite Hoff in Hb.
    assert (false = true) by (apply Hb; lia). discriminate. }
  destruct (scan_regions_cover (F:=F) (fill_holes mask) 0 None [] I)
    as (runs & -> & Hc & Hf & _).
  destruct runs as [|p runs]; [reflexivity|exfalso].
  inversion Hf as [|? ? Hp _]; subst.
  destruct (proj1 (Hc (fst p))) as [[]|[_ Hn]].
  - exists p. split; [now left|lia].
  - rewrite Hfill in Hn. discriminate.
Qed.

Lemma no_active_frame_no_speech (audio : list F) :
  Forall (fun b => b = false) (speech_mask (frame_audio audio vad_frame_size hop_size)) ->
  detect_speech_regions audio = [].
Proof.
  intros Hoff. unfold detect_speech_regions.
  destruct (frame_audio audio vad_frame_size hop_size) as [|fr frames]; [reflexivity|].
  apply inactive_mask_no_regions. intros j.
  destruct (Nat.lt_ge_cases j (List.length (speech_mask (fr :: frames)))) as [Hj|Hj].
  - rewrite Forall_forall in Hoff. apply Hoff, nth_In, Hj.
  - now apply nth_overflow.
Qed.
End NoSpeech.

Local Open Scope R_scope.

Lemma Rsum_le_const (c : R) (l : list R) :
  Forall (fun v => v <= c) l -> Rsum l <= c * INR (List.length l).
Proof.
  induction 1 as [|a l Ha _ IH].
  - unfold Rsum. simpl. lra.
  - rewrite Rsum_cons. change (List.length (a :: l)) with (S (List.length l)).
    rewrite S_INR. lra.
Qed.

Lemma np_mean_le_const (c : R) (l : list R) :
  0 <= c -> Forall (fun v => v <= c) l -> np_mean l <= c.
Proof.
  intros Hc H. unfold np_mean. rewrite of_nat_real.
  change (Rsum l / INR (List.length l) <= c).
  destruct l as [|a l].
  - unfold Rsum, Rdiv. simpl. lra.
  - apply Rsum_le_const in H.
    assert (Hn : 0 < INR (List.length (a :: l))) by (apply lt_0_INR; simpl; lia).
    apply Rmult_le_reg_r with (INR (List.length (a :: l))); [exact Hn|].
    unfold Rdiv. rewrite Rmult_assoc, Rinv_l by lra. lra.
Qed.

(** The activity threshold is at least 0.015 and at least 2.2 times the
    noise floor. *)
Lemma speech_mask_real (frames : list (list R)) :
  let rms := map (fun fr => R_sqrt.sqrt (np_mean (map sq fr) + 1 / 10000000000)) frames in
  speech_mask frames
  = map (fun r => Rltb (Rmax (np_percentile rms 20 * (22 / 10)) (15 / 1000)) r) rms.
Proof.
  cbv zeta. unfold speech_mask. rewrite py_max_real.
  assert (H10 : Q2R 1e-10 = 1 / 10000000000) by (unfold Q2R; simpl; field).
  assert (H22 : Q2R 2.2 = 22 / 10) by (unfold Q2R; simpl; field).
  assert (H15 : Q2R 0.015 = 15 / 1000) by (unfold Q2R; simpl; field).
  change (of_Q (Arith:=real_arith) 1e-10) with (Q2R 1e-10).
  change (of_Q (Arith:=real_arith) 2.2) with (Q2R 2.2).
  change (of_Q (Arith:=real_arith) 0.015) with (Q2R 0.015).
  rewrite H10, H22, H15. reflexivity.
Qed.

Section Quiet.
Context {MF : MelScale R} {SP : Spectral R} {G : Type} {RG : Generator R G}.

Lemma no_speech_empty_result (default_rng : Z -> G) (audio : list R) (mn mx : Z) :
  detect_speech_regions audio = [] ->
  diarize default_rng audio mn mx = Some empty_result.
Proof.
  intros Hd.
  destruct (diarize_clustered default_rng audio mn mx)
    as (r & Hr & [[_ ->]|(regions & Hne & _)]); [exact Hr|contradiction].
Qed.

(** X20: over the reals, a signal whose samples all stay within
    0.0149 in absolute value contains no speech: no interval is
    detected and [diarize] returns the empty result. *)
Theorem quiet_audio_no_speech (default_rng : Z -> G) (audio : list R) (mn mx : Z) :
  Forall (fun v => Rabs v <= 149 / 10000) audio ->
  detect_speech_regions audio = []
  /\ diarize default_rng audio mn mx = Some empty_result.
Proof.
  intros Hq.
  assert (Hd : detect_speech_regions audio = []).
  { apply no_active_frame_no_speech.
    rewrite speech_mask_real. cbv zeta.
    apply Forall_map, Forall_map, Forall_forall. intros fr Hfr.
    apply Rltb_false.
    apply Rle_trans with (15 / 1000); [|apply Rmax_r].
    assert (Hm : np_mean (map sq fr) <= (149 / 10000) * (149 / 10000)).
    { apply np_mean_le_const; [lra|].
      apply Forall_map, Forall_forall. intros v Hv.
      assert (Hv' : Rabs v <= 149 / 10000).
      { destruct (frame_samples audio vad_frame_size hop_size fr v Hfr Hv) as [Hin|[_ ->]].
        - rewrite Forall_forall in Hq. now apply Hq.
        - unfold f0. simpl. rewrite Q2R_0, Rabs_R0. lra. }
      change (sq v) with (v * v).
      unfold Rabs in Hv'. destruct (Rcase_abs v); nra. }
    rewrite <- (sqrt_square (15 / 1000)) by lra.
    apply sqrt_le_1_alt. lra. }
  split; [exact Hd|]. now apply no_speech_empty_result.
Qed.
End Quiet.

Lemma quiet_audio_no_speech_witness :
  Forall (fun v => Rabs v <= 149 / 10000) [0; 1 / 100]
  /\ detect_speech_regions [0; 1 / 100] = []
  /\ diarize (G:=nat) Z.to_nat [0; 1 / 100] 1 4 = Some empty_result.
Proof.
  assert (H : Forall (fun v => Rabs v <= 149 / 10000) [0; 1 / 100]).
  { repeat constructor.
    - rewrite Rabs_R0. lra.
    - rewrite Rabs_right; lra. }
  split; [exact H|].
  exact (quiet_audio_no_speech (G:=nat) Z.to_nat [0; 1 / 100] 1 4 H).
Defined.

(** ** A signal of constant level *)

Lemma insert_asc_constant (c : R) (l : list R) :
  Forall (fun v => v = c) l -> insert_asc Rleb c l = c :: l.
Proof.
  intros H. destruct H as [|a l Ha _]; [reflexivity|].
  cbn [insert_asc]. subst a.
  now rewrite (proj2 (Rleb_true c c) (Rle_refl c)).
Qed.

Lemma sort_constant (c : R) (l : list R) :
  Forall (fun v => v = c) l -> fold_right (insert_asc Rleb) [] l = l.
Proof.
  induction 1 as [|a l Ha Hl IH]; [reflexivity|].
  cbn [fold_right]. rewrite IH. subst a. now apply insert_asc_constant.
Qed.

Lemma percentile_index (n : nat) :
  (Z.to_nat (Qfloor (inject_Z (Z.of_nat (n - 1)) * 20 / 100)) <= n - 1)%nat.
Proof.
  assert (H : (Qfloor (inject_Z (Z.of_nat (n - 1)) * 20 / 100) <= Z.of_nat (n - 1))%Z).
  { rewrite <- (Qfloor_Z (Z.of_nat (n - 1))). apply Qfloor_resp_le.
    unfold Qle, Qdiv, Qmult, Qinv, inject_Z. simpl.
    rewrite ?Z.div_1_r.
    set (m := Z.of_nat (n - 1)). assert (0 <= m)%Z by lia. lia. }
  lia.
Qed.

(** The percentile of a constant list is the constant. *)
Lemma percentile_constant (c : R) (l : list R) :
  l <> [] -> Forall (fun v => v = c) l -> np_percentile l 20 = c.
Proof.
  intros Hne Hc.
  change (np_percentile l 20) with (percentile_with Rleb Rplus Rminus Rmult Q2R l 20).
  unfold percentile_with. rewrite (sort_constant c l Hc).
  pose proof (percentile_index (List.length l)) as Hj.
  set (j := Z.to_nat (Qfloor (inject_Z (Z.of_nat (List.length l - 1)) * 20 / 100))) in *.
  assert (Hlen : (0 < List.length l)%nat) by (destruct l; [congruence|simpl; lia]).
  assert (Hnth : forall k, (k < List.length l)%nat -> nth k l (Q2R 0) = c).
  { intros k Hk. rewrite Forall_forall in Hc. apply Hc, nth_In, Hk. }
  rewrite !Hnth by lia. ring.
Qed.

Lemma Rsum_constant (c : R) (l : list R) :
  Forall (fun v => v = c) l -> Rsum l = c * INR (List.length l).
Proof.
  induction 1 as [|a l Ha _ IH].
  - unfold Rsum. simpl. lra.
  - change (List.length (a :: l)) with (S (List.length l)).
    rewrite Rsum_cons, IH, Ha, S_INR. ring.
Qed.

Section ConstantLevel.
Context {MF : MelScale R} {SP : Spectral R} {G : Type} {RG : Generator R G}.

(** X21: over the reals, a signal of at least one frame (480 samples)
    whose samples all have the same absolute value, however large,
    contains no speech: every frame has the same energy, the noise floor
    is that energy, and no frame exceeds 2.2 times the floor. *)
Theorem constant_level_no_speech (default_rng : Z -> G) (audio : list R) (a : R)
        (mn mx : Z) :
  (vad_frame_size <= List.length audio)%nat ->
  Forall (fun v => Rabs v = a) audio ->
  detect_speech_regions audio = []
  /\ diarize default_rng audio mn mx = Some empty_result.
Proof.
  intros Hlen Ha.
  assert (Hd : detect_speech_regions audio = []).
  { apply no_active_frame_no_speech.
    rewrite speech_mask_real. cbv zeta.
    set (frames := frame_audio audio vad_frame_size hop_size).
    set (rho := R_sqrt.sqrt (a * a + 1 / 10000000000)).
    assert (Hrms : Forall (fun v => v = rho)
                     (map (fun fr => R_sqrt.sqrt (np_mean (map sq fr) + 1 / 10000000000))
                          frames)).
    { apply Forall_map, Forall_forall. intros fr Hfr. unfold rho. do 2 f_equal.
      assert (Hsq : Forall (fun v => v = a * a) (map sq fr)).
      { apply Forall_map, Forall_forall. intros v Hv.
        destruct (frame_samples audio vad_frame_size hop_size fr v Hfr Hv) as [Hin|[Hs _]];
          [|lia].
        rewrite Forall_forall in Ha. specialize (Ha v Hin).
        change (sq v) with (v * v). rewrite <- Ha.
        unfold Rabs. destruct (Rcase_abs v); ring. }
      unfold np_mean. rewrite of_nat_real.
      change (Rsum (map sq fr) / INR (List.length (map sq fr)) = a * a).
      rewrite (Rsum_constant _ _ Hsq), length_map.
      rewrite (frame_sizes audio vad_frame_size hop_size fr Hfr).
      field. apply not_0_INR. discriminate. }
    clearbody frames. destruct frames as [|fr frames']; [constructor|].
    rewrite (percentile_constant rho) by (exact Hrms || discriminate).
    apply Forall_map. eapply Forall_impl; [|exact Hrms].
    intros v ->. apply Rltb_false.
    assert (0 <= rho) by apply sqrt_pos.
    apply Rle_trans with (rho * (22 / 10)); [lra|apply Rmax_l]. }
  split; [exact Hd|]. now apply no_speech_empty_result.
Qed.
End ConstantLevel.

Lemma constant_level_no_speech_witness :
  (vad_frame_size <= List.length (repeat 1 vad_frame_size))%nat
  /\ Forall (fun v => Rabs v = 1) (repeat 1 vad_frame_size)
  /\ detect_speech_regions (repeat 1 vad_frame_size) = []
  /\ diarize (G:=nat) Z.to_nat (repeat 1 vad_frame_size) 1 4 = Some empty_result.
Proof.
  assert (Hl : (vad_frame_size <= List.length (repeat 1 vad_frame_size))%nat)
    by (rewrite repeat_length; lia).
  assert (Ha : Forall (fun v => Rabs v = 1) (repeat 1 vad_frame_size)).
  { apply Forall_forall. intros v Hv. apply repeat_spec in Hv. subst v.
    apply Rabs_R1. }
  split; [exact Hl|]. split; [exact Ha|].
  exact (constant_level_no_speech (G:=nat) Z.to_nat (repeat 1 vad_frame_size) 1 1 4 Hl Ha).
Defined.

Local Close Scope R_scope.

(* ================================================================== *)
(** * Embeddings of the detected intervals, over the reals *)
(* ================================================================== *)

Local Open Scope R_scope.

Lemma Rtrunc_INR (n : nat) : Rtrunc (INR n) = Z.of_nat n.
Proof.
  unfold Rtrunc. destruct (Rle_dec 0 (INR n)) as [_|Hn].
  - apply Int_part_INR.
  - exfalso. apply Hn, pos_INR.
Qed.

(** The detected intervals start and end on the frame grid, inside the
    signal. *)
Lemma detect_speech_regions_grid (audio : list R) :
  Forall (fun r => (exists st, fst r = INR st / 100)
                   /\ (exists en, snd r = INR en / 100 + 3 / 100
                                  /\ (en * hop_size + vad_frame_size
                                      <= Nat.max (List.length audio) vad_frame_size)%nat))
         (detect_speech_regions audio).
Proof.
  unfold detect_speech_regions.
  destruct audio as [|a audio]; [constructor|].
  set (au := a :: audio).
  assert (Hne : au <> []) by discriminate.
  pose proof (frame_audio_count au vad_frame_size hop_size Hne) as Hcount.
  destruct (frame_audio au vad_frame_size hop_size) as [|fr frames] eqn:Hfr; [constructor|].
  set (mask := fill_holes (speech_mask (fr :: frames))).
  assert (Hmask : List.length mask = List.length (fr :: frames)).
  { subst mask. now rewrite fill_holes_length, speech_mask_length. }
  destruct (scan_regions_cover (F:=R) mask 0 None [] I) as (runs & -> & _ & Hf & _).
  simpl app. unfold merge_regions. apply Forall_rev.
  apply (merge_fold_times
           (fun s => exists st, s = INR st / 100)
           (fun e => exists en, e = INR en / 100 + 3 / 100
                                /\ (en * hop_size + vad_frame_size
                                    <= Nat.max (List.length au) vad_frame_size)%nat));
    [|constructor].
  apply Forall_map. eapply Forall_impl; [|exact Hf].
  intros [st en] Hp. cbn [fst snd] in Hp.
  rewrite region_start_real, region_stop_real. cbn [fst snd].
  split; [exists st; reflexivity|]. exists en. split; [reflexivity|].
  apply frame_fits. rewrite <- Hcount, <- Hmask. cbn [Nat.add] in Hp.
  assert (List.length mask <> 0%nat) by (rewrite Hmask; discriminate). lia.
Qed.

(** The samples of a detected interval. *)
Lemma detected_chunk_length (audio : list R) (st en : nat) :
  (st <= en)%nat ->
  (en * hop_size + vad_frame_size <= List.length audio)%nat ->
  List.length (chunk_of audio (INR st / 100) (INR en / 100 + 3 / 100))
  = (en * hop_size + vad_frame_size - st * hop_size)%nat.
Proof.
  intros Hle Hfit. unfold chunk_of, py_slice.
  change (fmul ?a ?b) with (a * b). rewrite sr_real.
  change (@int_trunc R real_arith) with Rtrunc.
  assert (Hh : INR hop_size = 160)
    by (unfold hop_size; rewrite (INR_IZR_INZ 160); reflexivity).
  assert (Hv : INR vad_frame_size = 480)
    by (unfold vad_frame_size; rewrite (INR_IZR_INZ 480); reflexivity).
  replace (INR st / 100 * 16000) with (INR (st * hop_size))
    by (rewrite mult_INR, Hh; field).
  replace ((INR en / 100 + 3 / 100) * 16000) with (INR (en * hop_size + vad_frame_size))
    by (rewrite plus_INR, mult_INR, Hh, Hv; field).
  rewrite !Rtrunc_INR.
  set (lo := (st * hop_size)%nat). set (hi := (en * hop_size + vad_frame_size)%nat) in *.
  destruct (Z.ltb_spec (Z.min (Z.of_nat (List.length audio)) (Z.of_nat hi)) 0); [lia|].
  replace (Z.to_nat (Z.max 0 (Z.of_nat lo))) with lo by lia.
  replace (Z.to_nat (Z.min (Z.min (Z.of_nat (List.length audio)) (Z.of_nat hi))
                           (Z.of_nat (List.length audio)))) with hi by lia.
  apply slice_length. exact Hfit.
Qed.

Section DetectedEmbeddings.
Context {SP : Spectral R}.

(** With at least 0.4 s of samples the embedding is a unit vector. *)
Lemma extract_embedding_unit (audio : list R) (start_s end_s : R)
      (mel_fb dct : list (list R)) :
  0 <= end_s ->
  (min_chunk <= List.length (chunk_of audio start_s end_s))%nat ->
  l2_norm (extract_embedding audio start_s end_s mel_fb dct) = 1.
Proof.
  intros Hend Hlong. unfold extract_embedding.
  set (chunk := chunk_of audio start_s end_s) in *.
  destruct (Nat.ltb_spec (List.length chunk) min_chunk) as [Hshort|_]; [lia|].
  assert (Hfr : (2 <= List.length (frame_audio chunk emb_frame_size hop_size))%nat).
  { rewrite frame_audio_length; unfold emb_frame_size, hop_size, min_chunk in *; try lia.
    assert ((1 <= (List.length chunk - 400) / 160)%nat); [|lia].
    apply Nat.div_le_lower_bound; lia. }
  destruct (Nat.ltb_spec (List.length (frame_audio chunk emb_frame_size hop_size)) 2);
    [lia|].
  set (feature := raw_feature chunk start_s end_s mel_fb dct).
  pose proof (chunk_duration audio start_s end_s Hend Hlong) as Hdur.
  assert (Hnorm : 6399 / 16000 < l2_norm feature).
  { apply Rlt_le_trans with (end_s - start_s); [exact Hdur|].
    apply l2_norm_ge; [apply raw_feature_duration|lra]. }
  assert (Hlit : Q2R 1e-8 < 6399 / 16000) by (unfold Q2R; simpl; lra).
  change (fltb (of_Q 1e-8) (l2_norm feature)) with (Rltb (Q2R 1e-8) (l2_norm feature)).
  destruct (Rltb (Q2R 1e-8) (l2_norm feature)) eqn:Hcmp.
  2:{ apply Rltb_false in Hcmp. lra. }
  change (map (fun v => fdiv v (l2_norm feature)) feature)
    with (map (fun a => a / l2_norm feature) feature).
  apply l2_norm_normalised. lra.
Qed.

(** X22: over the reals, every interval returned by
    [detect_speech_regions] selects at least 65 hops (10400 samples, 0.65 s) of
    the signal, so that [extract_embedding] never falls back to the zero
    vector on a detected interval: the embedding has L2 norm 1. *)
Theorem detected_embeddings_unit (audio : list R) (mel_fb dct : list (list R)) :
  Forall (fun se => (65 * hop_size <= List.length (chunk_of audio (fst se) (snd se)))%nat
                    /\ l2_norm (extract_embedding audio (fst se) (snd se) mel_fb dct) = 1)
         (detect_speech_regions audio).
Proof.
  destruct (merge_regions_durations audio) as [Hdur _].
  pose proof (detect_speech_regions_grid audio) as Hgrid.
  rewrite Forall_forall in *. intros [s e] Hin. cbn [fst snd].
  specialize (Hdur _ Hin). cbn [fst snd] in Hdur.
  destruct (Hgrid _ Hin) as [(st & Hs) (en & He & Hfit)]. cbn [fst snd] in Hs, He.
  subst s e.
  assert (Hsteps : (st + 62 <= en)%nat).
  { apply INR_le. rewrite plus_INR.
    replace (INR 62) with 62 by (rewrite (INR_IZR_INZ 62); reflexivity). lra. }
  assert (Hlen : (vad_frame_size <= List.length audio)%nat).
  { unfold hop_size, vad_frame_size in *. lia. }
  assert (Hfit' : (en * hop_size + vad_frame_size <= List.length audio)%nat) by lia.
  assert (Hchunk : (65 * hop_size
                    <= List.length (chunk_of audio (INR st / 100)%R
                                             (INR en / 100 + 3 / 100)%R))%nat).
  { rewrite detected_chunk_length by (exact Hfit' || lia).
    unfold hop_size, vad_frame_size. lia. }
  split; [exact Hchunk|].
  apply extract_embedding_unit.
  - pose proof (pos_INR en). lra.
  - unfold min_chunk, hop_size in *. lia.
Qed.
End DetectedEmbeddings.

Local Close Scope R_scope.
